(** * The drawing engine of [src/draw/Game.ts]

    A shallow embedding of the class [Game]: its fields become a record, its
    handlers become functions from state to state, and the objects it shares
    by reference (shape objects and point arrays) live in an explicit memory.

    Numbers.  In the state of the engine a JavaScript number is modelled as
    an exact rational [Q]: there the rounding of binary64 arithmetic is not
    modelled, and a decimal literal such as [0.9] denotes the rational
    [9/10].  JavaScript's [===] on numbers is numeric equality, [Qeq] here.
    [Math.hypot] leaves the rationals, so it is a parameter of the
    development: every theorem holds for every function put in its place.
    The viewport ([screenToCanvas], [canvasToScreen], [zoom], [pan]) is given
    a second time on binary64 numbers, in the module [B64]: what is said of
    the round trip between device and scene coordinates, and of the anchor
    of a zoom, depends on the rounding and is said there.

    Rendering.  [redrawCanvas], [drawShape] and the previews painted by
    [mouseMoveHandler] only write to the 2D context; they read the state and
    never change it.  The handlers as functions on the state leave them out;
    what each handler paints is given apart, as the list of the operations
    on the context ([paints]).

    Listeners.  The constructor and [destroy] register and remove listeners
    on the canvas and the window; they are modelled on the list of the
    registered listeners ([Wiring]). *)

From Stdlib Require Import Floats.
From Stdlib Require Import QArith Qminmax Qabs String Bool Lia Lqa.
From stdpp Require Import base option list.

Local Open Scope Q_scope.
Local Open Scope list_scope.

(** ** Data *)

(** [type Tool = "circle" | "rect" | "pencil" | "eraser" | "move"] *)
Inductive Tool := Tcircle | Trect | Tpencil | Teraser | Tmove.

Definition Tool_eqb (a b : Tool) : bool :=
  match a, b with
  | Tcircle, Tcircle | Trect, Trect | Tpencil, Tpencil
  | Teraser, Teraser | Tmove, Tmove => true
  | _, _ => false
  end.

(** An element [{ x: number; y: number }] of a pencil stroke.  Points are
    created once and never written to afterwards, so they are values. *)
Record Point := mkPoint { point_x : Q; point_y : Q }.

(** A location in memory (an object reference). *)
Abbreviation loc := nat.

(** [type Shape], parameterised by what stands for a [points] array: the
    list of points itself in a JSON value, a reference to the array for an
    object in memory.  [Other] is an object whose [type] is none of the five
    tags: TypeScript's union is erased at run time, and a shape that arrives
    over the socket is stored whatever its tag. *)
Inductive ShapeOf (P : Type) : Type :=
| Rect (x y width height : Q) (color : string) (lineWidth : Q)
| Circle (centerX centerY radius : Q) (color : string) (lineWidth : Q)
| Pencil (points : P) (color : string) (lineWidth : Q)
| Move (shape : ShapeOf P) (offsetX offsetY : Q)
| Eraser (x y width height : Q)
| Other (tag : string).

Arguments Rect {P} x y width height color lineWidth.
Arguments Circle {P} centerX centerY radius color lineWidth.
Arguments Pencil {P} points color lineWidth.
Arguments Move {P} shape offsetX offsetY.
Arguments Eraser {P} x y width height.
Arguments Other {P} tag.

(** A shape as a JSON value: what [JSON.stringify] writes and [JSON.parse]
    reads. *)
Abbreviation Shape := (ShapeOf (list Point)).

(** A shape object in memory.  Its [points] is a reference, because
    [mouseUpHandler] stores [this.currentPencilStroke] itself in the shape it
    commits and [mouseMoveHandler] pushes onto that array.  The [shape] of a
    move wrapper is kept inline: the wrapped object is only ever read through
    its wrapper (it is never compared by reference nor written to), so its
    identity cannot be observed. *)
Abbreviation Obj := (ShapeOf loc).

Definition is_move {P} (s : ShapeOf P) : bool :=
  match s with Move _ _ _ => true | _ => false end.

(** The payload of a chat message: [{ shape }] or
    [{ type: "update", shapes, isMoving }]; [isMoving] is absent from the
    update sent by [eraseShape]. *)
Inductive Payload :=
| ShapeMsg (shape : Shape)
| UpdateMsg (shapes : list Shape) (isMoving : option bool).

(** [{ type: "chat", message: JSON.stringify(payload), roomId }] *)
Record Envelope := chat { message : Payload; env_roomId : string }.

(** An inbound socket message each part of which, when it parses, has the
    shape that the engine expects; what else [event.data] can be is in
    [RawData] below. *)
Inductive Data :=
| NotJSON                (* JSON.parse(event.data) throws *)
| NotChat                (* it parses, with message.type !== "chat" *)
| ChatNotJSON            (* JSON.parse(message.message) throws *)
| Chat (p : Payload).    (* a chat message with this payload *)

(** ** The state of a [Game] *)

Record Game := mkGame {
  objs : list Obj;                  (* memory: shape objects *)
  arrs : list (list Point);         (* memory: point arrays *)
  existingShapes : list loc;
  roomId : string;
  clicked : bool;
  startX : Q;
  startY : Q;
  selectedTool : Tool;
  currentPencilStroke : loc;        (* a point array *)
  activeShape : option loc;         (* a shape object, or null *)
  currentMouseX : Q;
  currentMouseY : Q;
  currentColor : string;
  currentLineWidth : Q;
  scale : Q;
  offsetX : Q;
  offsetY : Q;
  isPanning : bool;
  lastPanX : Q;
  lastPanY : Q;
  cursor : string;                  (* canvas.style.cursor *)
  sent : list Envelope              (* what socket.send was given, oldest first *)
}.

(** [minScale] and [maxScale] are initialised and never assigned. *)
Definition minScale : Q := 1 # 10.
Definition maxScale : Q := 5.

(** Field assignments. *)
Definition set_objs (g : Game) (v : list Obj) : Game :=
  mkGame v (arrs g) (existingShapes g) (roomId g) (clicked g) (startX g) (startY g)
    (selectedTool g) (currentPencilStroke g) (activeShape g) (currentMouseX g)
    (currentMouseY g) (currentColor g) (currentLineWidth g) (scale g) (offsetX g)
    (offsetY g) (isPanning g) (lastPanX g) (lastPanY g) (cursor g) (sent g).
Definition set_arrs (g : Game) (v : list (list Point)) : Game :=
  mkGame (objs g) v (existingShapes g) (roomId g) (clicked g) (startX g) (startY g)
    (selectedTool g) (currentPencilStroke g) (activeShape g) (currentMouseX g)
    (currentMouseY g) (currentColor g) (currentLineWidth g) (scale g) (offsetX g)
    (offsetY g) (isPanning g) (lastPanX g) (lastPanY g) (cursor g) (sent g).
Definition set_existingShapes (g : Game) (v : list loc) : Game :=
  mkGame (objs g) (arrs g) v (roomId g) (clicked g) (startX g) (startY g)
    (selectedTool g) (currentPencilStroke g) (activeShape g) (currentMouseX g)
    (currentMouseY g) (currentColor g) (currentLineWidth g) (scale g) (offsetX g)
    (offsetY g) (isPanning g) (lastPanX g) (lastPanY g) (cursor g) (sent g).
Definition set_clicked (g : Game) (v : bool) : Game :=
  mkGame (objs g) (arrs g) (existingShapes g) (roomId g) v (startX g) (startY g)
    (selectedTool g) (currentPencilStroke g) (activeShape g) (currentMouseX g)
    (currentMouseY g) (currentColor g) (currentLineWidth g) (scale g) (offsetX g)
    (offsetY g) (isPanning g) (lastPanX g) (lastPanY g) (cursor g) (sent g).
Definition set_start (g : Game) (vx vy : Q) : Game :=
  mkGame (objs g) (arrs g) (existingShapes g) (roomId g) (clicked g) vx vy
    (selectedTool g) (currentPencilStroke g) (activeShape g) (currentMouseX g)
    (currentMouseY g) (currentColor g) (currentLineWidth g) (scale g) (offsetX g)
    (offsetY g) (isPanning g) (lastPanX g) (lastPanY g) (cursor g) (sent g).
Definition set_selectedTool (g : Game) (v : Tool) : Game :=
  mkGame (objs g) (arrs g) (existingShapes g) (roomId g) (clicked g) (startX g) (startY g)
    v (currentPencilStroke g) (activeShape g) (currentMouseX g)
    (currentMouseY g) (currentColor g) (currentLineWidth g) (scale g) (offsetX g)
    (offsetY g) (isPanning g) (lastPanX g) (lastPanY g) (cursor g) (sent g).
Definition set_currentPencilStroke (g : Game) (v : loc) : Game :=
  mkGame (objs g) (arrs g) (existingShapes g) (roomId g) (clicked g) (startX g) (startY g)
    (selectedTool g) v (activeShape g) (currentMouseX g)
    (currentMouseY g) (currentColor g) (currentLineWidth g) (scale g) (offsetX g)
    (offsetY g) (isPanning g) (lastPanX g) (lastPanY g) (cursor g) (sent g).
Definition set_activeShape (g : Game) (v : option loc) : Game :=
  mkGame (objs g) (arrs g) (existingShapes g) (roomId g) (clicked g) (startX g) (startY g)
    (selectedTool g) (currentPencilStroke g) v (currentMouseX g)
    (currentMouseY g) (currentColor g) (currentLineWidth g) (scale g) (offsetX g)
    (offsetY g) (isPanning g) (lastPanX g) (lastPanY g) (cursor g) (sent g).
Definition set_currentMouse (g : Game) (vx vy : Q) : Game :=
  mkGame (objs g) (arrs g) (existingShapes g) (roomId g) (clicked g) (startX g) (startY g)
    (selectedTool g) (currentPencilStroke g) (activeShape g) vx
    vy (currentColor g) (currentLineWidth g) (scale g) (offsetX g)
    (offsetY g) (isPanning g) (lastPanX g) (lastPanY g) (cursor g) (sent g).
Definition set_currentColor (g : Game) (v : string) : Game :=
  mkGame (objs g) (arrs g) (existingShapes g) (roomId g) (clicked g) (startX g) (startY g)
    (selectedTool g) (currentPencilStroke g) (activeShape g) (currentMouseX g)
    (currentMouseY g) v (currentLineWidth g) (scale g) (offsetX g)
    (offsetY g) (isPanning g) (lastPanX g) (lastPanY g) (cursor g) (sent g).
Definition set_currentLineWidth (g : Game) (v : Q) : Game :=
  mkGame (objs g) (arrs g) (existingShapes g) (roomId g) (clicked g) (startX g) (startY g)
    (selectedTool g) (currentPencilStroke g) (activeShape g) (currentMouseX g)
    (currentMouseY g) (currentColor g) v (scale g) (offsetX g)
    (offsetY g) (isPanning g) (lastPanX g) (lastPanY g) (cursor g) (sent g).
Definition set_scale (g : Game) (v : Q) : Game :=
  mkGame (objs g) (arrs g) (existingShapes g) (roomId g) (clicked g) (startX g) (startY g)
    (selectedTool g) (currentPencilStroke g) (activeShape g) (currentMouseX g)
    (currentMouseY g) (currentColor g) (currentLineWidth g) v (offsetX g)
    (offsetY g) (isPanning g) (lastPanX g) (lastPanY g) (cursor g) (sent g).
Definition set_offset (g : Game) (vx vy : Q) : Game :=
  mkGame (objs g) (arrs g) (existingShapes g) (roomId g) (clicked g) (startX g) (startY g)
    (selectedTool g) (currentPencilStroke g) (activeShape g) (currentMouseX g)
    (currentMouseY g) (currentColor g) (currentLineWidth g) (scale g) vx
    vy (isPanning g) (lastPanX g) (lastPanY g) (cursor g) (sent g).
Definition set_isPanning (g : Game) (v : bool) : Game :=
  mkGame (objs g) (arrs g) (existingShapes g) (roomId g) (clicked g) (startX g) (startY g)
    (selectedTool g) (currentPencilStroke g) (activeShape g) (currentMouseX g)
    (currentMouseY g) (currentColor g) (currentLineWidth g) (scale g) (offsetX g)
    (offsetY g) v (lastPanX g) (lastPanY g) (cursor g) (sent g).
Definition set_lastPan (g : Game) (vx vy : Q) : Game :=
  mkGame (objs g) (arrs g) (existingShapes g) (roomId g) (clicked g) (startX g) (startY g)
    (selectedTool g) (currentPencilStroke g) (activeShape g) (currentMouseX g)
    (currentMouseY g) (currentColor g) (currentLineWidth g) (scale g) (offsetX g)
    (offsetY g) (isPanning g) vx vy (cursor g) (sent g).
Definition set_cursor (g : Game) (v : string) : Game :=
  mkGame (objs g) (arrs g) (existingShapes g) (roomId g) (clicked g) (startX g) (startY g)
    (selectedTool g) (currentPencilStroke g) (activeShape g) (currentMouseX g)
    (currentMouseY g) (currentColor g) (currentLineWidth g) (scale g) (offsetX g)
    (offsetY g) (isPanning g) (lastPanX g) (lastPanY g) v (sent g).
Definition set_sent (g : Game) (v : list Envelope) : Game :=
  mkGame (objs g) (arrs g) (existingShapes g) (roomId g) (clicked g) (startX g) (startY g)
    (selectedTool g) (currentPencilStroke g) (activeShape g) (currentMouseX g)
    (currentMouseY g) (currentColor g) (currentLineWidth g) (scale g) (offsetX g)
    (offsetY g) (isPanning g) (lastPanX g) (lastPanY g) (cursor g) v.

(** ** Memory *)

(** Reading a reference.  A reference that points nowhere does not occur in a
    state the engine reaches (see [wf] below); it reads as an empty array or
    as an object without a known tag. *)
Definition deref_arr (m : list (list Point)) (a : loc) : list Point :=
  default [] (m !! a).

Definition deref_in (os : list Obj) (l : loc) : Obj :=
  default (Other "undefined") (os !! l).

Definition deref (g : Game) (l : loc) : Obj := deref_in (objs g) l.

(** [JSON.stringify] of a shape object: the arrays it refers to are written
    out. *)
Fixpoint stringify (m : list (list Point)) (o : Obj) : Shape :=
  match o with
  | Rect x y w h c lw => Rect x y w h c lw
  | Circle cx cy r c lw => Circle cx cy r c lw
  | Pencil a c lw => Pencil (deref_arr m a) c lw
  | Move s ox oy => Move (stringify m s) ox oy
  | Eraser x y w h => Eraser x y w h
  | Other t => Other t
  end.

(** [JSON.stringify(this.existingShapes)], as a list of JSON values. *)
Definition shapes_json (g : Game) : list Shape :=
  map (fun l => stringify (arrs g) (deref g l)) (existingShapes g).

(** [JSON.parse] of a shape: every array it contains is a new array. *)
Fixpoint parse (s : Shape) (m : list (list Point)) : Obj * list (list Point) :=
  match s with
  | Rect x y w h c lw => (Rect x y w h c lw, m)
  | Circle cx cy r c lw => (Circle cx cy r c lw, m)
  | Pencil pts c lw => (Pencil (length m) c lw, m ++ [pts])
  | Move s ox oy => let (o, m') := parse s m in (Move o ox oy, m')
  | Eraser x y w h => (Eraser x y w h, m)
  | Other t => (Other t, m)
  end.

(** A new object in memory; the result is its reference. *)
Definition alloc (g : Game) (o : Obj) : loc * Game :=
  (length (objs g), set_objs g (objs g ++ [o])).

(** [JSON.parse] of an array of shapes: the new objects are put in memory
    [os], [m]; the result lists their references, in order. *)
Fixpoint parse_all (ss : list Shape) (os : list Obj) (m : list (list Point))
  : list loc * list Obj * list (list Point) :=
  match ss with
  | [] => ([], os, m)
  | s :: ss =>
      let (o, m1) := parse s m in
      let '(ls, os2, m2) := parse_all ss (os ++ [o]) m1 in
      (length os :: ls, os2, m2)
  end.

(** [this.existingShapes.push(shape)] for a new object [o]. *)
Definition push_new (g : Game) (o : Obj) : Game :=
  let (l, g1) := alloc g o in
  set_existingShapes g1 (existingShapes g1 ++ [l]).

(** [this.socket.send(JSON.stringify({ type: "chat", message:
    JSON.stringify(payload), roomId: this.roomId }))] *)
Definition send (g : Game) (p : Payload) : Game :=
  set_sent g (sent g ++ [chat p (roomId g)]).

(** Comparisons of numbers, written as in the source. *)
Definition Qleb (a b : Q) : bool := Qle_bool a b.      (* a <= b *)
Definition Qgeb (a b : Q) : bool := Qle_bool b a.      (* a >= b *)
Definition Qgtb (a b : Q) : bool := negb (Qle_bool a b). (* a > b *)

(** [new Game(canvas, roomId, socket)], before [init] resolves: the field
    initialisers of the class. *)
Definition newGame (room : string) : Game :=
  mkGame [] [[]] [] room false 0 0 Tpencil 0%nat None 0 0 "black" 2
         1 0 0 false 0 0 "" [].

Section Engine.

(** [Math.hypot]. *)
Variable hypot : Q -> Q -> Q.

(** ** Viewport *)

Definition screenToCanvas (g : Game) (x y : Q) : Point :=
  mkPoint ((x - offsetX g) / scale g) ((y - offsetY g) / scale g).

Definition canvasToScreen (g : Game) (x y : Q) : Point :=
  mkPoint (x * scale g + offsetX g) (y * scale g + offsetY g).

Definition zoom (g : Game) (deltaY centerX centerY : Q) : Game :=
  let zoomFactor := if Qgtb deltaY 0 then 9 # 10 else 11 # 10 in
  let newScale := Qmin (Qmax (scale g * zoomFactor) minScale) maxScale in
  if negb (Qeq_bool newScale (scale g)) then
    let canvasPoint := screenToCanvas g centerX centerY in
    let g := set_scale g newScale in
    let newScreenPoint := canvasToScreen g (point_x canvasPoint) (point_y canvasPoint) in
    set_offset g (offsetX g + (centerX - point_x newScreenPoint))
                 (offsetY g + (centerY - point_y newScreenPoint))
  else g.

Definition pan (g : Game) (deltaX deltaY : Q) : Game :=
  set_offset g (offsetX g + deltaX) (offsetY g + deltaY).

Definition wheelHandler (g : Game) (x y deltaX deltaY : Q) (ctrlOrMeta : bool) : Game :=
  if ctrlOrMeta then zoom g deltaY x y else pan g (- deltaX) (- deltaY).

Definition tool_cursor (t : Tool) : string :=
  if Tool_eqb t Tmove then "move" else "crosshair".

Definition keyDownHandler (g : Game) (code : string) : Game :=
  if String.eqb code "Space" then set_cursor (set_isPanning g true) "grab" else g.

Definition keyUpHandler (g : Game) (code : string) : Game :=
  if String.eqb code "Space"
  then let g := set_isPanning g false in set_cursor g (tool_cursor (selectedTool g))
  else g.

Definition setTool (g : Game) (tool : Tool) : Game :=
  set_cursor (set_selectedTool g tool) (tool_cursor tool).

Definition setColor (g : Game) (color : string) : Game := set_currentColor g color.

Definition setLineWidth (g : Game) (lineWidth : Q) : Game := set_currentLineWidth g lineWidth.

(** ** Moving a shape *)

(** [getMovedShape(moveShape)], given the three fields of [moveShape].  The
    rect and circle cases build a new object, the pencil case a new object
    with a new array, and the default case returns the wrapped object. *)
Definition getMovedShape (m : list (list Point)) (shape : Obj) (offsetX offsetY : Q)
  : Obj * list (list Point) :=
  match shape with
  | Rect x y w h c lw => (Rect (x + offsetX) (y + offsetY) w h c lw, m)
  | Circle cx cy r c lw => (Circle (cx + offsetX) (cy + offsetY) r c lw, m)
  | Pencil a c lw =>
      (Pencil (length m) c lw,
       m ++ [map (fun point => mkPoint (point_x point + offsetX) (point_y point + offsetY))
                 (deref_arr m a)])
  | _ => (shape, m)
  end.

(** ** Eraser *)

(** The callback of the filter in [eraseShape]: [true] keeps the shape. *)
Definition erase_keeps (g : Game) (x y threshold : Q) (l : loc) : bool :=
  match deref g l with
  | Rect sx sy w h _ _ =>
      negb (Qgeb x sx && Qleb x (sx + w) && Qgeb y sy && Qleb y (sy + h))
  | Circle cx cy r _ _ => Qgtb (hypot (x - cx) (y - cy)) r
  | Pencil a _ _ =>
      forallb (fun point => Qgtb (hypot (x - point_x point) (y - point_y point)) threshold)
              (deref_arr (arrs g) a)
  | _ => true
  end.

Definition eraseShape (g : Game) (x y : Q) : Game :=
  let threshold := 10 / scale g in
  let previousShapesCount := length (existingShapes g) in
  let g := set_existingShapes g (List.filter (erase_keeps g x y threshold) (existingShapes g)) in
  if negb (Nat.eqb previousShapesCount (length (existingShapes g)))
  then send g (UpdateMsg (shapes_json g) None)
  else g.

(** ** Pointer handlers *)

(** The callback of [find] in [mouseDownHandler]: does the press point, held
    in [startX] and [startY], fall on the shape? *)
Definition hit_at_start (g : Game) (l : loc) : bool :=
  match deref g l with
  | Move _ _ _ => false
  | Rect x y w h _ _ =>
      Qgeb (startX g) x && Qleb (startX g) (x + w) &&
      Qgeb (startY g) y && Qleb (startY g) (y + h)
  | Circle cx cy r _ _ => Qleb (hypot (startX g - cx) (startY g - cy)) r
  | Pencil a _ _ =>
      existsb (fun point =>
                 Qleb (hypot (startX g - point_x point) (startY g - point_y point))
                      (10 / scale g))
              (deref_arr (arrs g) a)
  | _ => false
  end.

Definition mouseDownHandler (g : Game) (screenX screenY : Q) : Game :=
  let g := set_clicked g true in
  if isPanning g then set_lastPan g screenX screenY
  else
    let canvasPoint := screenToCanvas g screenX screenY in
    let g := set_start g (point_x canvasPoint) (point_y canvasPoint) in
    let g := set_currentMouse g (startX g) (startY g) in
    match selectedTool g with
    | Tpencil =>
        let a := length (arrs g) in
        set_currentPencilStroke
          (set_arrs g (arrs g ++ [[mkPoint (startX g) (startY g)]])) a
    | Teraser => eraseShape g (startX g) (startY g)
    | Tmove =>
        match find (hit_at_start g) (rev (existingShapes g)) with
        | Some shapeToMove =>
            let g := set_existingShapes g
                       (List.filter
                          (fun l => negb (Nat.eqb l shapeToMove) && negb (is_move (deref g l)))
                          (existingShapes g)) in
            let (moveShape, g) := alloc g (Move (deref g shapeToMove) 0 0) in
            let g := set_activeShape g (Some moveShape) in
            let g := set_existingShapes g (existingShapes g ++ [moveShape]) in
            send g (UpdateMsg (shapes_json g) (Some true))
        | None => g
        end
    | _ => g
    end.

(** [this.existingShapes.push(newShape)] followed by the send of
    [{ shape: newShape }]. *)
Definition commit (g : Game) (newShape : Obj) : Game :=
  let g := push_new g newShape in
  send g (ShapeMsg (stringify (arrs g) newShape)).

Definition mouseUpHandler (g : Game) (screenX screenY : Q) : Game :=
  if negb (clicked g) then g
  else
    let g := set_clicked g false in
    let canvasPoint := screenToCanvas g screenX screenY in
    match selectedTool g with
    | Trect =>
        let width := point_x canvasPoint - startX g in
        let height := point_y canvasPoint - startY g in
        if Qgtb (Qabs width) 1 && Qgtb (Qabs height) 1 then
          commit g (Rect (Qmin (startX g) (point_x canvasPoint))
                         (Qmin (startY g) (point_y canvasPoint))
                         (Qabs width) (Qabs height)
                         (currentColor g) (currentLineWidth g))
        else g
    | Tcircle =>
        let radius := hypot (point_x canvasPoint - startX g) (point_y canvasPoint - startY g) in
        if Qgtb radius 1 then
          commit g (Circle (startX g) (startY g) radius (currentColor g) (currentLineWidth g))
        else g
    | Tpencil =>
        if Nat.ltb 1 (length (deref_arr (arrs g) (currentPencilStroke g))) then
          commit g (Pencil (currentPencilStroke g) (currentColor g) (currentLineWidth g))
        else g
    | Tmove =>
        match activeShape g with
        | Some a =>
            match deref g a with
            | Move shape ox oy =>
                let (finalShape, m) := getMovedShape (arrs g) shape ox oy in
                let g := set_arrs g m in
                let g := set_existingShapes g
                           (List.filter (fun l => negb (is_move (deref g l)))
                                        (existingShapes g)) in
                let g := push_new g finalShape in
                let g := send g (UpdateMsg (shapes_json g) (Some false)) in
                set_activeShape g None
            | _ => g   (* excluded: activeShape is only ever given a move wrapper *)
            end
        | None => g
        end
    | Teraser => g
    end.

Definition mouseMoveHandler (g : Game) (screenX screenY : Q) : Game :=
  if clicked g && isPanning g then
    let deltaX := screenX - lastPanX g in
    let deltaY := screenY - lastPanY g in
    let g := pan g deltaX deltaY in
    set_lastPan g screenX screenY
  else
    let canvasPoint := screenToCanvas g screenX screenY in
    let g := set_currentMouse g (point_x canvasPoint) (point_y canvasPoint) in
    if negb (clicked g) then g
    else
      match selectedTool g with
      | Trect => g
      | Tcircle => g
      | Tpencil =>
          let a := currentPencilStroke g in
          set_arrs g (<[a := deref_arr (arrs g) a ++ [canvasPoint]]> (arrs g))
      | Teraser => eraseShape g (point_x canvasPoint) (point_y canvasPoint)
      | Tmove =>
          match activeShape g with
          | Some a =>
              match deref g a with
              | Move shape _ _ =>
                  let g := set_objs g
                             (<[a := Move shape (point_x canvasPoint - startX g)
                                                (point_y canvasPoint - startY g)]> (objs g)) in
                  send g (UpdateMsg (shapes_json g) (Some true))
              | _ => g   (* excluded, as in mouseUpHandler *)
              end
          | None => g
          end
      end.

(** ** The socket *)

(** What a handler does: it returns, or it throws and leaves the state as it
    was when the exception was raised. *)
Inductive Outcome := Returned (g : Game) | Thrown (g : Game).

Definition state_of (r : Outcome) : Game :=
  match r with Returned g | Thrown g => g end.

(** [this.socket.onmessage] *)
Definition onmessage (g : Game) (data : Data) : Outcome :=
  match data with
  | NotJSON => Thrown g
  | NotChat => Returned g
  | ChatNotJSON => Thrown g
  | Chat (UpdateMsg shapes isMoving) =>
      let '(ls, os, m) := parse_all shapes (objs g) (arrs g) in
      let g := set_existingShapes (set_arrs (set_objs g os) m) ls in
      match isMoving, activeShape g with
      | Some true, Some localActiveShape =>
          Returned (set_existingShapes g
                      (map (fun l => if is_move (deref g l) then localActiveShape else l)
                           (existingShapes g)))
      | _, _ => Returned g
      end
  | Chat (ShapeMsg shape) =>
      let (o, m) := parse shape (arrs g) in
      Returned (push_new (set_arrs g m) o)
  end.

(** [init], when [getExistingShapes] resolves with [shapes]. *)
Definition init_resolved (g : Game) (shapes : list Shape) : Game :=
  let '(ls, os, m) := parse_all shapes (objs g) (arrs g) in
  set_existingShapes (set_arrs (set_objs g os) m) ls.

(** ** Events *)

Inductive Event :=
| MouseDown (screenX screenY : Q)
| MouseUp (screenX screenY : Q)
| MouseMove (screenX screenY : Q)
| Wheel (x y deltaX deltaY : Q) (ctrlOrMeta : bool)
| KeyDown (code : string)
| KeyUp (code : string)
| SetTool (tool : Tool)
| SetColor (color : string)
| SetLineWidth (lineWidth : Q)
| InitResolved (shapes : list Shape)
| Message (data : Data).

(** One event: the state the handler leaves, whether it returned or threw. *)
Definition step (g : Game) (e : Event) : Game :=
  match e with
  | MouseDown x y => mouseDownHandler g x y
  | MouseUp x y => mouseUpHandler g x y
  | MouseMove x y => mouseMoveHandler g x y
  | Wheel x y dx dy c => wheelHandler g x y dx dy c
  | KeyDown c => keyDownHandler g c
  | KeyUp c => keyUpHandler g c
  | SetTool t => setTool g t
  | SetColor c => setColor g c
  | SetLineWidth w => setLineWidth g w
  | InitResolved ss => init_resolved g ss
  | Message d => state_of (onmessage g d)
  end.

Definition run (g : Game) (es : list Event) : Game := fold_left step es g.

End Engine.

(** * The viewport in binary64 *)

(** The numbers of the engine are binary64: [scale], [offsetX] and
    [offsetY], and the four methods that read and write them, on the
    primitive floats.  [-], [/], [*] and [+] are the IEEE 754 operations,
    rounded to nearest. *)
Module B64.

Local Open Scope float_scope.

Record Viewport := mkViewport { scale : float; offsetX : float; offsetY : float }.

(** [minScale = 0.1] and [maxScale = 5]; [0.1] is the binary64 number
    nearest to one tenth. *)
Definition minScale : float := 0x1.999999999999ap-4.
Definition maxScale : float := 5.

(** [Math.max] and [Math.min]: [NaN] if either argument is, and [+0] above
    [-0]. *)
Definition Math_max (a b : float) : float :=
  if is_nan a || is_nan b then nan
  else if a <? b then b
  else if b <? a then a
  else if get_sign a then b else a.

Definition Math_min (a b : float) : float :=
  if is_nan a || is_nan b then nan
  else if a <? b then a
  else if b <? a then b
  else if get_sign a then a else b.

Definition screenToCanvas (v : Viewport) (x y : float) : float * float :=
  ((x - offsetX v) / scale v, (y - offsetY v) / scale v).

Definition canvasToScreen (v : Viewport) (x y : float) : float * float :=
  (x * scale v + offsetX v, y * scale v + offsetY v).

(** [newScale] in [zoom]; [0.9] and [1.1] are the binary64 numbers nearest
    to nine tenths and to eleven tenths. *)
Definition newScale (v : Viewport) (deltaY : float) : float :=
  let zoomFactor := if 0 <? deltaY then 0x1.ccccccccccccdp-1 else 0x1.199999999999ap+0 in
  Math_min (Math_max (scale v * zoomFactor) minScale) maxScale.

(** [!==] on numbers is the negation of the IEEE equality. *)
Definition zoom (v : Viewport) (deltaY centerX centerY : float) : Viewport :=
  let newScale := newScale v deltaY in
  if negb (newScale =? scale v) then
    let canvasPoint := screenToCanvas v centerX centerY in
    let v := mkViewport newScale (offsetX v) (offsetY v) in
    let newScreenPoint := canvasToScreen v canvasPoint.1 canvasPoint.2 in
    mkViewport (scale v)
               (offsetX v + (centerX - newScreenPoint.1))
               (offsetY v + (centerY - newScreenPoint.2))
  else v.

Definition pan (v : Viewport) (deltaX deltaY : float) : Viewport :=
  mkViewport (scale v) (offsetX v + deltaX) (offsetY v + deltaY).

End B64.

(** * Messages as they arrive *)

(** [onmessage] above takes a message that has the shape the engine expects.
    What arrives need not: [JSON.parse] may throw, and what it returns may be
    [null], or lack the members that the handler reads, or have other values
    there.  A value is [null], or anything else, of which the model keeps
    what the handler reads. *)
Inductive Json (A : Type) : Type :=
| JNull
| JValue (a : A).

Arguments JNull {A}.
Arguments JValue {A} a.

(** A member that the handler reads as an [A]: it is [undefined], or some
    value that is no [A], or an [A]. *)
Inductive Member (A : Type) : Type :=
| Absent
| IllTyped
| WellTyped (a : A).

Arguments Absent {A}.
Arguments IllTyped {A}.
Arguments WellTyped {A} a.

(** What [JSON.parse(message.message)] returns when it is not [null]:
    whether its [type] is ["update"], its [shapes] as an array of shapes,
    whether its [isMoving] is truthy, and its [shape] as a shape. *)
Record RawPayload := mkRawPayload {
  p_type_is_update : bool;
  p_shapes : Member (list Shape);
  p_isMoving : bool;
  p_shape : Member Shape
}.

(** What [JSON.parse(event.data)] returns when it is not [null]: whether its
    [type] is ["chat"], and what [JSON.parse(message.message)] does: it
    throws ([None]) or returns a value. *)
Record RawMessage := mkRawMessage {
  m_type_is_chat : bool;
  m_message : option (Json RawPayload)
}.

(** [event.data]: [JSON.parse] throws on it ([None]) or returns a value. *)
Definition RawData : Type := option (Json RawMessage).

(** What the handler does with it.  Besides the two outcomes of [onmessage]
    there are three in which [existingShapes] is no longer an array of
    shapes, and the state is no state of the model. *)
Inductive RawOutcome :=
| Done (r : Outcome)
| StoreUndefined     (* existingShapes = undefined; map, or forEach in
                        redrawCanvas, then threw on it *)
| UndefinedInStore   (* existingShapes.push(undefined); drawShape skips it and
                        the handler returned *)
| StoreIllTyped.     (* existingShapes was assigned a value that is no array
                        of shapes, or was given an element that is no shape;
                        what the handler does next is not followed *)

(** [this.socket.onmessage], on whatever arrives. *)
Definition onmessage_raw (g : Game) (data : RawData) : RawOutcome :=
  match data with
  | None => Done (Thrown g)                      (* JSON.parse(event.data) throws *)
  | Some JNull => Done (Thrown g)                (* message.type, of null *)
  | Some (JValue message) =>
      if m_type_is_chat message then
        match m_message message with
        | None => Done (Thrown g)                (* JSON.parse(message.message) throws *)
        | Some JNull => Done (Thrown g)          (* parsedShape.type, of null *)
        | Some (JValue parsedShape) =>
            if p_type_is_update parsedShape then
              match p_shapes parsedShape with
              | WellTyped shapes =>
                  Done (onmessage g (Chat (UpdateMsg shapes (Some (p_isMoving parsedShape)))))
              | Absent => StoreUndefined
              | IllTyped => StoreIllTyped
              end
            else
              match p_shape parsedShape with
              | WellTyped shape => Done (onmessage g (Chat (ShapeMsg shape)))
              | Absent => UndefinedInStore
              | IllTyped => StoreIllTyped
              end
        end
      else Done (Returned g)
  end.

(** A chat message whose payload carries the shape [s]. *)
Definition chat_with_shape (s : Shape) : RawData :=
  Some (JValue (mkRawMessage true
                  (Some (JValue (mkRawPayload false Absent false (WellTyped s)))))).

(** A chat message whose payload is an update without [shapes], and one
    whose payload has neither the type of an update nor a [shape]. *)
Definition update_without_shapes (isMoving : bool) : RawData :=
  Some (JValue (mkRawMessage true
                  (Some (JValue (mkRawPayload true Absent isMoving Absent))))).

Definition chat_without_shape : RawData :=
  Some (JValue (mkRawMessage true
                  (Some (JValue (mkRawPayload false Absent false Absent))))).

(** A message on which [JSON.parse] throws or returns [null], at either
    level. *)
Definition unreadable (data : RawData) : bool :=
  match data with
  | None | Some JNull => true
  | Some (JValue message) =>
      m_type_is_chat message
      && match m_message message with
         | None | Some JNull => true
         | Some (JValue _) => false
         end
  end.

(** * The canvas *)

(** What is done to [this.ctx], in order: the methods called and the
    properties assigned.  [arc] is only ever called with the angles [0] and
    [Math.PI * 2], which are left out.  The value given to [strokeStyle] and
    to [lineWidth] is [None] when it is read from an object whose [type] is
    none of the five tags, of which the model keeps the tag only. *)
Module Ctx.

Inductive op :=
| save
| restore
| clearRect (x y w h : Q)
| fillStyle (v : string)
| fillRect (x y w h : Q)
| translate (x y : Q)
| scale (x y : Q)
| strokeStyle (v : option string)
| lineWidth (v : option Q)
| strokeRect (x y w h : Q)
| beginPath
| moveTo (x y : Q)
| lineTo (x y : Q)
| arc (x y radius : Q)
| stroke
| closePath.

End Ctx.

(** The depth of wrappers around a shape. *)
Fixpoint wrappers {P} (s : ShapeOf P) : nat :=
  match s with
  | Move s _ _ => S (wrappers s)
  | _ => 0%nat
  end.

(** [beginPath], [moveTo] the first point, [lineTo] every point, the first
    included, [stroke], [closePath]. *)
Definition polyline (p0 : Point) (points : list Point) : list Ctx.op :=
  [Ctx.beginPath; Ctx.moveTo (point_x p0) (point_y p0)]
  ++ map (fun point => Ctx.lineTo (point_x point) (point_y point)) points
  ++ [Ctx.stroke; Ctx.closePath].

(** [drawShape(shape)], with a bound [n] on the depth of the calls; the
    array that [getMovedShape] makes for a stroke is seen by the inner call
    only.  An object whose [type] is the empty string fails the test
    [!shape.type]. *)
Fixpoint drawShape_within (n : nat) (m : list (list Point)) (shape : Obj) : list Ctx.op :=
  match n with
  | O => []
  | S n =>
      match shape with
      | Other EmptyString => []
      | _ =>
          [Ctx.save]
          ++ match shape with
             | Rect _ _ _ _ color lineWidth
             | Circle _ _ _ color lineWidth
             | Pencil _ color lineWidth =>
                 [Ctx.strokeStyle (Some color); Ctx.lineWidth (Some lineWidth)]
             | Other _ => [Ctx.strokeStyle None; Ctx.lineWidth None]
             | Move _ _ _ | Eraser _ _ _ _ => []
             end
          ++ match shape with
             | Rect x y w h _ _ => [Ctx.strokeRect x y w h]
             | Pencil a _ _ =>
                 match deref_arr m a with
                 | [] => []
                 | p0 :: _ => polyline p0 (deref_arr m a)
                 end
             | Circle cx cy r _ _ => [Ctx.beginPath; Ctx.arc cx cy r; Ctx.stroke; Ctx.closePath]
             | Move shape ox oy =>
                 let (movedShape, m') := getMovedShape m shape ox oy in
                 drawShape_within n m' movedShape
             | _ => []
             end
          ++ [Ctx.restore]
      end
  end.

(** [drawShape(shape)]: the calls are no deeper than the wrappers, so the
    bound is never reached ([drawShape_move] below). *)
Definition drawShape (m : list (list Point)) (shape : Obj) : list Ctx.op :=
  drawShape_within (S (wrappers shape)) m shape.

Section Painting.

Variable hypot : Q -> Q -> Q.

(** [this.canvas.width] and [this.canvas.height] *)
Variables width height : Q.

(** [this.ctx.translate(this.offsetX, this.offsetY)] followed by
    [this.ctx.scale(this.scale, this.scale)] *)
Definition applyTransform (g : Game) : list Ctx.op :=
  [Ctx.translate (offsetX g) (offsetY g); Ctx.scale (scale g) (scale g)].

Definition redrawCanvas (g : Game) : list Ctx.op :=
  [Ctx.save; Ctx.clearRect 0 0 width height; Ctx.fillStyle "white";
   Ctx.fillRect 0 0 width height]
  ++ applyTransform g
  ++ flat_map (fun l => drawShape (arrs g) (deref g l)) (existingShapes g)
  ++ [Ctx.restore].

(** What [mouseDownHandler] paints: [eraseShape] ends with a repaint, and
    so does the branch of the move tool when a shape is found. *)
Definition mouseDown_paints (g : Game) (screenX screenY : Q) : list Ctx.op :=
  let g' := mouseDownHandler hypot g screenX screenY in
  if isPanning g then []
  else
    let canvasPoint := screenToCanvas g screenX screenY in
    let g1 := set_currentMouse
                (set_start (set_clicked g true) (point_x canvasPoint) (point_y canvasPoint))
                (point_x canvasPoint) (point_y canvasPoint) in
    match selectedTool g with
    | Teraser => redrawCanvas g'
    | Tmove =>
        match find (hit_at_start hypot g1) (rev (existingShapes g)) with
        | Some _ => redrawCanvas g'
        | None => []
        end
    | _ => []
    end.

(** What [mouseUpHandler] paints: a repaint at the end, unless it returns
    at once. *)
Definition mouseUp_paints (g : Game) (screenX screenY : Q) : list Ctx.op :=
  if negb (clicked g) then [] else redrawCanvas (mouseUpHandler hypot g screenX screenY).

(** What [mouseMoveHandler] paints: a repaint by [pan], [eraseShape] and the
    move tool; a repaint followed by the outline of the shape in progress by
    the rectangle and circle tools; the stroke buffer, over what is there,
    by the pencil. *)
Definition mouseMove_paints (g : Game) (screenX screenY : Q) : list Ctx.op :=
  let g' := mouseMoveHandler hypot g screenX screenY in
  if clicked g && isPanning g
  then redrawCanvas (pan g (screenX - lastPanX g) (screenY - lastPanY g))
  else if negb (clicked g) then []
  else
    let canvasPoint := screenToCanvas g screenX screenY in
    match selectedTool g with
    | Trect =>
        let width := point_x canvasPoint - startX g in
        let height := point_y canvasPoint - startY g in
        redrawCanvas g'
        ++ [Ctx.save] ++ applyTransform g'
        ++ [Ctx.strokeRect (Qmin (startX g) (point_x canvasPoint))
                           (Qmin (startY g) (point_y canvasPoint))
                           (Qabs width) (Qabs height);
            Ctx.restore]
    | Tcircle =>
        let radius := hypot (point_x canvasPoint - startX g) (point_y canvasPoint - startY g) in
        redrawCanvas g'
        ++ [Ctx.save] ++ applyTransform g'
        ++ [Ctx.beginPath; Ctx.arc (startX g) (startY g) radius; Ctx.stroke; Ctx.closePath;
            Ctx.restore]
    | Tpencil =>
        match deref_arr (arrs g') (currentPencilStroke g') with
        | [] => []   (* excluded: the array holds the point just pushed *)
        | p0 :: _ =>
            [Ctx.save] ++ applyTransform g'
            ++ polyline p0 (deref_arr (arrs g') (currentPencilStroke g'))
            ++ [Ctx.restore]
        end
    | Teraser => redrawCanvas g'
    | Tmove =>
        match activeShape g with
        | Some _ => redrawCanvas g'
        | None => []
        end
    end.

(** What the handler of an event paints.  [zoom] repaints when it changes
    the scale and [pan] always; the keys and [setTool] paint nothing;
    [onmessage] repaints after a chat message. *)
Definition paints (g : Game) (e : Event) : list Ctx.op :=
  let g' := step hypot g e in
  match e with
  | MouseDown x y => mouseDown_paints g x y
  | MouseUp x y => mouseUp_paints g x y
  | MouseMove x y => mouseMove_paints g x y
  | Wheel _ _ _ deltaY true =>
      let zoomFactor := if Qgtb deltaY 0 then 9 # 10 else 11 # 10 in
      let newScale := Qmin (Qmax (scale g * zoomFactor) minScale) maxScale in
      if negb (Qeq_bool newScale (scale g)) then redrawCanvas g' else []
  | Wheel _ _ _ _ false => redrawCanvas g'
  | KeyDown _ | KeyUp _ | SetTool _ => []
  | SetColor _ | SetLineWidth _ | InitResolved _ => redrawCanvas g'
  | Message (Chat _) => redrawCanvas g'
  | Message _ => []
  end.

End Painting.

(** * Listeners *)

(** Where a listener is registered. *)
Inductive Target := TheCanvas | TheWindow.

(** The six handlers that a [Game] registers.  They are arrow functions
    held in fields, so each [Game] has its own six and the reference given to
    [removeEventListener] is the one given to [addEventListener]. *)
Inductive Callback :=
| OnMouseDown | OnMouseUp | OnMouseMove | OnWheel | OnKeyDown | OnKeyUp.

(** A registered listener: the target, the event type, the [Game] that owns
    the callback and the callback. *)
Record Listener := mkListener {
  on_target : Target;
  on_type : string;
  owner : nat;
  callback : Callback
}.

Definition Target_eqb (a b : Target) : bool :=
  match a, b with
  | TheCanvas, TheCanvas | TheWindow, TheWindow => true
  | _, _ => false
  end.

Definition Callback_eqb (a b : Callback) : bool :=
  match a, b with
  | OnMouseDown, OnMouseDown | OnMouseUp, OnMouseUp | OnMouseMove, OnMouseMove
  | OnWheel, OnWheel | OnKeyDown, OnKeyDown | OnKeyUp, OnKeyUp => true
  | _, _ => false
  end.

Definition Listener_eqb (a b : Listener) : bool :=
  Target_eqb (on_target a) (on_target b) && String.eqb (on_type a) (on_type b)
  && Nat.eqb (owner a) (owner b) && Callback_eqb (callback a) (callback b).

(** The page as a [Game] writes to it: the listeners on the canvas and on
    the window, in the order of their registration, and the [Game] whose
    closure is [socket.onmessage], if any. *)
Record Wiring := mkWiring {
  listeners : list Listener;
  socket_onmessage : option nat
}.

(** [target.addEventListener(type, callback)]: a listener that is already
    there is not added again. *)
Definition addEventListener (w : Wiring) (l : Listener) : Wiring :=
  if existsb (Listener_eqb l) (listeners w) then w
  else mkWiring (listeners w ++ [l]) (socket_onmessage w).

(** [target.removeEventListener(type, callback)] *)
Definition removeEventListener (w : Wiring) (l : Listener) : Wiring :=
  mkWiring (List.filter (fun l' => negb (Listener_eqb l l')) (listeners w)) (socket_onmessage w).

(** The methods of the [Game] numbered [this], as far as they touch the
    page. *)
Definition initHandlers (this : nat) (w : Wiring) : Wiring :=
  mkWiring (listeners w) (Some this).

Definition initMouseHandlers (this : nat) (w : Wiring) : Wiring :=
  let w := addEventListener w (mkListener TheCanvas "mousedown" this OnMouseDown) in
  let w := addEventListener w (mkListener TheCanvas "mouseup" this OnMouseUp) in
  addEventListener w (mkListener TheCanvas "mousemove" this OnMouseMove).

Definition initZoomHandlers (this : nat) (w : Wiring) : Wiring :=
  let w := addEventListener w (mkListener TheCanvas "wheel" this OnWheel) in
  let w := addEventListener w (mkListener TheWindow "keydown" this OnKeyDown) in
  addEventListener w (mkListener TheWindow "keyup" this OnKeyUp).

(** The constructor, after its assignments: [init()] starts the fetch and
    leaves the page alone. *)
Definition construct (this : nat) (w : Wiring) : Wiring :=
  initZoomHandlers this (initMouseHandlers this (initHandlers this w)).

Definition destroy (this : nat) (w : Wiring) : Wiring :=
  let w := removeEventListener w (mkListener TheCanvas "mousedown" this OnMouseDown) in
  let w := removeEventListener w (mkListener TheCanvas "mouseup" this OnMouseUp) in
  let w := removeEventListener w (mkListener TheCanvas "mousemove" this OnMouseMove) in
  let w := removeEventListener w (mkListener TheCanvas "wheel" this OnWheel) in
  let w := removeEventListener w (mkListener TheWindow "keydown" this OnKeyDown) in
  removeEventListener w (mkListener TheWindow "keyup" this OnKeyUp).

Local Close Scope Q_scope.

(** * Notions used to state the properties *)

(** ** Well-formed states

    Every reference held by the state points into memory, and [activeShape]
    is a move wrapper around a shape that is not itself a wrapper.  The
    state of a new [Game] is well formed and every handler keeps it so
    ([wf_step] below). *)

(** Every array that the object refers to is among the first [n]. *)
Fixpoint wf_obj (n : nat) (o : Obj) : bool :=
  match o with
  | Pencil a _ _ => a <? n
  | Move s _ _ => wf_obj n s
  | _ => true
  end.

(** [active] is null or a wrapper around a shape that is not a wrapper. *)
Definition wf_active (os : list Obj) (active : option loc) : bool :=
  match active with
  | Some a => match deref_in os a with
              | Move s _ _ => negb (is_move s)
              | _ => false
              end
  | None => true
  end.

(** The four conditions, on the fields they read. *)
Definition wf_mem (os : list Obj) (m : list (list Point)) (shapes : list loc)
    (stroke : loc) (active : option loc) : bool :=
  forallb (wf_obj (length m)) os
  && forallb (fun l => l <? length os) shapes
  && (stroke <? length m)
  && wf_active os active.

Definition wf (g : Game) : bool :=
  wf_mem (objs g) (arrs g) (existingShapes g) (currentPencilStroke g) (activeShape g).

(** ** The store as JSON values *)

(** The JSON value of the shape that [getMovedShape] returns for a wrapper
    around [shape] with offset [(dx, dy)]. *)
Definition moved_json (m : list (list Point)) (shape : Obj) (dx dy : Q) : Shape :=
  stringify (getMovedShape m shape dx dy).2 (getMovedShape m shape dx dy).1.

(** ** Hit testing *)

(** An executable stand-in for [Math.hypot], to run the engine on examples:
    the square root of [x * x + y * y] rounded down to a multiple of
    [2 ^ -26]. *)
Definition hypot_approx (x y : Q) : Q :=
  let s := (x * x + y * y)%Q in
  Qmake (Z.sqrt (Qnum s * 2 ^ 52 / Zpos (Qden s))) (2 ^ 26).

(** The hit test of the specification (section 4.1), on the JSON value of a
    shape: a rect is hit inside its box, borders included; a circle within
    its radius of the centre; a stroke within [10 / scale] of one of its
    points; nothing else is hit. *)
Definition hitTest (hypot : Q -> Q -> Q) (px py sc : Q) (s : Shape) : bool :=
  match s with
  | Rect x y w h _ _ =>
      Qleb x px && Qleb px (x + w)%Q && Qleb y py && Qleb py (y + h)%Q
  | Circle cx cy r _ _ => Qleb (hypot (px - cx)%Q (py - cy)%Q) r
  | Pencil pts _ _ =>
      existsb (fun p => Qleb (hypot (px - point_x p)%Q (py - point_y p)%Q) (10 / sc)%Q) pts
  | _ => false
  end.

(** The JSON value of the object at [l]. *)
Definition json_at (g : Game) (l : loc) : Shape := stringify (arrs g) (deref g l).

(** The same, in a given memory. *)
Definition json_in (os : list Obj) (m : list (list Point)) (l : loc) : Shape :=
  stringify m (deref_in os l).

(** ** Strokes of at least two points *)

(** Every stroke of the shape, the one it wraps included, has two points or
    more; [len] measures a [points]. *)
Fixpoint enough_points {P} (len : P -> nat) (s : ShapeOf P) : bool :=
  match s with
  | Pencil pts _ _ => 2 <=? len pts
  | Move s _ _ => enough_points len s
  | _ => true
  end.

(** A shape that is not a stroke of fewer than two points, nor a wrapper
    around one. *)
Definition good_shape (s : Shape) : bool := enough_points (@length Point) s.

(** The store holds good shapes only. *)
Definition good_store (g : Game) : bool := forallb good_shape (shapes_json g).

(** The same for an object in memory, and for every object in memory,
    whether the store refers to it or not. *)
Definition good_obj (m : list (list Point)) (o : Obj) : bool :=
  enough_points (fun a => length (deref_arr m a)) o.

(** Every object in memory is good. *)
Definition good_memory (g : Game) : bool := forallb (good_obj (arrs g)) (objs g).

(** An event that brings shapes from outside brings only good ones. *)
Definition good_event (e : Event) : bool :=
  match e with
  | Message (Chat (ShapeMsg s)) => good_shape s
  | Message (Chat (UpdateMsg ss _)) => forallb good_shape ss
  | InitResolved ss => forallb good_shape ss
  | _ => true
  end.

(** ** Move wrappers *)

(** The number of move wrappers in the store. *)
Definition moves (g : Game) : nat := length (List.filter is_move (shapes_json g)).

(** The same, counted on references. *)
Definition moves_in (os : list Obj) (ls : list loc) : nat :=
  length (List.filter (fun l => is_move (deref_in os l)) ls).

(** The events of the local user, as opposed to what arrives from the
    socket or from the initial fetch. *)
Definition local_event (e : Event) : bool :=
  match e with Message _ | InitResolved _ => false | _ => true end.

(** An object among the first [n] that neither the store [ls] nor
    [active] refers to. *)
Definition unreferenced_in (n : nat) (ls : list loc) (active : option loc) (w : loc) : bool :=
  (w <? n)
  && forallb (fun l => negb (Nat.eqb l w)) ls
  && match active with Some a => negb (Nat.eqb a w) | None => true end.

(** The object [w] exists and the state does not refer to it. *)
Definition unreferenced (g : Game) (w : loc) : bool :=
  unreferenced_in (length (objs g)) (existingShapes g) (activeShape g) w.

(** ** The rules of the tools *)

(** The translation of a shape by an offset, as the specification describes
    the resolution of a move (section 4.2): a rect by its corner, a circle by
    its centre, a stroke by every point; anything else is left as it is. *)
Definition translate (s : Shape) (dx dy : Q) : Shape :=
  match s with
  | Rect x y w h c lw => Rect (x + dx)%Q (y + dy)%Q w h c lw
  | Circle cx cy r c lw => Circle (cx + dx)%Q (cy + dy)%Q r c lw
  | Pencil pts c lw =>
      Pencil (map (fun p => mkPoint (point_x p + dx)%Q (point_y p + dy)%Q) pts) c lw
  | _ => s
  end.

(** What the release of the button does under tool [t], tool by tool and
    panning aside, on the store as JSON: the new store and the payloads sent.
    [p] is the scene point of the release; the start point, the stroke buffer
    and the active wrapper are what the earlier events of the gesture left in
    [g]. *)
Definition release_rule (hypot : Q -> Q -> Q) (t : Tool) (g : Game) (p : Point)
  : list Shape * list Payload :=
  let store := shapes_json g in
  match t with
  | Trect =>
      let width := (point_x p - startX g)%Q in
      let height := (point_y p - startY g)%Q in
      if Qgtb (Qabs width) 1 && Qgtb (Qabs height) 1 then
        let s := Rect (Qmin (startX g) (point_x p)) (Qmin (startY g) (point_y p))
                      (Qabs width) (Qabs height) (currentColor g) (currentLineWidth g) in
        (store ++ [s], [ShapeMsg s])
      else (store, [])
  | Tcircle =>
      let radius := hypot (point_x p - startX g)%Q (point_y p - startY g)%Q in
      if Qgtb radius 1 then
        let s := Circle (startX g) (startY g) radius (currentColor g) (currentLineWidth g) in
        (store ++ [s], [ShapeMsg s])
      else (store, [])
  | Tpencil =>
      let buffer := deref_arr (arrs g) (currentPencilStroke g) in
      if Nat.ltb 1 (length buffer) then
        let s := Pencil buffer (currentColor g) (currentLineWidth g) in
        (store ++ [s], [ShapeMsg s])
      else (store, [])
  | Teraser => (store, [])
  | Tmove =>
      match activeShape g with
      | Some a =>
          match json_at g a with
          | Move s dx dy =>
              let store' := List.filter (fun s => negb (is_move s)) store ++ [translate s dx dy] in
              (store', [UpdateMsg store' (Some false)])
          | _ => (store, [])
          end
      | None => (store, [])
      end
  end.

(** A move of the pointer while the button is down, tool by tool: the
    rectangle and circle tools only paint a preview; the pencil pushes the
    point onto its stroke buffer; the eraser makes one pass; the move tool
    writes the new offset into the active wrapper and sends the store. *)
Definition drag_rule (hypot : Q -> Q -> Q) (t : Tool) (g g' : Game) (p : Point) : Prop :=
  match t with
  | Trect | Tcircle => shapes_json g' = shapes_json g /\ sent g' = sent g
  | Tpencil =>
      existingShapes g' = existingShapes g /\ objs g' = objs g /\ sent g' = sent g
      /\ deref_arr (arrs g') (currentPencilStroke g)
         = deref_arr (arrs g) (currentPencilStroke g) ++ [p]
  | Teraser =>
      shapes_json g'
      = List.filter (fun s => negb (hitTest hypot (point_x p) (point_y p) (scale g) s)) (shapes_json g)
      /\ sent g'
         = sent g ++ (if Nat.eqb (length (shapes_json g)) (length (shapes_json g')) then []
                      else [chat (UpdateMsg (shapes_json g') None) (roomId g)])
  | Tmove =>
      match activeShape g with
      | Some a =>
          match json_at g a with
          | Move s _ _ =>
              shapes_json g'
              = map (fun l => if Nat.eqb l a
                              then Move s (point_x p - startX g)%Q (point_y p - startY g)%Q
                              else json_at g l)
                    (existingShapes g)
              /\ sent g' = sent g ++ [chat (UpdateMsg (shapes_json g') (Some true)) (roomId g)]
          | _ => shapes_json g' = shapes_json g /\ sent g' = sent g
          end
      | None => shapes_json g' = shapes_json g /\ sent g' = sent g
      end
  end.

(** The release and the drag as the specification gives them (section
    4.4): panning has priority over every tool, so while the space bar is
    held the store and the socket are left alone; otherwise the rule of the
    tool applies. *)
Definition release_spec (hypot : Q -> Q -> Q) (t : Tool) (g : Game) (p : Point)
  : list Shape * list Payload :=
  if isPanning g then (shapes_json g, []) else release_rule hypot t g p.

Definition drag_spec (hypot : Q -> Q -> Q) (t : Tool) (g g' : Game) (p : Point) : Prop :=
  if isPanning g then shapes_json g' = shapes_json g /\ sent g' = sent g
  else drag_rule hypot t g g' p.

(** ** The viewport *)

(** The scale lies between [minScale] and [maxScale]. *)
Definition scale_in_bounds (g : Game) : bool :=
  Qleb minScale (scale g) && Qleb (scale g) maxScale.

(** The pointer moves through the device points [pts], in order. *)
Definition pointer_moves (pts : list (Q * Q)) : list Event :=
  map (fun q => MouseMove q.1 q.2) pts.

(** ** Events and the socket *)

(** The events of the pointer: the only ones whose handlers call
    [socket.send]. *)
Definition pointer_event (e : Event) : bool :=
  match e with MouseDown _ _ | MouseUp _ _ | MouseMove _ _ => true | _ => false end.

(** An update sent while a move is in progress: [isMoving] is [true]. *)
Definition is_moving_update (m : Envelope) : bool :=
  match message m with UpdateMsg _ (Some true) => true | _ => false end.

(** ** Peers *)

(** A peer receives the messages [ms], in order. *)
Definition deliver (h : Game) (ms : list Envelope) : Game :=
  fold_left (fun h m => state_of (onmessage h (Chat (message m)))) ms h.

(** The object holds the point array [a] as its [points], or wraps an
    object that does. *)
Fixpoint refers (a : loc) (o : Obj) : bool :=
  match o with
  | Pencil b _ _ => Nat.eqb b a
  | Move s _ _ => refers a s
  | _ => false
  end.

(** No shape of the store holds the stroke buffer. *)
Definition stroke_private (g : Game) : bool :=
  forallb (fun l => negb (refers (currentPencilStroke g) (deref g l))) (existingShapes g).

(** A move of the pointer that pushes a point onto the stroke buffer. *)
Definition pushes_point (g : Game) (e : Event) : bool :=
  match e with
  | MouseMove _ _ => clicked g && negb (isPanning g) && Tool_eqb (selectedTool g) Tpencil
  | _ => false
  end.

(** A sequence of events of the local user in which the stroke buffer is
    private whenever a point is pushed onto it. *)
Fixpoint local_run (hypot : Q -> Q -> Q) (g : Game) (es : list Event) : bool :=
  match es with
  | [] => true
  | e :: es =>
      local_event e && (negb (pushes_point g e) || stroke_private g)
      && local_run hypot (step hypot g e) es
  end.

(** What a local event did to the store of [g] is told to the peers: it
    left the store as it was and sent nothing, or it sent the new store, or
    it appended one shape and sent that shape. *)
Definition announced (g g' : Game) : Prop :=
  (sent g' = sent g /\ shapes_json g' = shapes_json g)
  \/ (exists f, sent g' = sent g ++ [chat (UpdateMsg (shapes_json g') f) (roomId g)])
  \/ (exists s, sent g' = sent g ++ [chat (ShapeMsg s) (roomId g)]
                /\ shapes_json g' = shapes_json g ++ [s]).

(** ** The cursor *)

(** The cursor is the one the canvas had when the [Game] was created, or
    ["grab"] while the space bar is held, or the cursor of the selected
    tool. *)
Definition cursor_ok (g : Game) : bool :=
  String.eqb (cursor g) ""
  || (String.eqb (cursor g) "grab" && isPanning g)
  || String.eqb (cursor g) (tool_cursor (selectedTool g)).

(** ** The canvas *)

(** The number of saved drawing states after [ops], from [d] of them;
    [None] when [restore] finds none. *)
Fixpoint saved (d : nat) (ops : list Ctx.op) : option nat :=
  match ops with
  | [] => Some d
  | Ctx.save :: ops => saved (S d) ops
  | Ctx.restore :: ops => match d with O => None | S d => saved d ops end
  | _ :: ops => saved d ops
  end.

(** What the canvas shows: the store and the viewport. *)
Definition view (g : Game) : list Shape * Q * Q * Q :=
  (shapes_json g, scale g, offsetX g, offsetY g).

(** [drawShape_within] on the JSON value of a shape. *)
Fixpoint drawJson_within (n : nat) (shape : Shape) : list Ctx.op :=
  match n with
  | O => []
  | S n =>
      match shape with
      | Other EmptyString => []
      | _ =>
          [Ctx.save]
          ++ match shape with
             | Rect _ _ _ _ color lineWidth
             | Circle _ _ _ color lineWidth
             | Pencil _ color lineWidth =>
                 [Ctx.strokeStyle (Some color); Ctx.lineWidth (Some lineWidth)]
             | Other _ => [Ctx.strokeStyle None; Ctx.lineWidth None]
             | Move _ _ _ | Eraser _ _ _ _ => []
             end
          ++ match shape with
             | Rect x y w h _ _ => [Ctx.strokeRect x y w h]
             | Pencil points _ _ =>
                 match points with
                 | [] => []
                 | p0 :: _ => polyline p0 points
                 end
             | Circle cx cy r _ _ => [Ctx.beginPath; Ctx.arc cx cy r; Ctx.stroke; Ctx.closePath]
             | Move shape ox oy => drawJson_within n (translate shape ox oy)
             | _ => []
             end
          ++ [Ctx.restore]
      end
  end.

(** What is painted for a list of JSON values. *)
Definition drawJson (shapes : list Shape) : list Ctx.op :=
  flat_map (fun s => drawJson_within (S (wrappers s)) s) shapes.

(** The lines of a shape, without its style. *)
Definition outline (s : Shape) : list Ctx.op :=
  match s with
  | Rect x y w h _ _ => [Ctx.strokeRect x y w h]
  | Circle cx cy r _ _ => [Ctx.beginPath; Ctx.arc cx cy r; Ctx.stroke; Ctx.closePath]
  | Pencil (p0 :: points) _ _ => polyline p0 (p0 :: points)
  | _ => []
  end.

(** One of the three tools that draw a shape. *)
Definition draws (t : Tool) : bool :=
  match t with Trect | Tcircle | Tpencil => true | _ => false end.

(** ** A pencil drag among inbound messages *)

(** A move of the pointer, or something that arrives: a message or the
    initial fetch. *)
Definition drag_or_inbound (e : Event) : bool :=
  match e with MouseMove _ _ | Message _ | InitResolved _ => true | _ => false end.

(** The scene points of the moves among [es], in the viewport of [g]. *)
Definition moved_points (g : Game) (es : list Event) : list Point :=
  flat_map (fun e => match e with
                     | MouseMove x y => [screenToCanvas g x y]
                     | _ => []
                     end) es.

(** ** Panning *)

(** What a pointer that is at [a] and then goes through [xs] travels at
    each step, along one axis. *)
Fixpoint displacements (a : Q) (xs : list Q) : list Q :=
  match xs with
  | [] => []
  | x :: xs => (x - a)%Q :: displacements x xs
  end.

(** ** Rounding *)

Local Open Scope Q_scope.

(** The rational that a finite binary64 number is; there is none for an
    infinity or [NaN]. *)
Definition value (f : float) : option Q :=
  match Prim2SF f with
  | S754_zero _ => Some 0
  | S754_finite s m e => Some (inject_Z (if s then Z.neg m else Z.pos m) * Qpower 2 e)
  | _ => None
  end.

Definition Q_of (f : float) : Q := default 0 (value f).

(** The unit roundoff of binary64, [2^-53]: an operation whose exact result
    neither overflows nor falls in the subnormal range returns it with a
    relative error of this at most. *)
Definition unit_roundoff : Q := 1 # 9007199254740992.

(** [r] is finite and is [t] up to a relative error of [unit_roundoff]. *)
Definition near (r : float) (t : Q) : bool :=
  match value r with
  | Some q => Qle_bool (Qabs (q - t)) (unit_roundoff * Qabs t)
  | None => false
  end.

(** The operation [op], which rounds [exact], is applied to finite numbers
    and returns the exact result up to a relative error of
    [unit_roundoff]. *)
Definition rounds (op : float -> float -> float) (exact : Q -> Q -> Q) (a b : float) : bool :=
  match value a, value b with
  | Some x, Some y => near (op a b) (exact x y)
  | _, _ => false
  end.

Definition sub_rounds : float -> float -> bool := rounds PrimFloat.sub Qminus.
Definition add_rounds : float -> float -> bool := rounds PrimFloat.add Qplus.
Definition mul_rounds : float -> float -> bool := rounds PrimFloat.mul Qmult.
Definition div_rounds (a b : float) : bool :=
  rounds PrimFloat.div Qdiv a b && negb (Qeq_bool (Q_of b) 0).

(** [r] is finite and within [tol] of [t]. *)
Definition within (tol : Q) (r : float) (t : Q) : Prop :=
  exists q, value r = Some q /\ Qabs (q - t) <= tol.

(** The four operations that take the device coordinate [x] to the scene
    and back, at scale [s] and offset [o], round as above: none overflows,
    none falls in the subnormal range, and [s] is not zero. *)
Definition round_trip_rounds (s o x : float) : bool :=
  sub_rounds x o
  && div_rounds (x - o) s
  && mul_rounds ((x - o) / s) s
  && add_rounds ((x - o) / s * s) o.

(** The four operations that take the scene coordinate [p] to the device
    and back, at scale [s] and offset [o], round as above. *)
Definition scene_trip_rounds (s o p : float) : bool :=
  mul_rounds p s
  && add_rounds (p * s) o
  && sub_rounds (p * s + o) o
  && div_rounds (p * s + o - o) s.

(** The additions and the subtraction by which [zoom] moves the offset [o]
    for the anchor [c], and by which [canvasToScreen] then maps the scene
    coordinate [cp] at the new scale [s'], round as above; the product
    [cp * s'] need only be finite. *)
Definition anchor_rounds (s' o c cp : float) : bool :=
  let P := (cp * s')%float in
  let n := (P + o)%float in
  let t := (c - n)%float in
  let o' := (o + t)%float in
  add_rounds P o && sub_rounds c n && add_rounds o t && add_rounds P o'.

(** The operations on one axis in [zoom v deltaY] at the anchor [c], where
    [o] is the offset on that axis, followed by [canvasToScreen] on the
    scene coordinate of the anchor, round as above.  When the scale is not
    changed they are those of the round trip. *)
Definition zoom_rounds (v : B64.Viewport) (deltaY c o : float) : bool :=
  if negb (PrimFloat.eqb (B64.newScale v deltaY) (B64.scale v)) then
    anchor_rounds (B64.newScale v deltaY) o c ((c - o) / B64.scale v)
  else round_trip_rounds (B64.scale v) o c.

Local Close Scope Q_scope.

(** ** Concrete states *)

(** A drag in progress: a rectangle is fetched, the move tool is selected,
    the button goes down on the rectangle and the pointer moves by
    [(2, 3)]. *)
Definition dragging : Game :=
  run hypot_approx (newGame "room")
      [InitResolved [Rect 0 0 10 10 "red" 2]; SetTool Tmove; MouseDown 5 5; MouseMove 7 8].

(** An update from a peer that drags the same rectangle. *)
Definition incoming : list Shape :=
  [Circle 1 1 1 "blue" 1; Move (Rect 0 0 10 10 "red" 2) 9 9].

(** A session: a stroke is fetched, a stroke is drawn, a rectangle arrives,
    the first stroke is moved and the eraser passes over the rectangle. *)
Definition session : list Event :=
  [InitResolved [Pencil [mkPoint 0 0; mkPoint 1 1] "red" 2];
   MouseDown 20 20; MouseMove 21 21; MouseMove 22 23; MouseUp 22 23;
   Message (Chat (ShapeMsg (Rect 50 50 10 10 "blue" 1)));
   SetTool Tmove; MouseDown 1 1; MouseMove 4 4; MouseUp 4 4;
   SetTool Teraser; MouseDown 55 55; MouseUp 55 55].

(** The example of the specification: a circle of radius 3 centred at
    [(5, 5)]. *)
Definition one_circle : Game :=
  run hypot_approx (newGame "room") [InitResolved [Circle 5 5 3 "black" 2]; SetTool Teraser].

(** A wrapper left in the store: the fetched scene holds a rectangle and,
    below it, a wrapper around a circle. *)
Definition dangling : Game :=
  run hypot_approx (newGame "room")
      [InitResolved [Move (Circle 50 50 5 "green" 2) 3 3; Rect 0 0 10 10 "red" 2];
       SetTool Tmove].


(** Thirty turns of the wheel towards the user with the control key down,
    then three away. *)
Definition zooming : list Event :=
  repeat (Wheel 10 10 0 (-100) true) 30 ++ repeat (Wheel 10 10 0 100 true) 3.

(** The space bar is held in a viewport that was zoomed and panned. *)
Definition grabbing : Game :=
  run hypot_approx (newGame "room")
      [Wheel 40 40 0 (-100) true; Wheel 0 0 15 (-8) false; KeyDown "Space"].

(** The rectangle tool, with the button down at [(10, 10)]. *)
Definition drawing_rect : Game :=
  run hypot_approx (newGame "room") [SetTool Trect; MouseDown 10 10].

(** What one user does alone: a stroke is drawn, then dragged with the move
    tool, a rectangle is drawn and the eraser passes over the stroke. *)
Definition drawing_alone : list Event :=
  [MouseDown 20 20; MouseMove 21 21; MouseMove 22 23; MouseUp 22 23;
   SetTool Tmove; MouseDown 21 21; MouseMove 30 30; MouseMove 40 45; MouseUp 40 45;
   SetTool Trect; MouseDown 100 100; MouseMove 120 130; MouseUp 120 130;
   Wheel 10 10 0 (-100) true;
   SetTool Teraser; MouseDown 39 44; MouseUp 39 44].

(** A stroke is drawn; later the button goes down under the rectangle tool
    and the pencil is selected before any release reaches the canvas. *)
Definition pencil_reselected : Game :=
  run hypot_approx (newGame "room")
      [MouseDown 20 20; MouseMove 21 21; MouseUp 21 21;
       SetTool Trect; MouseDown 50 50; SetTool Tpencil].

(** The same rectangle in two memories: fetched where it is, and fetched
    elsewhere then dragged there with the move tool. *)
Definition rect_fetched : Game :=
  run hypot_approx (newGame "room") [InitResolved [Rect 2 3 10 10 "red" 2]].

Definition rect_moved : Game :=
  run hypot_approx (newGame "room")
      [InitResolved [Rect 0 0 10 10 "red" 2];
       SetTool Tmove; MouseDown 5 5; MouseMove 7 8; MouseUp 7 8].

(** Two moves of the pointer, with an update from a peer between them and
    the initial fetch after them. *)
Definition drag_with_arrivals : list Event :=
  [MouseMove 3 4;
   Message (Chat (UpdateMsg [Rect 0 0 10 10 "red" 2] None));
   MouseMove 5 6;
   InitResolved [Circle 5 5 3 "blue" 1]].

(** An abandoned drag: a circle and a rectangle are fetched, the circle is
    dragged by [(3, 3)] with the move tool, and the eraser is selected before
    the button is released, so the release resolves nothing and the wrapper
    stays in the store; the move tool is selected again. *)
Definition abandoned_drag : Game :=
  run hypot_approx (newGame "room")
      [InitResolved [Circle 50 50 5 "green" 2; Rect 0 0 10 10 "red" 2];
       SetTool Tmove; MouseDown 50 50; MouseMove 53 53;
       SetTool Teraser; MouseUp 53 53; SetTool Tmove].

(** Two wrappers arrive in one update; then a rectangle is drawn. *)
Definition two_wrappers_arrive : list Event :=
  [Message (Chat (UpdateMsg [Move (Rect 0 0 10 10 "red" 2) 1 1;
                             Move (Circle 50 50 5 "green" 2) 2 2] None));
   SetTool Trect; MouseDown 100 100].

(** The viewport at scale [1.1], and the viewport after one turn of the
    wheel at [(100, 50)] from the initial one: its scale is [1.1] and its
    offset [(-10.000000000000014, -5.000000000000007)]. *)
Definition scaled_up : B64.Viewport := B64.mkViewport 0x1.199999999999ap+0 0 0.

Definition zoomed_once : B64.Viewport := B64.zoom (B64.mkViewport 1 0 0) (-100) 100 50.

(** * Lemmas on memory *)

(** ** Memory only grows *)

Lemma deref_arr_app (m k : list (list Point)) (a : loc) :
  a < length m -> deref_arr (m ++ k) a = deref_arr m a.
Proof. intros H. unfold deref_arr. by rewrite lookup_app_l. Qed.

Lemma deref_arr_new (m : list (list Point)) (pts : list Point) :
  deref_arr (m ++ [pts]) (length m) = pts.
Proof. unfold deref_arr. by rewrite list_lookup_middle. Qed.

Lemma wf_obj_mono (n n' : nat) (o : Obj) :
  n <= n' -> wf_obj n o = true -> wf_obj n' o = true.
Proof.
  intros Hle. induction o; simpl; auto.
  rewrite !Nat.ltb_lt. lia.
Qed.

Lemma stringify_app (m k : list (list Point)) (o : Obj) :
  wf_obj (length m) o = true -> stringify (m ++ k) o = stringify m o.
Proof.
  induction o; simpl; intros H; auto.
  - apply Nat.ltb_lt in H. by rewrite deref_arr_app.
  - by rewrite IHo.
Qed.

(** ** [JSON.parse] and [JSON.stringify] *)

Lemma parse_spec (s : Shape) (m : list (list Point)) :
  exists k, (parse s m).2 = m ++ k
            /\ wf_obj (length (m ++ k)) (parse s m).1 = true
            /\ stringify (m ++ k) (parse s m).1 = s.
Proof.
  revert m. induction s; intros m; simpl.
  - exists []. by rewrite app_nil_r.
  - exists []. by rewrite app_nil_r.
  - exists [points]. simpl. rewrite deref_arr_new. split; [done|]. split; [|done].
    apply Nat.ltb_lt. rewrite length_app. simpl. lia.
  - destruct (IHs m) as (k & Hk & Hwf & Hs). destruct (parse s m) as [o m']. simpl in *.
    subst m'. exists k. by rewrite Hs.
  - exists []. by rewrite app_nil_r.
  - exists []. by rewrite app_nil_r.
Qed.

Lemma parse_all_spec (ss : list Shape) (os : list Obj) (m : list (list Point)) :
  exists os' k,
    parse_all ss os m = (seq (length os) (length ss), os ++ os', m ++ k)
    /\ length os' = length ss
    /\ forallb (wf_obj (length (m ++ k))) os' = true
    /\ map (stringify (m ++ k)) os' = ss.
Proof.
  revert os m. induction ss as [|s ss IH]; intros os m; simpl.
  - exists [], []. rewrite !app_nil_r. done.
  - destruct (parse_spec s m) as (k & Hk & Hwfo & Hs).
    destruct (parse s m) as [o m1]. simpl in *. subst m1.
    destruct (IH (os ++ [o]) (m ++ k)) as (os' & k' & Heq & Hlen & Hwf' & Hss).
    rewrite Heq. exists (o :: os'), (k ++ k').
    rewrite <- (app_assoc os [o] os'). rewrite <- (app_assoc m k k') in Hwf', Hss.
    rewrite <- (app_assoc m k k').
    rewrite length_app. simpl. rewrite Nat.add_1_r.
    split; [done|]. split; [lia|]. rewrite Hwf', Hss, andb_true_r.
    rewrite (app_assoc m k k'). split.
    + eapply wf_obj_mono; [|exact Hwfo]. rewrite (length_app _ k'). lia.
    + rewrite stringify_app; [by rewrite Hs | done].
Qed.

(** ** Reading objects and well-formedness *)

Lemma deref_in_app (os k : list Obj) (l : loc) :
  l < length os -> deref_in (os ++ k) l = deref_in os l.
Proof. intros H. unfold deref_in. by rewrite lookup_app_l. Qed.

Lemma deref_in_new (os : list Obj) (o : Obj) :
  deref_in (os ++ [o]) (length os) = o.
Proof. unfold deref_in. by rewrite list_lookup_middle. Qed.

Lemma deref_in_move_lt (os : list Obj) (l : loc) :
  is_move (deref_in os l) = true -> l < length os.
Proof.
  unfold deref_in. destruct (os !! l) eqn:E; simpl; [|done].
  intros _. by eapply lookup_lt_Some.
Qed.

Lemma deref_in_forallb (p : Obj -> bool) (os : list Obj) (l : loc) :
  p (Other "undefined") = true -> forallb p os = true -> p (deref_in os l) = true.
Proof.
  intros Hd H. unfold deref_in. destruct (os !! l) eqn:E; simpl; [|done].
  rewrite forallb_forall in H. apply H. apply list_elem_of_In. by eapply list_elem_of_lookup_2.
Qed.

Lemma forallb_impl {A} (p q : A -> bool) (l : list A) :
  (forall x, p x = true -> q x = true) -> forallb p l = true -> forallb q l = true.
Proof. rewrite !forallb_forall. auto. Qed.

Lemma forallb_filter {A} (p q : A -> bool) (l : list A) :
  forallb p l = true -> forallb p (List.filter q l) = true.
Proof.
  rewrite !forallb_forall. intros H x Hx. apply List.filter_In in Hx. apply H, Hx.
Qed.

Lemma wf_mem_iff os m shapes stroke active :
  wf_mem os m shapes stroke active = true <->
  forallb (wf_obj (length m)) os = true
  /\ forallb (fun l => l <? length os) shapes = true
  /\ stroke < length m
  /\ wf_active os active = true.
Proof. unfold wf_mem. rewrite !andb_true_iff, Nat.ltb_lt. tauto. Qed.

Lemma wf_active_app (os k : list Obj) (active : option loc) :
  wf_active os active = true -> wf_active (os ++ k) active = true.
Proof.
  destruct active as [a|]; simpl; [|done]. intros H.
  rewrite deref_in_app; [done|]. apply deref_in_move_lt.
  by destruct (deref_in os a).
Qed.

(** Allocation of objects and arrays keeps a state well formed. *)
Lemma wf_mem_grow os m shapes stroke active os' k :
  wf_mem os m shapes stroke active = true ->
  forallb (wf_obj (length (m ++ k))) os' = true ->
  wf_mem (os ++ os') (m ++ k) shapes stroke active = true.
Proof.
  rewrite !wf_mem_iff. intros (Ho & Hs & Hst & Ha) Hn. repeat split.
  - rewrite forallb_app, Hn, andb_true_r.
    eapply forallb_impl; [|exact Ho]. intros o. apply wf_obj_mono. rewrite length_app. lia.
  - eapply forallb_impl; [|exact Hs]. intros l. rewrite !Nat.ltb_lt, length_app. lia.
  - rewrite length_app. lia.
  - by apply wf_active_app.
Qed.

Lemma wf_mem_shapes os m shapes shapes' stroke active :
  wf_mem os m shapes stroke active = true ->
  forallb (fun l => l <? length os) shapes' = true ->
  wf_mem os m shapes' stroke active = true.
Proof. rewrite !wf_mem_iff. tauto. Qed.

Lemma wf_mem_filter os m shapes stroke active (q : loc -> bool) :
  wf_mem os m shapes stroke active = true ->
  wf_mem os m (List.filter q shapes) stroke active = true.
Proof.
  intros H. eapply wf_mem_shapes; [exact H|]. apply forallb_filter.
  apply wf_mem_iff in H. tauto.
Qed.

Lemma wf_mem_push os m shapes stroke active l :
  wf_mem os m shapes stroke active = true -> l < length os ->
  wf_mem os m (shapes ++ [l]) stroke active = true.
Proof.
  intros H Hl. eapply wf_mem_shapes; [exact H|]. rewrite forallb_app. simpl.
  apply wf_mem_iff in H. destruct H as (_ & Hs & _).
  apply andb_true_iff. split; [exact Hs|]. rewrite andb_true_r. by apply Nat.ltb_lt.
Qed.

Lemma wf_newGame (room : string) : wf (newGame room) = true.
Proof. reflexivity. Qed.

(** * Well-formedness is kept by every handler *)

Section Invariants.

Variable hypot : Q -> Q -> Q.

Lemma hit_at_start_not_move (g : Game) (l : loc) :
  hit_at_start hypot g l = true -> is_move (deref g l) = false.
Proof. unfold hit_at_start. by destruct (deref g l). Qed.

Lemma wf_eraseShape (g : Game) (x y : Q) :
  wf g = true -> wf (eraseShape hypot g x y) = true.
Proof.
  intros H. unfold eraseShape. simpl.
  match goal with |- context [if ?b then _ else _] => destruct b end;
    unfold wf; simpl; by apply wf_mem_filter.
Qed.

(** The press, with its local bindings substituted. *)
Lemma mouseDownHandler_eq (g : Game) (x y : Q) :
  mouseDownHandler hypot g x y
  = if isPanning g then set_lastPan (set_clicked g true) x y
    else
      let px := point_x (screenToCanvas g x y) in
      let py := point_y (screenToCanvas g x y) in
      let g1 := set_currentMouse (set_start (set_clicked g true) px py) px py in
      match selectedTool g with
      | Tpencil =>
          set_currentPencilStroke (set_arrs g1 (arrs g ++ [[mkPoint px py]])) (length (arrs g))
      | Teraser => eraseShape hypot g1 px py
      | Tmove =>
          match find (hit_at_start hypot g1) (rev (existingShapes g)) with
          | Some shapeToMove =>
              let kept := List.filter
                            (fun l => negb (Nat.eqb l shapeToMove) && negb (is_move (deref g l)))
                            (existingShapes g) in
              let g2 := set_activeShape
                          (set_objs (set_existingShapes g1 (kept ++ [length (objs g)]))
                                    (objs g ++ [Move (deref g shapeToMove) 0 0]))
                          (Some (length (objs g))) in
              send g2 (UpdateMsg (shapes_json g2) (Some true))
          | None => g1
          end
      | _ => g1
      end.
Proof.
  unfold mouseDownHandler. cbv zeta. reflexivity.
Qed.

Lemma wf_mouseDownHandler (g : Game) (x y : Q) :
  wf g = true -> wf (mouseDownHandler hypot g x y) = true.
Proof.
  intros H. rewrite mouseDownHandler_eq. simpl.
  destruct (isPanning g); [exact H|].
  destruct (selectedTool g); simpl; try exact H.
  - (* pencil: a new array for the stroke *)
    unfold wf in *. simpl. apply wf_mem_iff in H. destruct H as (Ho & Hs & Hst & Ha).
    apply wf_mem_iff. rewrite length_app. simpl. repeat split; [|done|lia|done].
    eapply forallb_impl; [|exact Ho]. intros o. apply wf_obj_mono. lia.
  - (* eraser *)
    by apply wf_eraseShape.
  - (* move *)
    match goal with |- context [find ?p ?l] => destruct (find p l) as [s|] eqn:E end;
      [|exact H].
    apply find_some in E. destruct E as [_ Hhit]. apply hit_at_start_not_move in Hhit.
    unfold wf in *. simpl. unfold deref in *. simpl in *.
    pose proof H as H'. apply wf_mem_iff in H'. destruct H' as (Ho & Hs & Hst & Ha).
    apply wf_mem_iff. repeat split.
    + rewrite forallb_app, Ho. simpl. rewrite andb_true_r. by apply deref_in_forallb.
    + rewrite forallb_app. apply andb_true_iff. split.
      * apply forallb_filter. eapply forallb_impl; [|exact Hs].
        intros l. rewrite !Nat.ltb_lt, length_app. lia.
      * simpl. rewrite andb_true_r. apply Nat.ltb_lt. rewrite length_app. simpl. lia.
    + done.
    + simpl. rewrite deref_in_new. by rewrite Hhit.
Qed.

Lemma wf_push_new (g : Game) (o : Obj) :
  wf g = true -> wf_obj (length (arrs g)) o = true -> wf (push_new g o) = true.
Proof.
  intros H Ho. unfold wf, push_new in *. simpl.
  apply wf_mem_push; [|rewrite length_app; simpl; lia].
  rewrite <- (app_nil_r (arrs g)). apply wf_mem_grow; [done|].
  simpl. by rewrite app_nil_r, Ho.
Qed.

Lemma wf_commit (g : Game) (o : Obj) :
  wf g = true -> wf_obj (length (arrs g)) o = true -> wf (commit g o) = true.
Proof. intros H Ho. unfold commit. by apply (wf_push_new g o). Qed.

Lemma getMovedShape_spec (m : list (list Point)) (shape : Obj) (ox oy : Q) :
  wf_obj (length m) shape = true ->
  exists k, (getMovedShape m shape ox oy).2 = m ++ k
            /\ wf_obj (length (m ++ k)) (getMovedShape m shape ox oy).1 = true
            /\ is_move (getMovedShape m shape ox oy).1 = is_move shape.
Proof.
  intros H. destruct shape; simpl.
  - exists []. by rewrite app_nil_r.
  - exists []. by rewrite app_nil_r.
  - eexists. split; [done|]. split; [|done]. rewrite length_app. simpl. apply Nat.ltb_lt. lia.
  - exists []. by rewrite app_nil_r.
  - exists []. by rewrite app_nil_r.
  - exists []. by rewrite app_nil_r.
Qed.

Lemma wf_mem_active os m shapes stroke active active' :
  wf_mem os m shapes stroke active = true ->
  wf_active os active' = true ->
  wf_mem os m shapes stroke active' = true.
Proof. rewrite !wf_mem_iff. tauto. Qed.

Lemma wf_mouseUpHandler (g : Game) (x y : Q) :
  wf g = true -> wf (mouseUpHandler hypot g x y) = true.
Proof.
  intros H. unfold mouseUpHandler.
  destruct (clicked g); simpl; [|exact H].
  destruct (selectedTool g); simpl.
  - match goal with |- context [if ?b then _ else _] => destruct b end; [|exact H].
    by apply wf_commit.
  - match goal with |- context [if ?b then _ else _] => destruct b end; [|exact H].
    by apply wf_commit.
  - match goal with |- context [if ?b then _ else _] => destruct b end; [|exact H].
    apply wf_commit; [exact H|]. simpl. apply Nat.ltb_lt.
    unfold wf in H. apply wf_mem_iff in H. tauto.
  - exact H.
  - destruct (activeShape g) as [a|] eqn:Ea; [|exact H].
    unfold deref. simpl. destruct (deref_in (objs g) a) as [| | |shape ox oy| |] eqn:Ed; try exact H.
    assert (Hsh : wf_obj (length (arrs g)) shape = true).
    { unfold wf in H. apply wf_mem_iff in H. destruct H as (Ho & _).
      pose proof (deref_in_forallb _ _ a eq_refl Ho) as Hd. by rewrite Ed in Hd. }
    destruct (getMovedShape_spec (arrs g) shape ox oy Hsh) as (k & Hk & Hwf & _).
    destruct (getMovedShape (arrs g) shape ox oy) as [finalShape m]. simpl in *. subst m.
    unfold wf in *. simpl.
    apply wf_mem_push; [|rewrite length_app; simpl; lia].
    apply (wf_mem_active _ _ _ _ (activeShape g)); [|done].
    apply wf_mem_grow; [|by simpl; rewrite Hwf].
    by apply wf_mem_filter.
Qed.

Lemma forallb_insert {A} (p : A -> bool) (l : list A) (i : nat) (x : A) :
  forallb p l = true -> p x = true -> forallb p (<[i := x]> l) = true.
Proof.
  revert i. induction l as [|y l IH]; intros i H Hx; [done|].
  simpl in H. apply andb_true_iff in H. destruct H as [Hy Hl].
  destruct i; simpl; apply andb_true_iff; auto.
Qed.

Lemma deref_in_insert (os : list Obj) (a : loc) (o : Obj) :
  a < length os -> deref_in (<[a := o]> os) a = o.
Proof. intros H. unfold deref_in. by rewrite list_lookup_insert_eq. Qed.

Lemma deref_in_insert_ne (os : list Obj) (a l : loc) (o : Obj) :
  a <> l -> deref_in (<[a := o]> os) l = deref_in os l.
Proof. intros H. unfold deref_in. by rewrite list_lookup_insert_ne. Qed.

Lemma wf_mouseMoveHandler (g : Game) (x y : Q) :
  wf g = true -> wf (mouseMoveHandler hypot g x y) = true.
Proof.
  intros H. unfold mouseMoveHandler.
  destruct (clicked g && isPanning g) eqn:Ep; simpl; [exact H|].
  destruct (clicked g); simpl; [|exact H].
  destruct (selectedTool g); simpl; try exact H.
  - (* pencil: a point is pushed onto the stroke *)
    unfold wf in *. simpl. apply wf_mem_iff in H. apply wf_mem_iff.
    by rewrite length_insert.
  - by apply wf_eraseShape.
  - destruct (activeShape g) as [a|] eqn:Ea; [|exact H].
    unfold deref. simpl.
    destruct (deref_in (objs g) a) as [| | |shape ox oy| |] eqn:Ed; try exact H.
    unfold wf in *. simpl. rewrite Ea in *.
    apply wf_mem_iff in H. destruct H as (Ho & Hs & Hst & Ha).
    assert (Hlt : a < length (objs g)) by (apply deref_in_move_lt; by rewrite Ed).
    apply wf_mem_iff. rewrite length_insert. repeat split; [|done|done|].
    + apply forallb_insert; [done|].
      pose proof (deref_in_forallb _ _ a eq_refl Ho) as Hd. by rewrite Ed in Hd.
    + simpl in *. rewrite deref_in_insert by done. by rewrite Ed in Ha.
Qed.

Lemma wf_parse_all (g : Game) (ss : list Shape) :
  wf g = true ->
  wf (let '(ls, os, m) := parse_all ss (objs g) (arrs g) in
      set_existingShapes (set_arrs (set_objs g os) m) ls) = true.
Proof.
  intros H. destruct (parse_all_spec ss (objs g) (arrs g)) as (os' & k & -> & Hlen & Hwf & _).
  unfold wf in *. simpl.
  eapply wf_mem_shapes; [by apply wf_mem_grow|].
  apply forallb_forall. intros l Hl. apply in_seq in Hl. apply Nat.ltb_lt.
  rewrite length_app. lia.
Qed.

Lemma wf_onmessage (g : Game) (data : Data) :
  wf g = true -> wf (state_of (onmessage g data)) = true.
Proof.
  intros H. destruct data as [| | |[shape|shapes isMoving]]; simpl; try exact H.
  - destruct (parse_spec shape (arrs g)) as (k & Hk & Hwf & _).
    destruct (parse shape (arrs g)) as [o m]. simpl in *. subst m.
    apply wf_push_new; [|done]. unfold wf in *. simpl.
    rewrite <- (app_nil_r (objs g)). by apply wf_mem_grow.
  - pose proof (wf_parse_all g shapes H) as H'.
    destruct (parse_all shapes (objs g) (arrs g)) as [[ls os] m]. simpl.
    destruct isMoving as [[|]|]; simpl; try exact H'.
    destruct (activeShape g) as [a|] eqn:Ea; simpl; [|exact H'].
    unfold wf in *. simpl in *. rewrite Ea in *.
    eapply wf_mem_shapes; [exact H'|].
    apply wf_mem_iff in H'. destruct H' as (_ & Hs & _ & Ha).
    rewrite forallb_forall in *. intros l Hl. apply in_map_iff in Hl.
    destruct Hl as (l' & <- & Hl'). destruct (is_move _); [|by apply Hs].
    apply Nat.ltb_lt. apply deref_in_move_lt. simpl in Ha. by destruct (deref_in os a).
Qed.

(** Well-formedness is an invariant of the engine. *)
Lemma wf_step (g : Game) (e : Event) : wf g = true -> wf (step hypot g e) = true.
Proof.
  intros H. destruct e; simpl.
  - by apply wf_mouseDownHandler.
  - by apply wf_mouseUpHandler.
  - by apply wf_mouseMoveHandler.
  - unfold wheelHandler, zoom, pan. repeat (match goal with |- context [if ?b then _ else _] => destruct b end); exact H.
  - unfold keyDownHandler. destruct (String.eqb _ _); exact H.
  - unfold keyUpHandler. destruct (String.eqb _ _); exact H.
  - exact H.
  - exact H.
  - exact H.
  - by apply wf_parse_all.
  - by apply wf_onmessage.
Qed.

Lemma wf_run (g : Game) (es : list Event) : wf g = true -> wf (run hypot g es) = true.
Proof.
  revert g. induction es as [|e es IH]; intros g H; [done|].
  simpl. apply IH. by apply wf_step.
Qed.

End Invariants.

(** * Viewport *)

Local Open Scope Q_scope.

(** ** Error bounds on the rationals *)

Lemma Qabs_cases (x : Q) : (0 <= x /\ Qabs x == x) \/ (x <= 0 /\ Qabs x == - x).
Proof.
  destruct (Qlt_le_dec x 0) as [H|H].
  - right. split; [lra|]. apply Qabs_neg. lra.
  - left. split; [exact H|]. by apply Qabs_pos.
Qed.

Lemma Qabs_lower (x : Q) : x <= Qabs x /\ - x <= Qabs x.
Proof. destruct (Qabs_cases x) as [[H E]|[H E]]; lra. Qed.

Lemma Qabs_bound (x b : Q) : Qabs x <= b <-> - b <= x /\ x <= b.
Proof. apply Qabs_Qle_condition. Qed.

(** The sign of [t] is settled, or [Qabs t] is bounded from below, so that
    what is left is linear. *)
Ltac abs_split t :=
  let H := fresh "H" in let E := fresh "E" in
  destruct (Qabs_cases t) as [[H E]|[H E]].

Ltac abs_low t := pose proof (Qabs_lower t) as [? ?].

(** A quotient that is right up to a relative error gives back the dividend
    up to the same relative error. *)
Lemma div_to_mul (C D S : Q) :
  ~ S == 0 ->
  Qabs (C - D / S) <= unit_roundoff * Qabs (D / S) ->
  Qabs (C * S - D) <= unit_roundoff * Qabs D.
Proof.
  intros HS H.
  assert (E1 : C * S - D == (C - D / S) * S) by (field; exact HS).
  assert (E2 : D == D / S * S) by (field; exact HS).
  rewrite E1, Qabs_Qmult. rewrite E2 at 2. rewrite Qabs_Qmult, Qmult_assoc.
  apply Qmult_le_compat_r; [exact H|apply Qabs_nonneg].
Qed.

(** The round trip of [X] at offset [O]: [D] is the rounded difference,
    [CS] the rounded quotient times the scale, [M] the rounded product and
    [R] the rounded sum. *)
Lemma round_trip_error (X O D CS M R : Q) :
  Qabs (D - (X - O)) <= unit_roundoff * Qabs (X - O) ->
  Qabs (CS - D) <= unit_roundoff * Qabs D ->
  Qabs (M - CS) <= unit_roundoff * Qabs CS ->
  Qabs (R - (M + O)) <= unit_roundoff * Qabs (M + O) ->
  Qabs (R - X) <= unit_roundoff * (4 * Qabs (X - O) + Qabs X)
  /\ Qabs (R - X) <= 4 * unit_roundoff * (Qabs X + Qabs M + Qabs O).
Proof.
  unfold unit_roundoff. intros H1 H2 H3 H4.
  apply Qabs_bound in H1, H2, H3, H4. rewrite !Qabs_bound.
  abs_low X; abs_low M; abs_low O.
  abs_split (X - O); abs_split D; abs_split CS; abs_split (M + O); repeat split; lra.
Qed.

(** The anchor [C] of a zoom at offset [O]: [P] is the scene coordinate
    times the new scale, [N] the rounded [P + O], [T] the rounded [C - N],
    [O'] the rounded new offset [O + T] and [R] the rounded [P + O']. *)
Lemma anchor_error (P O C N T O' R : Q) :
  Qabs (N - (P + O)) <= unit_roundoff * Qabs (P + O) ->
  Qabs (T - (C - N)) <= unit_roundoff * Qabs (C - N) ->
  Qabs (O' - (O + T)) <= unit_roundoff * Qabs (O + T) ->
  Qabs (R - (P + O')) <= unit_roundoff * Qabs (P + O') ->
  Qabs (R - C) <= 4 * unit_roundoff * (Qabs C + Qabs P + Qabs O).
Proof.
  unfold unit_roundoff. intros H1 H2 H3 H4.
  apply Qabs_bound in H1, H2, H3, H4. apply Qabs_bound.
  abs_low C; abs_low P; abs_low O.
  abs_split (P + O); abs_split (C - N); abs_split (O + T); abs_split (P + O'); lra.
Qed.

(** ** From the floats to the rationals *)

Lemma rounds_spec (op : float -> float -> float) (exact : Q -> Q -> Q) (a b : float) :
  rounds op exact a b = true ->
  exists x y q, value a = Some x /\ value b = Some y /\ value (op a b) = Some q
                /\ Qabs (q - exact x y) <= unit_roundoff * Qabs (exact x y).
Proof.
  unfold rounds, near. destruct (value a) as [x|]; [|done]. destruct (value b) as [y|]; [|done].
  destruct (value (op a b)) as [q|]; [|done]. intros H. apply Qle_bool_iff in H.
  by exists x, y, q.
Qed.

Lemma round_trip_values (s o x : float) :
  round_trip_rounds s o x = true ->
  exists X O D CS M R,
    value x = Some X /\ value o = Some O /\ value ((x - o) / s * s)%float = Some M
    /\ value ((x - o) / s * s + o)%float = Some R
    /\ Qabs (D - (X - O)) <= unit_roundoff * Qabs (X - O)
    /\ Qabs (CS - D) <= unit_roundoff * Qabs D
    /\ Qabs (M - CS) <= unit_roundoff * Qabs CS
    /\ Qabs (R - (M + O)) <= unit_roundoff * Qabs (M + O).
Proof.
  unfold round_trip_rounds, sub_rounds, div_rounds, mul_rounds, add_rounds.
  rewrite !andb_true_iff. intros [[[H1 [H2 HS]] H3] H4].
  apply rounds_spec in H1, H2, H3, H4.
  destruct H1 as (X & O & D & HX & HO & HD & E1).
  destruct H2 as (D' & S & C & HD' & HSv & HC & E2).
  destruct H3 as (C' & S' & M & HC' & HS' & HM & E3).
  destruct H4 as (M' & O' & R & HM' & HO' & HR & E4).
  assert (D' = D) as -> by congruence. assert (C' = C) as -> by congruence.
  assert (S' = S) as -> by congruence. assert (M' = M) as -> by congruence.
  assert (O' = O) as -> by congruence.
  apply negb_true_iff, Qeq_bool_neq in HS. unfold Q_of in HS. rewrite HSv in HS. simpl in HS.
  exists X, O, D, (C * S), M, R. repeat split; try assumption. by apply div_to_mul.
Qed.

(** One axis of the round trip. *)
Lemma round_trip_within (s o x : float) :
  round_trip_rounds s o x = true ->
  within (unit_roundoff * (4 * Qabs (Q_of x - Q_of o) + Qabs (Q_of x)))
         ((x - o) / s * s + o)%float (Q_of x)
  /\ within (4 * unit_roundoff
             * (Qabs (Q_of x) + Qabs (Q_of ((x - o) / s * s)%float) + Qabs (Q_of o)))
            ((x - o) / s * s + o)%float (Q_of x).
Proof.
  intros H. destruct (round_trip_values s o x H)
    as (X & O & D & CS & M & R & HX & HO & HM & HR & E1 & E2 & E3 & E4).
  destruct (round_trip_error X O D CS M R E1 E2 E3 E4) as [B1 B2].
  split; exists R; (split; [exact HR|]); unfold Q_of; rewrite HX, HO, ?HM; simpl; assumption.
Qed.

(** One axis of the anchor of a zoom that changes the scale. *)
Lemma anchor_within (s' o c cp : float) :
  anchor_rounds s' o c cp = true ->
  within (4 * unit_roundoff * (Qabs (Q_of c) + Qabs (Q_of (cp * s')%float) + Qabs (Q_of o)))
         (cp * s' + (o + (c - (cp * s' + o))))%float (Q_of c).
Proof.
  unfold anchor_rounds, add_rounds, sub_rounds. cbv zeta. rewrite !andb_true_iff.
  intros [[[H1 H2] H3] H4]. apply rounds_spec in H1, H2, H3, H4.
  destruct H1 as (P & O & N & HP & HO & HN & E1).
  destruct H2 as (C & N' & T & HC & HN' & HT & E2).
  destruct H3 as (O1 & T' & O' & HO1 & HT' & HO' & E3).
  destruct H4 as (P' & O'' & R & HP' & HO'' & HR & E4).
  assert (N' = N) as -> by congruence. assert (T' = T) as -> by congruence.
  assert (O1 = O) as -> by congruence. assert (P' = P) as -> by congruence.
  assert (O'' = O') as -> by congruence.
  exists R. split; [exact HR|]. unfold Q_of. rewrite HC, HP, HO. simpl.
  by apply (anchor_error P O C N T O' R).
Qed.

(** ** The round trip *)

(** C5 as stated fails in binary64: at scale [1.1] and offset [0] the device
    abscissa [29] comes back as [28.999999999999996]. *)
Lemma transform_inverse_counterexample :
  ~ (forall v x y,
       PrimFloat.eqb (B64.scale v) 0 = false ->
       let p := B64.screenToCanvas v x y in
       PrimFloat.eqb (B64.canvasToScreen v p.1 p.2).1 x = true
       /\ PrimFloat.eqb (B64.canvasToScreen v p.1 p.2).2 y = true).
Proof.
  intros H. destruct (H scaled_up 29%float 15%float eq_refl) as [Hx _].
  vm_compute in Hx. discriminate.
Qed.

(** C5, amended (transform inverse, within tolerance).  For every viewport
    and every device point [(x, y)] for which each of the four operations
    of the round trip, on either axis, rounds with a relative error of
    [2^-53] at most (none overflows, none falls in the subnormal range, the
    scale is not zero), converting the point to scene coordinates with
    [screenToCanvas] and back with [canvasToScreen] gives a finite point
    within [2^-53 * (4 |x - offsetX| + |x|)] of [x] and within
    [2^-53 * (4 |y - offsetY| + |y|)] of [y]. *)
Theorem transform_inverse (v : B64.Viewport) (x y : float) :
  round_trip_rounds (B64.scale v) (B64.offsetX v) x = true ->
  round_trip_rounds (B64.scale v) (B64.offsetY v) y = true ->
  let p := B64.screenToCanvas v x y in
  let q := B64.canvasToScreen v p.1 p.2 in
  within (unit_roundoff * (4 * Qabs (Q_of x - Q_of (B64.offsetX v)) + Qabs (Q_of x)))
         q.1 (Q_of x)
  /\ within (unit_roundoff * (4 * Qabs (Q_of y - Q_of (B64.offsetY v)) + Qabs (Q_of y)))
            q.2 (Q_of y).
Proof.
  intros Hx Hy. split.
  - exact (proj1 (round_trip_within _ _ _ Hx)).
  - exact (proj1 (round_trip_within _ _ _ Hy)).
Qed.

Lemma transform_inverse_witness :
  round_trip_rounds (B64.scale scaled_up) (B64.offsetX scaled_up) 29 = true
  /\ round_trip_rounds (B64.scale scaled_up) (B64.offsetY scaled_up) 15 = true
  /\ let p := B64.screenToCanvas scaled_up 29 15 in
     let q := B64.canvasToScreen scaled_up p.1 p.2 in
     within (unit_roundoff * (4 * Qabs (Q_of 29 - Q_of (B64.offsetX scaled_up)) + Qabs (Q_of 29)))
            q.1 (Q_of 29)
     /\ within (unit_roundoff * (4 * Qabs (Q_of 15 - Q_of (B64.offsetY scaled_up)) + Qabs (Q_of 15)))
               q.2 (Q_of 15).
Proof.
  split; [vm_compute; reflexivity|]. split; [vm_compute; reflexivity|].
  exact (transform_inverse scaled_up 29 15 eq_refl eq_refl).
Defined.

(** ** The anchor of a zoom *)

(** C6 as stated fails in binary64: from the viewport that one turn of the
    wheel at [(100, 50)] leaves, whose scale [1.1] is strictly inside the
    bounds, a turn at [(116, 60)] sends the scene point that was under
    [(116, 60)] to [(115.99999999999999, 59.99999999999999)]. *)
Lemma zoom_anchoring_counterexample :
  ~ (forall v deltaY cx cy,
       PrimFloat.ltb B64.minScale (B64.scale v) = true ->
       PrimFloat.ltb (B64.scale v) B64.maxScale = true ->
       let p := B64.screenToCanvas v cx cy in
       let v' := B64.zoom v deltaY cx cy in
       PrimFloat.eqb (B64.canvasToScreen v' p.1 p.2).1 cx = true
       /\ PrimFloat.eqb (B64.canvasToScreen v' p.1 p.2).2 cy = true).
Proof.
  intros H. destruct (H zoomed_once (-100)%float 116%float 60%float eq_refl eq_refl) as [Hx _].
  vm_compute in Hx. discriminate.
Qed.

(** C6, amended (zoom anchoring, within tolerance).  For every viewport,
    whatever its scale, and every [zoom deltaY cx cy] in which each addition
    and subtraction that moves the offset and maps the anchor back rounds
    with a relative error of [2^-53] at most (when the clamped scale is the
    old one, so that nothing is written: each operation of the round trip),
    the scene point [p] that [screenToCanvas] gives for [(cx, cy)] before
    the call is sent by [canvasToScreen] after it to a finite point within
    [4 * 2^-53 * (|cx| + |p.x * scale'| + |offsetX|)] of [cx], and likewise
    of [cy]; [scale'] is the scale after the call and [offsetX] the offset
    before it. *)
Theorem zoom_anchoring (v : B64.Viewport) (deltaY cx cy : float) :
  zoom_rounds v deltaY cx (B64.offsetX v) = true ->
  zoom_rounds v deltaY cy (B64.offsetY v) = true ->
  let p := B64.screenToCanvas v cx cy in
  let v' := B64.zoom v deltaY cx cy in
  let q := B64.canvasToScreen v' p.1 p.2 in
  within (4 * unit_roundoff
          * (Qabs (Q_of cx) + Qabs (Q_of (p.1 * B64.scale v')%float) + Qabs (Q_of (B64.offsetX v))))
         q.1 (Q_of cx)
  /\ within (4 * unit_roundoff
             * (Qabs (Q_of cy) + Qabs (Q_of (p.2 * B64.scale v')%float)
                + Qabs (Q_of (B64.offsetY v))))
            q.2 (Q_of cy).
Proof.
  unfold zoom_rounds, B64.zoom. cbv zeta.
  destruct (negb (PrimFloat.eqb (B64.newScale v deltaY) (B64.scale v))); intros Hx Hy.
  - split; [by apply anchor_within in Hx|by apply anchor_within in Hy].
  - split.
    + exact (proj2 (round_trip_within _ _ _ Hx)).
    + exact (proj2 (round_trip_within _ _ _ Hy)).
Qed.

Lemma zoom_anchoring_witness :
  zoom_rounds zoomed_once (-100) 116 (B64.offsetX zoomed_once) = true
  /\ zoom_rounds zoomed_once (-100) 60 (B64.offsetY zoomed_once) = true
  /\ let p := B64.screenToCanvas zoomed_once 116 60 in
     let v' := B64.zoom zoomed_once (-100) 116 60 in
     let q := B64.canvasToScreen v' p.1 p.2 in
     within (4 * unit_roundoff
             * (Qabs (Q_of 116) + Qabs (Q_of (p.1 * B64.scale v')%float)
                + Qabs (Q_of (B64.offsetX zoomed_once))))
            q.1 (Q_of 116)
     /\ within (4 * unit_roundoff
                * (Qabs (Q_of 60) + Qabs (Q_of (p.2 * B64.scale v')%float)
                   + Qabs (Q_of (B64.offsetY zoomed_once))))
               q.2 (Q_of 60).
Proof.
  split; [vm_compute; reflexivity|]. split; [vm_compute; reflexivity|].
  exact (zoom_anchoring zoomed_once (-100) 116 60 eq_refl eq_refl).
Defined.

Local Close Scope Q_scope.

(** * Moving a shape *)

Lemma Qplus_0_r_eq (x : Q) : (x + 0)%Q = x.
Proof.
  destruct x as [n d]. unfold Qplus. simpl.
  by rewrite Z.mul_1_r, Z.add_0_r, Pos.mul_1_r.
Qed.

(** C2 (move round trip).  Resolving a move wrapper around a rect, a circle
    or a pencil stroke shifts every positional coordinate (rect [x], [y];
    circle [centerX], [centerY]; every point of the stroke) by exactly the
    offset [(dx, dy)] and leaves the size, [color] and [lineWidth] as they
    were; with offset [(0, 0)] the result is identical to the original. *)
Theorem move_round_trip (m : list (list Point)) (dx dy : Q) :
  (forall x y w h c lw,
      moved_json m (Rect x y w h c lw) dx dy = Rect (x + dx)%Q (y + dy)%Q w h c lw
      /\ moved_json m (Rect x y w h c lw) 0 0 = Rect x y w h c lw)
  /\ (forall cx cy r c lw,
      moved_json m (Circle cx cy r c lw) dx dy = Circle (cx + dx)%Q (cy + dy)%Q r c lw
      /\ moved_json m (Circle cx cy r c lw) 0 0 = Circle cx cy r c lw)
  /\ (forall a c lw,
      moved_json m (Pencil a c lw) dx dy
      = Pencil (map (fun p => mkPoint (point_x p + dx)%Q (point_y p + dy)%Q) (deref_arr m a)) c lw
      /\ moved_json m (Pencil a c lw) 0 0 = stringify m (Pencil a c lw)).
Proof.
  unfold moved_json. repeat split; simpl; rewrite ?Qplus_0_r_eq, ?deref_arr_new; try done.
  f_equal. induction (deref_arr m a) as [|[px py] l IH]; simpl; [done|].
  by rewrite !Qplus_0_r_eq, IH.
Qed.

(** * Hit testing and the eraser *)

Section Views.

Variable hypot : Q -> Q -> Q.

Lemma shapes_json_map (g : Game) : shapes_json g = map (json_at g) (existingShapes g).
Proof. reflexivity. Qed.

Lemma forallb_negb_existsb {A} (p : A -> bool) (l : list A) :
  forallb (fun x => negb (p x)) l = negb (existsb p l).
Proof. induction l as [|x l IH]; simpl; [done|]. by rewrite IH, negb_orb. Qed.

Lemma existsb_negb_forallb {A} (p : A -> bool) (l : list A) :
  existsb (fun x => negb (p x)) l = negb (forallb p l).
Proof. induction l as [|x l IH]; simpl; [done|]. by rewrite IH, negb_andb. Qed.

Lemma is_move_stringify (m : list (list Point)) (o : Obj) :
  is_move (stringify m o) = is_move o.
Proof. by destruct o. Qed.

(** The two callbacks of the source are this hit test. *)
Lemma hit_at_start_hitTest (g : Game) (l : loc) :
  hit_at_start hypot g l = hitTest hypot (startX g) (startY g) (scale g) (json_at g l).
Proof. unfold hit_at_start, json_at, Qgeb. by destruct (deref g l). Qed.

Lemma erase_keeps_hitTest (g : Game) (x y : Q) (l : loc) :
  erase_keeps hypot g x y (10 / scale g)%Q l = negb (hitTest hypot x y (scale g) (json_at g l)).
Proof.
  unfold erase_keeps, json_at, Qgeb, Qgtb. destruct (deref g l); simpl; try done.
  apply forallb_negb_existsb.
Qed.

Lemma filter_map_comm {A B} (f : A -> B) (p : B -> bool) (l : list A) :
  List.filter p (map f l) = map f (List.filter (fun x => p (f x)) l).
Proof.
  induction l as [|x l IH]; simpl; [done|]. rewrite IH. by destruct (p (f x)).
Qed.

Lemma filter_ext_eq {A} (p q : A -> bool) (l : list A) :
  (forall x, p x = q x) -> List.filter p l = List.filter q l.
Proof. intros H. induction l as [|x l IH]; simpl; [done|]. by rewrite H, IH. Qed.

Lemma filter_all {A} (p : A -> bool) (l : list A) :
  forallb p l = true -> List.filter p l = l.
Proof.
  induction l as [|x l IH]; simpl; [done|]. intros H. apply andb_true_iff in H.
  destruct H as [-> H]. by rewrite IH.
Qed.

Lemma filter_some_length {A} (p : A -> bool) (l : list A) :
  existsb (fun x => negb (p x)) l = true -> length (List.filter p l) < length l.
Proof.
  induction l as [|x l IH]; simpl; [done|]. intros H.
  pose proof (filter_length_le p l). destruct (p x); simpl in *; [|lia].
  specialize (IH H). lia.
Qed.

Lemma set_existingShapes_same (g : Game) : set_existingShapes g (existingShapes g) = g.
Proof. by destruct g. Qed.

(** What one pass of the eraser leaves in the store. *)
Lemma eraseShape_shapes (g : Game) (x y : Q) :
  shapes_json (eraseShape hypot g x y)
  = List.filter (fun s => negb (hitTest hypot x y (scale g) s)) (shapes_json g).
Proof.
  rewrite (shapes_json_map g), filter_map_comm.
  rewrite <- (filter_ext_eq _ _ _ (erase_keeps_hitTest g x y)).
  unfold eraseShape. simpl. by destruct (negb _).
Qed.

Lemma erase_keeps_all (g : Game) (x y : Q) :
  forallb (erase_keeps hypot g x y (10 / scale g)%Q) (existingShapes g)
  = negb (existsb (hitTest hypot x y (scale g)) (shapes_json g)).
Proof.
  rewrite (shapes_json_map g), <- forallb_negb_existsb.
  induction (existingShapes g) as [|l ls IH]; simpl; [done|].
  by rewrite IH, erase_keeps_hitTest.
Qed.

(** A press and a drag of the eraser are one pass each, at the scene point
    of the pointer. *)
Lemma eraser_press_and_drag (g : Game) (x y : Q) :
  selectedTool g = Teraser -> isPanning g = false ->
  let px := point_x (screenToCanvas g x y) in
  let py := point_y (screenToCanvas g x y) in
  mouseDownHandler hypot g x y
  = eraseShape hypot (set_currentMouse (set_start (set_clicked g true) px py) px py) px py
  /\ (clicked g = true ->
      mouseMoveHandler hypot g x y = eraseShape hypot (set_currentMouse g px py) px py).
Proof.
  intros Ht Hp. rewrite mouseDownHandler_eq. unfold mouseMoveHandler. simpl. rewrite Ht, Hp.
  split; [done|]. intros Hc. by rewrite Hc.
Qed.

(** C8 (eraser).  One pass of the eraser at a scene point [(x, y)]: when no
    shape of the store is hit there, the state is left as it was, so the
    store is unchanged and nothing is sent; when a shape is hit, the shapes
    hit are removed and exactly one message is sent, an update that carries
    the whole store as it is after the removal. *)
Theorem eraser_sends_on_removal_only (g : Game) (x y : Q) :
  (existsb (hitTest hypot x y (scale g)) (shapes_json g) = false ->
   eraseShape hypot g x y = g)
  /\ (existsb (hitTest hypot x y (scale g)) (shapes_json g) = true ->
      shapes_json (eraseShape hypot g x y)
      = List.filter (fun s => negb (hitTest hypot x y (scale g) s)) (shapes_json g)
      /\ length (shapes_json (eraseShape hypot g x y)) < length (shapes_json g)
      /\ sent (eraseShape hypot g x y)
         = sent g ++ [chat (UpdateMsg (shapes_json (eraseShape hypot g x y)) None) (roomId g)]).
Proof.
  pose proof (erase_keeps_all g x y) as Hall.
  split; intros H; rewrite H in Hall; simpl in Hall.
  - unfold eraseShape. simpl.
    rewrite filter_all by exact Hall. by rewrite Nat.eqb_refl, set_existingShapes_same.
  - assert (Hlen : length (List.filter (erase_keeps hypot g x y (10 / scale g)%Q) (existingShapes g))
                   < length (existingShapes g)).
    { apply filter_some_length. by rewrite existsb_negb_forallb, Hall. }
    split; [apply eraseShape_shapes|]. split.
    + unfold eraseShape. simpl. destruct (negb _); unfold shapes_json; simpl;
        by rewrite !length_map.
    + unfold eraseShape. simpl.
      destruct (Nat.eqb_spec (length (existingShapes g))
                  (length (List.filter (erase_keeps hypot g x y (10 / scale g)%Q) (existingShapes g))))
        as [E|E]; [lia|]. done.
Qed.

(** * The store as JSON, when memory grows *)

Lemma json_in_grow os m os' k l :
  forallb (wf_obj (length m)) os = true -> l < length os ->
  json_in (os ++ os') (m ++ k) l = json_in os m l.
Proof.
  intros Hwf Hl. unfold json_in. rewrite deref_in_app by done.
  apply stringify_app. by apply deref_in_forallb.
Qed.

Lemma map_json_in_grow os m os' k (ls : list loc) :
  forallb (wf_obj (length m)) os = true ->
  forallb (fun l => l <? length os) ls = true ->
  map (json_in (os ++ os') (m ++ k)) ls = map (json_in os m) ls.
Proof.
  intros Hwf Hls. apply map_ext_in. intros l Hl.
  rewrite forallb_forall in Hls. apply json_in_grow; [done|].
  apply Nat.ltb_lt. by apply Hls.
Qed.

Lemma deref_in_app_r (os os' : list Obj) (i : nat) (o : Obj) :
  os' !! i = Some o -> deref_in (os ++ os') (length os + i) = o.
Proof.
  intros H. unfold deref_in. rewrite lookup_app_r by lia.
  replace (length os + i - length os) with i by lia. by rewrite H.
Qed.

Lemma map_seq_lookup {A B} (f : nat -> B) (h : A -> B) (l : list A) (n : nat) :
  (forall i x, l !! i = Some x -> f (n + i) = h x) ->
  map f (seq n (length l)) = map h l.
Proof.
  revert n. induction l as [|x l IH]; intros n H; simpl; [done|]. f_equal.
  - rewrite <- (H 0 x eq_refl). f_equal. lia.
  - apply IH. intros i y Hy. rewrite <- (H (S i) y Hy). f_equal. lia.
Qed.

(** A new shape at the end of the store. *)
Lemma push_new_shapes (g : Game) (o : Obj) :
  wf g = true ->
  shapes_json (push_new g o) = shapes_json g ++ [stringify (arrs g) o].
Proof.
  intros H. unfold wf in H. apply wf_mem_iff in H. destruct H as (Ho & Hs & _).
  unfold shapes_json, push_new, deref. simpl. rewrite map_app. simpl.
  rewrite deref_in_new. f_equal.
  pose proof (map_json_in_grow (objs g) (arrs g) [o] [] (existingShapes g) Ho Hs) as E.
  unfold json_in in E. by rewrite app_nil_r in E.
Qed.

Lemma commit_spec (g : Game) (o : Obj) :
  wf g = true ->
  shapes_json (commit g o) = shapes_json g ++ [stringify (arrs g) o]
  /\ sent (commit g o) = sent g ++ [chat (ShapeMsg (stringify (arrs g) o)) (roomId g)].
Proof.
  intros H. unfold commit. split; [|done]. by apply (push_new_shapes g o).
Qed.

(** The store after an inbound update, before any substitution: the shapes
    of the message. *)
Lemma parse_all_shapes (os : list Obj) (m : list (list Point)) (ss : list Shape) :
  let '(ls, os2, m2) := parse_all ss os m in
  map (json_in os2 m2) ls = ss.
Proof.
  destruct (parse_all_spec ss os m) as (os' & k & -> & Hlen & Hwf & Hss).
  rewrite <- Hlen, <- Hss. apply map_seq_lookup.
  intros i o Hi. unfold json_in. by rewrite (deref_in_app_r os os' i o).
Qed.

(** * Inbound updates *)

(** C1 (move preservation).  An inbound update with [isMoving] true that
    arrives while [activeShape] is set leaves the store with the local
    wrapper, the object [activeShape] refers to and so with its current
    offset, in the place of every move wrapper of the incoming list, and with
    the other incoming shapes in the other places; an update whose [isMoving]
    is false or absent replaces the store by the incoming list. *)
Theorem inbound_update_keeps_local_wrapper (g : Game) (shapes : list Shape) :
  (forall a, wf g = true -> activeShape g = Some a ->
     exists g', onmessage g (Chat (UpdateMsg shapes (Some true))) = Returned g'
       /\ shapes_json g' = map (fun s => if is_move s then json_at g a else s) shapes
       /\ (forall i s, shapes !! i = Some s -> is_move s = true ->
             existingShapes g' !! i = Some a)
       /\ activeShape g' = Some a)
  /\ (forall isMoving, isMoving <> Some true ->
     exists g', onmessage g (Chat (UpdateMsg shapes isMoving)) = Returned g'
       /\ shapes_json g' = shapes).
Proof.
  split.
  - intros a Hwf Ha. simpl.
    destruct (parse_all_spec shapes (objs g) (arrs g)) as (os' & k & -> & Hlen & Hwf' & Hss).
    simpl. rewrite Ha. eexists. split; [reflexivity|].
    unfold wf in Hwf. apply wf_mem_iff in Hwf. destruct Hwf as (Ho & _ & _ & Hact).
    rewrite Ha in Hact. simpl in Hact.
    assert (Hlt : a < length (objs g)).
    { apply deref_in_move_lt. by destruct (deref_in (objs g) a). }
    assert (Hja : json_in (objs g ++ os') (arrs g ++ k) a = json_at g a)
      by (by apply json_in_grow).
    split; [|split; [|done]].
    + unfold shapes_json, deref. simpl. rewrite map_map, <- Hlen, <- Hss, map_map.
      apply map_seq_lookup. intros i o Hi.
      rewrite (deref_in_app_r _ _ _ _ Hi), is_move_stringify.
      destruct (is_move o); [exact Hja|]. by rewrite (deref_in_app_r _ _ _ _ Hi).
    + intros i s Hi Hmv. simpl. rewrite list_lookup_fmap.
      rewrite <- Hss in Hi. rewrite list_lookup_fmap in Hi.
      destruct (os' !! i) as [o|] eqn:Eo; [|done]. simpl in Hi. injection Hi as <-.
      rewrite lookup_seq_lt by (rewrite <- Hlen; by eapply lookup_lt_Some).
      simpl. unfold deref. simpl. rewrite (deref_in_app_r _ _ _ _ Eo).
      by rewrite is_move_stringify in Hmv; rewrite Hmv.
  - intros isMoving Hne. simpl.
    pose proof (parse_all_shapes (objs g) (arrs g) shapes) as Hs.
    destruct (parse_all shapes (objs g) (arrs g)) as [[ls os] m]. simpl.
    destruct isMoving as [[|]|]; [done| |]; eexists; (split; [reflexivity|exact Hs]).
Qed.

(** * Panning *)

(** While the space bar is held, a press and a move leave the store and
    the socket alone. *)
Lemma panning_press_and_move (g : Game) (x y : Q) :
  isPanning g = true ->
  (shapes_json (mouseDownHandler hypot g x y) = shapes_json g
   /\ sent (mouseDownHandler hypot g x y) = sent g)
  /\ (shapes_json (mouseMoveHandler hypot g x y) = shapes_json g
      /\ sent (mouseMoveHandler hypot g x y) = sent g).
Proof.
  intros H. rewrite mouseDownHandler_eq. unfold mouseMoveHandler. simpl. rewrite H.
  by destruct (clicked g).
Qed.

(** C3 (panning), at the input where the code departs from it.  The tool is
    the rectangle, the space bar is pressed, the button goes down at [(0, 0)]
    and is released at [(10, 10)]: [mouseUpHandler] does not look at
    [isPanning], so the release commits a rectangle and sends it. *)
Theorem release_while_panning_commits :
  let g := run hypot (newGame "room") [SetTool Trect; KeyDown "Space"; MouseDown 0 0] in
  isPanning g = true
  /\ shapes_json g = [] /\ sent g = []
  /\ shapes_json (mouseUpHandler hypot g 10 10) = [Rect 0 0 10 10 "black" 2]
  /\ sent (mouseUpHandler hypot g 10 10)
     = [chat (ShapeMsg (Rect 0 0 10 10 "black" 2)) "room"].
Proof. vm_compute. repeat split; reflexivity. Qed.

(** * Malformed messages *)

(** A chat message of the expected shape never makes the handler throw. *)
Lemma onmessage_chat_returns (g : Game) (p : Payload) :
  exists g', onmessage g (Chat p) = Returned g'.
Proof.
  destruct p as [s|ss f]; simpl.
  - destruct (parse s (arrs g)). eauto.
  - destruct (parse_all ss (objs g) (arrs g)) as [[ls os] m]. simpl.
    destruct f as [[|]|]; eauto. destruct (activeShape g); eauto.
Qed.



(** * Strokes have at least two points *)

Lemma good_shape_stringify (m : list (list Point)) (o : Obj) :
  good_shape (stringify m o) = good_obj m o.
Proof. unfold good_shape, good_obj. induction o; cbn -[Nat.leb]; auto. Qed.

Lemma good_obj_grow (m k : list (list Point)) (o : Obj) :
  good_obj m o = true -> good_obj (m ++ k) o = true.
Proof.
  unfold good_obj. induction o; cbn -[Nat.leb]; auto.
  rewrite !Nat.leb_le. intros H. rewrite deref_arr_app; [done|].
  unfold deref_arr in H. destruct (m !! points) eqn:E; simpl in H; [|lia].
  by eapply lookup_lt_Some.
Qed.

Lemma good_obj_push (m : list (list Point)) (a : loc) (p : Point) (o : Obj) :
  good_obj m o = true -> good_obj (<[a := deref_arr m a ++ [p]]> m) o = true.
Proof.
  unfold good_obj. induction o; cbn -[Nat.leb]; auto.
  rewrite !Nat.leb_le. intros H. unfold deref_arr in *.
  destruct (decide (a = points)) as [->|Hne]; [|by rewrite list_lookup_insert_ne].
  destruct (m !! points) as [pts|] eqn:E; simpl in H; [|lia].
  rewrite list_lookup_insert_eq by (by eapply lookup_lt_Some). simpl.
  rewrite length_app. lia.
Qed.

Lemma good_memory_store (g : Game) : good_memory g = true -> good_store g = true.
Proof.
  intros H. unfold good_store, shapes_json. rewrite forallb_forall. intros s Hs.
  apply in_map_iff in Hs. destruct Hs as (l & <- & _). rewrite good_shape_stringify.
  by apply deref_in_forallb.
Qed.

Lemma good_getMovedShape (m : list (list Point)) (shape : Obj) (ox oy : Q) :
  good_obj m shape = true ->
  good_obj (getMovedShape m shape ox oy).2 (getMovedShape m shape ox oy).1 = true.
Proof.
  destruct shape; cbn -[Nat.leb]; auto. unfold good_obj. cbn -[Nat.leb].
  by rewrite deref_arr_new, length_map.
Qed.

Lemma good_parse_all (ss : list Shape) (os' : list Obj) (m : list (list Point)) :
  map (stringify m) os' = ss -> forallb good_shape ss = true ->
  forallb (good_obj m) os' = true.
Proof.
  intros <-. rewrite !forallb_forall. intros H o Ho.
  rewrite <- good_shape_stringify. apply H. by apply in_map.
Qed.

(** Memory grows by good objects. *)
Lemma good_memory_grow (os os' : list Obj) (m k : list (list Point)) :
  forallb (good_obj m) os = true -> forallb (good_obj (m ++ k)) os' = true ->
  forallb (good_obj (m ++ k)) (os ++ os') = true.
Proof.
  intros H H'. rewrite forallb_app, H', andb_true_r.
  eapply forallb_impl; [|exact H]. intros o. apply good_obj_grow.
Qed.

Lemma good_push_new (g : Game) (o : Obj) :
  good_memory g = true -> good_obj (arrs g) o = true -> good_memory (push_new g o) = true.
Proof.
  intros H Ho. unfold good_memory, push_new in *. simpl.
  rewrite forallb_app, H. simpl. by rewrite Ho.
Qed.

Lemma good_eraseShape (g : Game) (x y : Q) :
  good_memory g = true -> good_memory (eraseShape hypot g x y) = true.
Proof. intros H. unfold eraseShape. simpl. by destruct (negb _). Qed.

Lemma good_deref (g : Game) (l : loc) :
  good_memory g = true -> good_obj (arrs g) (deref g l) = true.
Proof. intros H. by apply deref_in_forallb. Qed.

Lemma good_mouseDownHandler (g : Game) (x y : Q) :
  good_memory g = true -> good_memory (mouseDownHandler hypot g x y) = true.
Proof.
  intros H. rewrite mouseDownHandler_eq. simpl.
  destruct (isPanning g); [exact H|].
  destruct (selectedTool g); simpl; try exact H.
  - unfold good_memory in *. simpl. eapply forallb_impl; [|exact H].
    intros o. apply good_obj_grow.
  - by apply good_eraseShape.
  - match goal with |- context [find ?p ?l] => destruct (find p l) as [s|] eqn:E end;
      [|exact H].
    unfold good_memory. simpl. rewrite forallb_app. simpl.
    rewrite andb_true_r. apply andb_true_iff. split; [exact H|].
    apply (good_deref _ s) in H. exact H.
Qed.

Lemma good_mouseUpHandler (g : Game) (x y : Q) :
  good_memory g = true -> good_memory (mouseUpHandler hypot g x y) = true.
Proof.
  intros H. unfold mouseUpHandler.
  destruct (clicked g); simpl; [|exact H].
  destruct (selectedTool g); simpl.
  - match goal with |- context [if ?b then _ else _] => destruct b end; [|exact H].
    by apply (good_push_new _ _ H).
  - match goal with |- context [if ?b then _ else _] => destruct b end; [|exact H].
    by apply (good_push_new _ _ H).
  - destruct (Nat.ltb_spec 1 (length (deref_arr (arrs g) (currentPencilStroke g)))) as [Hl|Hl];
      [|exact H].
    apply (good_push_new _ _ H). unfold good_obj. cbn -[Nat.leb]. apply Nat.leb_le. lia.
  - exact H.
  - destruct (activeShape g) as [a|] eqn:Ea; [|exact H].
    pose proof (good_deref g a H) as Hd. unfold deref in *. simpl.
    destruct (deref_in (objs g) a) as [| | |shape ox oy| |] eqn:Ed; try exact H.
    pose proof (good_getMovedShape (arrs g) shape ox oy Hd) as Hm.
    assert (Hwf : exists k, (getMovedShape (arrs g) shape ox oy).2 = arrs g ++ k).
    { destruct shape; simpl; eauto using app_nil_r. }
    destruct Hwf as [k Hk].
    destruct (getMovedShape (arrs g) shape ox oy) as [finalShape m]. simpl in *. subst m.
    unfold good_memory. simpl. by apply good_memory_grow; [|simpl; rewrite Hm].
Qed.

Lemma good_mouseMoveHandler (g : Game) (x y : Q) :
  good_memory g = true -> good_memory (mouseMoveHandler hypot g x y) = true.
Proof.
  intros H. unfold mouseMoveHandler.
  destruct (clicked g && isPanning g) eqn:Ep; simpl; [exact H|].
  destruct (clicked g); simpl; [|exact H].
  destruct (selectedTool g); simpl; try exact H.
  - unfold good_memory in *. simpl. eapply forallb_impl; [|exact H].
    intros o. apply good_obj_push.
  - by apply good_eraseShape.
  - destruct (activeShape g) as [a|] eqn:Ea; [|exact H].
    pose proof (good_deref g a H) as Hd. unfold deref in *. simpl.
    destruct (deref_in (objs g) a) as [| | |shape ox oy| |] eqn:Ed; try exact H.
    unfold good_memory. simpl. by apply forallb_insert.
Qed.

Lemma good_parse_all_state (g : Game) (ss : list Shape) :
  good_memory g = true -> forallb good_shape ss = true ->
  good_memory (let '(ls, os, m) := parse_all ss (objs g) (arrs g) in
               set_existingShapes (set_arrs (set_objs g os) m) ls) = true.
Proof.
  intros H Hss.
  destruct (parse_all_spec ss (objs g) (arrs g)) as (os' & k & -> & _ & _ & Hs).
  unfold good_memory. simpl. apply good_memory_grow; [exact H|].
  by apply (good_parse_all ss).
Qed.

Lemma good_step (g : Game) (e : Event) :
  good_memory g = true -> good_event e = true -> good_memory (step hypot g e) = true.
Proof.
  intros H He. destruct e; simpl.
  - by apply good_mouseDownHandler.
  - by apply good_mouseUpHandler.
  - by apply good_mouseMoveHandler.
  - unfold wheelHandler, zoom, pan.
    repeat (match goal with |- context [if ?b then _ else _] => destruct b end); exact H.
  - unfold keyDownHandler. destruct (String.eqb _ _); exact H.
  - unfold keyUpHandler. destruct (String.eqb _ _); exact H.
  - exact H.
  - exact H.
  - exact H.
  - by apply good_parse_all_state.
  - destruct data as [| | |[shape|shapes isMoving]]; simpl in *; try exact H.
    + destruct (parse_spec shape (arrs g)) as (k & Hk & _ & Hs).
      destruct (parse shape (arrs g)) as [o m]. simpl in *. subst m.
      apply good_push_new.
      * unfold good_memory in *. simpl. eapply forallb_impl; [|exact H].
        intros o'. apply good_obj_grow.
      * simpl. by rewrite <- good_shape_stringify, Hs.
    + pose proof (good_parse_all_state g shapes H He) as H'.
      destruct (parse_all shapes (objs g) (arrs g)) as [[ls os] m]. simpl.
      destruct isMoving as [[|]|]; simpl; try exact H'.
      by destruct (activeShape g).
Qed.

Lemma good_run (g : Game) (es : list Event) :
  good_memory g = true -> forallb good_event es = true ->
  good_memory (run hypot g es) = true.
Proof.
  revert g. induction es as [|e es IH]; intros g H Hes; [done|].
  simpl in *. apply andb_true_iff in Hes. destruct Hes as [He Hes].
  apply IH; [|done]. by apply good_step.
Qed.

(** C7, amended.  From a state in which every stroke in memory has at least
    two points (the state of a new [Game] is one), every sequence of
    events (gestures, eraser passes, moves, inbound messages and the
    initial fetch) leaves a store in which no stroke, wrapped or not, has
    fewer than two points, provided the shapes that the inbound messages and
    the fetch bring have none: these are stored as they come, unchecked. *)
Theorem strokes_keep_two_points (g : Game) (es : list Event) :
  good_memory g = true -> forallb good_event es = true ->
  good_store (run hypot g es) = true.
Proof. intros H Hes. apply good_memory_store. by apply good_run. Qed.

(** * Move wrappers in the store *)

Lemma moves_moves_in (g : Game) : moves g = moves_in (objs g) (existingShapes g).
Proof.
  unfold moves, moves_in, shapes_json. rewrite filter_map_comm, length_map.
  f_equal. apply filter_ext_eq. intros l. apply is_move_stringify.
Qed.

Lemma moves_in_app (os : list Obj) (ls ls' : list loc) :
  moves_in os (ls ++ ls') = moves_in os ls + moves_in os ls'.
Proof. unfold moves_in. by rewrite List.filter_app, length_app. Qed.

Lemma moves_in_grow (os os' : list Obj) (ls : list loc) :
  forallb (fun l => l <? length os) ls = true ->
  moves_in (os ++ os') ls = moves_in os ls.
Proof.
  intros H. unfold moves_in. f_equal. induction ls as [|l ls IH]; simpl; [done|].
  simpl in H. apply andb_true_iff in H. destruct H as [Hl Hls]. apply Nat.ltb_lt in Hl.
  by rewrite deref_in_app, IH.
Qed.

Lemma moves_in_filter (os : list Obj) (q : loc -> bool) (ls : list loc) :
  moves_in os (List.filter q ls) <= moves_in os ls.
Proof.
  unfold moves_in. induction ls as [|l ls IH]; simpl; [done|].
  destruct (q l), (is_move (deref_in os l)) eqn:E; simpl; rewrite ?E; simpl; lia.
Qed.

Lemma moves_in_filter_no_move (os : list Obj) (q : loc -> bool) (ls : list loc) :
  moves_in os (List.filter (fun l => q l && negb (is_move (deref_in os l))) ls) = 0.
Proof.
  unfold moves_in. induction ls as [|l ls IH]; simpl; [done|].
  destruct (q l), (is_move (deref_in os l)) eqn:E; simpl; rewrite ?E; simpl; done.
Qed.

Lemma moves_in_insert (os : list Obj) (a : loc) (o : Obj) (ls : list loc) :
  is_move (deref_in os a) = true -> is_move o = true ->
  moves_in (<[a := o]> os) ls = moves_in os ls.
Proof.
  intros Ha Ho. unfold moves_in. f_equal. apply filter_ext_eq. intros l.
  destruct (decide (a = l)) as [<-|Hne]; [|by rewrite deref_in_insert_ne].
  rewrite deref_in_insert by (by apply deref_in_move_lt). by rewrite Ha, Ho.
Qed.

Lemma moves_eraseShape (g : Game) (x y : Q) : moves (eraseShape hypot g x y) <= moves g.
Proof.
  rewrite !moves_moves_in. unfold eraseShape. simpl.
  destruct (negb _); apply moves_in_filter.
Qed.

Lemma moves_push_new (g : Game) (o : Obj) :
  wf g = true -> moves (push_new g o) = moves g + (if is_move o then 1 else 0).
Proof.
  intros H. unfold wf in H. apply wf_mem_iff in H. destruct H as (_ & Hs & _).
  rewrite !moves_moves_in. unfold push_new. simpl.
  rewrite moves_in_app, moves_in_grow by done. f_equal.
  unfold moves_in. simpl. rewrite deref_in_new. by destruct (is_move o).
Qed.

Lemma find_ext_eq {A} (p q : A -> bool) (l : list A) :
  (forall x, p x = q x) -> find p l = find q l.
Proof. intros H. induction l as [|x l IH]; simpl; [done|]. by rewrite H, IH. Qed.

(** The press of the move tool on a shape: what [find] returns is the last
    shape of the store that the press point hits. *)
Lemma mouseDown_move_hit (g : Game) (x y : Q) (l : loc) :
  isPanning g = false -> selectedTool g = Tmove ->
  find (fun l => hitTest hypot (point_x (screenToCanvas g x y)) (point_y (screenToCanvas g x y))
                   (scale g) (json_at g l))
       (rev (existingShapes g)) = Some l ->
  exists g1,
    mouseDownHandler hypot g x y
    = send g1 (UpdateMsg (shapes_json g1) (Some true))
    /\ objs g1 = objs g ++ [Move (deref g l) 0 0]
    /\ arrs g1 = arrs g
    /\ existingShapes g1
       = List.filter (fun s => negb (Nat.eqb s l) && negb (is_move (deref g s)))
                     (existingShapes g) ++ [length (objs g)]
    /\ activeShape g1 = Some (length (objs g))
    /\ sent g1 = sent g.
Proof.
  intros Hp Ht Hf. rewrite mouseDownHandler_eq. simpl. rewrite Hp, Ht.
  erewrite find_ext_eq; [rewrite Hf|].
  - eexists. split; [reflexivity|]. simpl. done.
  - intros s. by rewrite hit_at_start_hitTest.
Qed.

Lemma moves_mouseDownHandler (g : Game) (x y : Q) :
  wf g = true -> moves (mouseDownHandler hypot g x y) <= Nat.max (moves g) 1.
Proof.
  intros H. assert (Hm : moves g <= Nat.max (moves g) 1) by lia.
  rewrite mouseDownHandler_eq. simpl.
  destruct (isPanning g); [exact Hm|].
  destruct (selectedTool g); simpl; try exact Hm.
  - rewrite !moves_moves_in in *. exact Hm.
  - etransitivity; [apply moves_eraseShape|exact Hm].
  - match goal with |- context [find ?p ?l] => destruct (find p l) as [s|] eqn:E end;
      [|exact Hm].
    unfold wf in H. apply wf_mem_iff in H. destruct H as (_ & Hs & _).
    rewrite moves_moves_in. simpl. unfold deref. simpl.
    rewrite moves_in_app, moves_in_grow by (by apply forallb_filter).
    rewrite moves_in_filter_no_move. unfold moves_in. simpl. rewrite deref_in_new. simpl. lia.
Qed.

Lemma filter_no_move (os : list Obj) (ls : list loc) :
  moves_in os (List.filter (fun l => negb (is_move (deref_in os l))) ls) = 0.
Proof.
  rewrite <- (moves_in_filter_no_move os (fun _ => true) ls). f_equal.
Qed.

Lemma moves_mouseUpHandler (g : Game) (x y : Q) :
  wf g = true -> moves (mouseUpHandler hypot g x y) <= moves g.
Proof.
  intros H. unfold mouseUpHandler.
  destruct (clicked g); simpl; [|done].
  destruct (selectedTool g); simpl; try done.
  - match goal with |- context [if ?b then _ else _] => destruct b end; [|done].
    unfold commit. change (moves (send ?g ?p)) with (moves g).
    rewrite (moves_push_new (set_clicked g false)) by exact H. simpl.
    change (moves (set_clicked g false)) with (moves g). lia.
  - match goal with |- context [if ?b then _ else _] => destruct b end; [|done].
    unfold commit. change (moves (send ?g ?p)) with (moves g).
    rewrite (moves_push_new (set_clicked g false)) by exact H. simpl.
    change (moves (set_clicked g false)) with (moves g). lia.
  - match goal with |- context [if ?b then _ else _] => destruct b end; [|done].
    unfold commit. change (moves (send ?g ?p)) with (moves g).
    rewrite (moves_push_new (set_clicked g false)) by exact H. simpl.
    change (moves (set_clicked g false)) with (moves g). lia.
  - destruct (activeShape g) as [a|] eqn:Ea; [|done].
    unfold deref. simpl.
    destruct (deref_in (objs g) a) as [| | |shape ox oy| |] eqn:Ed; try done.
    unfold wf in H. apply wf_mem_iff in H. destruct H as (Ho & Hs & _ & Hact).
    rewrite Ea in Hact. simpl in Hact. rewrite Ed in Hact.
    assert (Hnm : is_move (getMovedShape (arrs g) shape ox oy).1 = false).
    { destruct shape; simpl in *; done. }
    destruct (getMovedShape (arrs g) shape ox oy) as [finalShape m]. simpl in *.
    rewrite moves_moves_in. unfold push_new. simpl.
    rewrite moves_in_app, moves_in_grow by (by apply forallb_filter).
    rewrite filter_no_move. unfold moves_in. simpl. rewrite deref_in_new, Hnm. simpl. lia.
Qed.

Lemma moves_mouseMoveHandler (g : Game) (x y : Q) :
  moves (mouseMoveHandler hypot g x y) <= moves g.
Proof.
  unfold mouseMoveHandler.
  destruct (clicked g && isPanning g) eqn:Ep; simpl; [done|].
  destruct (clicked g); simpl; [|done].
  destruct (selectedTool g); simpl; try done.
  - by rewrite !moves_moves_in.
  - exact (moves_eraseShape (set_currentMouse g _ _) _ _).
  - destruct (activeShape g) as [a|] eqn:Ea; [|done].
    unfold deref. simpl.
    destruct (deref_in (objs g) a) as [| | |shape ox oy| |] eqn:Ed; try done.
    rewrite !moves_moves_in. simpl. rewrite moves_in_insert; [done| |done].
    by rewrite Ed.
Qed.

(** A local event leaves no more wrappers in the store than it found, but
    for the press of the move tool, which leaves one. *)
Lemma moves_step (g : Game) (e : Event) :
  wf g = true -> local_event e = true ->
  moves (step hypot g e) <= Nat.max (moves g) 1.
Proof.
  intros H He. assert (Hm : moves g <= Nat.max (moves g) 1) by lia.
  destruct e; simpl; try done.
  - by apply moves_mouseDownHandler.
  - etransitivity; [by apply moves_mouseUpHandler|exact Hm].
  - etransitivity; [by apply moves_mouseMoveHandler|exact Hm].
  - unfold wheelHandler, zoom, pan.
    repeat (match goal with |- context [if ?b then _ else _] => destruct b end); exact Hm.
  - unfold keyDownHandler. destruct (String.eqb _ _); exact Hm.
  - unfold keyUpHandler. destruct (String.eqb _ _); exact Hm.
Qed.

Lemma unreferenced_in_iff n ls active w :
  unreferenced_in n ls active w = true <->
  w < n /\ forallb (fun l => negb (Nat.eqb l w)) ls = true
  /\ active <> Some w.
Proof.
  unfold unreferenced_in. rewrite !andb_true_iff, Nat.ltb_lt.
  destruct active as [a|].
  - rewrite negb_true_iff, Nat.eqb_neq.
    split; [intros [[? ?] ?]|intros (? & ? & ?)]; repeat split; auto; congruence.
  - split; [intros [[? ?] _]|intros (? & ? & _)]; repeat split; auto; discriminate.
Qed.

Lemma unreferenced_eraseShape (g : Game) (x y : Q) (w : loc) :
  unreferenced g w = true -> unreferenced (eraseShape hypot g x y) w = true.
Proof.
  unfold unreferenced, eraseShape. simpl. intros H. apply unreferenced_in_iff in H.
  destruct H as (Hw & Hs & Ha).
  destruct (negb _); simpl; apply unreferenced_in_iff; repeat split; auto using forallb_filter.
Qed.

Lemma unreferenced_push_new (g : Game) (o : Obj) (w : loc) :
  unreferenced g w = true -> unreferenced (push_new g o) w = true.
Proof.
  unfold unreferenced, push_new. simpl. intros H. apply unreferenced_in_iff in H.
  destruct H as (Hw & Hs & Ha). apply unreferenced_in_iff. rewrite length_app. simpl.
  repeat split; [lia| |done]. rewrite forallb_app, Hs. simpl.
  rewrite andb_true_r. apply negb_true_iff, Nat.eqb_neq. lia.
Qed.

Lemma unreferenced_mouseDownHandler (g : Game) (x y : Q) (w : loc) :
  unreferenced g w = true -> unreferenced (mouseDownHandler hypot g x y) w = true.
Proof.
  intros H. rewrite mouseDownHandler_eq. simpl.
  destruct (isPanning g); [exact H|].
  destruct (selectedTool g); simpl; try exact H.
  - by apply unreferenced_eraseShape.
  - match goal with |- context [find ?p ?l] => destruct (find p l) as [s|] eqn:E end;
      [|exact H].
    unfold unreferenced in *. simpl. apply unreferenced_in_iff in H.
    destruct H as (Hw & Hs & Ha). apply unreferenced_in_iff. rewrite length_app. simpl.
    repeat split; [lia| |intros [= E']; lia].
    rewrite forallb_app. simpl. rewrite andb_true_r. apply andb_true_iff. split.
    + by apply forallb_filter.
    + apply negb_true_iff, Nat.eqb_neq. lia.
Qed.

Lemma unreferenced_mouseUpHandler (g : Game) (x y : Q) (w : loc) :
  unreferenced g w = true -> unreferenced (mouseUpHandler hypot g x y) w = true.
Proof.
  intros H. unfold mouseUpHandler.
  destruct (clicked g); simpl; [|exact H].
  destruct (selectedTool g); simpl; try exact H.
  - match goal with |- context [if ?b then _ else _] => destruct b end; [|exact H].
    by apply (unreferenced_push_new (set_clicked g false)).
  - match goal with |- context [if ?b then _ else _] => destruct b end; [|exact H].
    by apply (unreferenced_push_new (set_clicked g false)).
  - match goal with |- context [if ?b then _ else _] => destruct b end; [|exact H].
    by apply (unreferenced_push_new (set_clicked g false)).
  - destruct (activeShape g) as [a|] eqn:Ea; [|exact H].
    unfold deref. simpl.
    destruct (deref_in (objs g) a) as [| | |shape ox oy| |] eqn:Ed; try exact H.
    destruct (getMovedShape (arrs g) shape ox oy) as [finalShape m].
    unfold unreferenced in *. simpl. apply unreferenced_in_iff in H.
    destruct H as (Hw & Hs & Ha). apply unreferenced_in_iff. rewrite length_app. simpl.
    repeat split; [lia| |done].
    rewrite forallb_app. simpl. rewrite andb_true_r. apply andb_true_iff. split.
    + by apply forallb_filter.
    + apply negb_true_iff, Nat.eqb_neq. lia.
Qed.

Lemma unreferenced_mouseMoveHandler (g : Game) (x y : Q) (w : loc) :
  unreferenced g w = true -> unreferenced (mouseMoveHandler hypot g x y) w = true.
Proof.
  intros H. unfold mouseMoveHandler.
  destruct (clicked g && isPanning g) eqn:Ep; simpl; [exact H|].
  destruct (clicked g); simpl; [|exact H].
  destruct (selectedTool g); simpl; try exact H.
  - by apply unreferenced_eraseShape.
  - destruct (activeShape g) as [a|] eqn:Ea; [|exact H].
    unfold deref. simpl.
    destruct (deref_in (objs g) a) as [| | |shape ox oy| |] eqn:Ed; try exact H.
    unfold unreferenced in *. simpl. by rewrite length_insert.
Qed.

Lemma unreferenced_parse_all (g : Game) (ss : list Shape) (w : loc) :
  unreferenced g w = true ->
  unreferenced (let '(ls, os, m) := parse_all ss (objs g) (arrs g) in
                set_existingShapes (set_arrs (set_objs g os) m) ls) w = true.
Proof.
  intros H. destruct (parse_all_spec ss (objs g) (arrs g)) as (os' & k & -> & _).
  unfold unreferenced in *. simpl. apply unreferenced_in_iff in H.
  destruct H as (Hw & Hs & Ha). apply unreferenced_in_iff. rewrite length_app.
  repeat split; [lia| |done]. apply forallb_forall. intros l Hl. apply in_seq in Hl.
  apply negb_true_iff, Nat.eqb_neq. lia.
Qed.

Lemma unreferenced_step (g : Game) (e : Event) (w : loc) :
  unreferenced g w = true -> unreferenced (step hypot g e) w = true.
Proof.
  intros H. destruct e; simpl.
  - by apply unreferenced_mouseDownHandler.
  - by apply unreferenced_mouseUpHandler.
  - by apply unreferenced_mouseMoveHandler.
  - unfold wheelHandler, zoom, pan.
    repeat (match goal with |- context [if ?b then _ else _] => destruct b end); exact H.
  - unfold keyDownHandler. destruct (String.eqb _ _); exact H.
  - unfold keyUpHandler. destruct (String.eqb _ _); exact H.
  - exact H.
  - exact H.
  - exact H.
  - by apply unreferenced_parse_all.
  - destruct data as [| | |[shape|shapes isMoving]]; simpl; try exact H.
    + destruct (parse shape (arrs g)) as [o m].
      by apply (unreferenced_push_new (set_arrs g m)).
    + pose proof (unreferenced_parse_all g shapes w H) as H'.
      destruct (parse_all shapes (objs g) (arrs g)) as [[ls os] m]. simpl.
      destruct isMoving as [[|]|]; simpl; try exact H'.
      destruct (activeShape g) as [a|] eqn:Ea; simpl; [|exact H'].
      unfold unreferenced in *. simpl in *. rewrite Ea in *.
      apply unreferenced_in_iff in H'. destruct H' as (Hw & Hs & Ha).
      apply unreferenced_in_iff. repeat split; [done| |done].
      rewrite forallb_forall in *. intros l Hl. apply in_map_iff in Hl.
      destruct Hl as (l' & <- & Hl'). destruct (is_move _); [|by apply Hs].
      apply negb_true_iff, Nat.eqb_neq. congruence.
Qed.

Lemma unreferenced_run (g : Game) (es : list Event) (w : loc) :
  unreferenced g w = true -> unreferenced (run hypot g es) w = true.
Proof.
  revert g. induction es as [|e es IH]; intros g H; [done|].
  simpl. apply IH. by apply unreferenced_step.
Qed.

(** C10, amended.  In a well-formed state: when a press of the move tool
    hits a shape, the store becomes what it was without the hit shape and
    without any move wrapper, followed by the new wrapper, which is the only
    wrapper in it and becomes [activeShape]; a wrapper that was in the store,
    left there by a drag that was never released under the move tool, say,
    is dropped together with the shape it wraps (nothing is resolved: the
    wrapped shape is not put back) and no later event brings that object
    back into the store.  And no event of the local user leaves more
    wrappers in the store than it found, or than one: local events keep a
    store with at most one wrapper so, but they do not bring the count down
    to one when an update from a peer has brought more. *)
Theorem one_wrapper_at_most (g : Game) :
  wf g = true ->
  (forall x y l,
      isPanning g = false -> selectedTool g = Tmove ->
      find (fun l => hitTest hypot (point_x (screenToCanvas g x y)) (point_y (screenToCanvas g x y))
                       (scale g) (json_at g l))
           (rev (existingShapes g)) = Some l ->
      let kept := List.filter (fun s => negb (Nat.eqb s l) && negb (is_move (deref g s)))
                              (existingShapes g) in
      let g' := mouseDownHandler hypot g x y in
      existingShapes g' = kept ++ [length (objs g)]
      /\ shapes_json g' = map (json_at g) kept ++ [Move (json_at g l) 0 0]
      /\ moves g' = 1
      /\ activeShape g' = Some (length (objs g))
      /\ (forall w es, In w (existingShapes g) -> is_move (deref g w) = true ->
            ~ In w (existingShapes (run hypot g' es))))
  /\ (forall e, local_event e = true -> moves (step hypot g e) <= Nat.max (moves g) 1).
Proof.
  intros Hwf. split; [|intros e He; by apply moves_step].
  intros x y l Hp Ht Hf kept g'.
  destruct (mouseDown_move_hit g x y l Hp Ht Hf) as (g1 & Hg' & Hobjs & Harrs & Hshapes & Hact & _).
  fold kept in Hshapes. subst g'. rewrite Hg'.
  pose proof Hwf as Hwf'. unfold wf in Hwf'. apply wf_mem_iff in Hwf'.
  destruct Hwf' as (Ho & Hs & _).
  assert (Hkept : forallb (fun l => l <? length (objs g)) kept = true)
    by (by apply forallb_filter).
  split; [exact Hshapes|]. split; [|split; [|split; [exact Hact|]]].
  - unfold shapes_json, deref. simpl. rewrite Hshapes, Hobjs, Harrs, map_app. simpl.
    rewrite deref_in_new. simpl. f_equal.
    pose proof (map_json_in_grow (objs g) (arrs g) [Move (deref g l) 0 0] [] kept Ho Hkept) as E.
    rewrite app_nil_r in E. exact E.
  - rewrite moves_moves_in. simpl. rewrite Hshapes, Hobjs.
    rewrite moves_in_app, moves_in_grow by done.
    unfold kept, deref. rewrite moves_in_filter_no_move.
    unfold moves_in. simpl. by rewrite deref_in_new.
  - intros w es Hin Hmv Hin'.
    assert (Hu : unreferenced (send g1 (UpdateMsg (shapes_json g1) (Some true))) w = true).
    { unfold unreferenced. simpl. rewrite Hshapes, Hobjs, Hact.
      apply unreferenced_in_iff. rewrite length_app. simpl.
      assert (Hw : w < length (objs g)) by (by apply deref_in_move_lt).
      repeat split; [lia| |intros [= E]; lia].
      rewrite forallb_app. simpl. rewrite andb_true_r. apply andb_true_iff. split.
      - apply forallb_forall. intros s Hs'. apply List.filter_In in Hs'.
        destruct Hs' as [_ Hs']. apply andb_true_iff in Hs'. destruct Hs' as [_ Hs'].
        apply negb_true_iff, Nat.eqb_neq. intros ->. by rewrite Hmv in Hs'.
      - apply negb_true_iff, Nat.eqb_neq. lia. }
    apply (unreferenced_run _ es) in Hu. unfold unreferenced in Hu.
    apply unreferenced_in_iff in Hu. destruct Hu as (_ & Hu & _).
    rewrite forallb_forall in Hu. specialize (Hu w Hin').
    by rewrite Nat.eqb_refl in Hu.
Qed.

(** * Release of the button *)

Lemma moved_json_translate (m : list (list Point)) (shape : Obj) (dx dy : Q) :
  moved_json m shape dx dy = translate (stringify m shape) dx dy.
Proof. unfold moved_json. destruct shape; simpl; try done. by rewrite deref_arr_new. Qed.

Lemma getMovedShape_grows (m : list (list Point)) (shape : Obj) (dx dy : Q) :
  exists k, (getMovedShape m shape dx dy).2 = m ++ k.
Proof. destruct shape; simpl; eauto using app_nil_r. Qed.

(** The release, whatever the tool: [mouseUpHandler] applies the rule of the
    tool that is selected when the button is released. *)
Lemma mouseUp_release_rule (g : Game) (x y : Q) :
  wf g = true -> clicked g = true ->
  shapes_json (mouseUpHandler hypot g x y)
  = (release_rule hypot (selectedTool g) g (screenToCanvas g x y)).1
  /\ sent (mouseUpHandler hypot g x y)
     = sent g ++ map (fun p => chat p (roomId g))
                     (release_rule hypot (selectedTool g) g (screenToCanvas g x y)).2.
Proof.
  intros Hwf Hc. unfold mouseUpHandler, release_rule. rewrite Hc. simpl.
  assert (Hnil : forall l : list Envelope, l = l ++ []) by (intros; by rewrite app_nil_r).
  destruct (selectedTool g); simpl.
  - match goal with |- context [if ?b then _ else _] => destruct b end; simpl; [|auto].
    by apply (commit_spec (set_clicked g false)).
  - match goal with |- context [if ?b then _ else _] => destruct b end; simpl; [|auto].
    by apply (commit_spec (set_clicked g false)).
  - match goal with |- context [if ?b then _ else _] => destruct b end; simpl; [|auto].
    by apply (commit_spec (set_clicked g false)).
  - auto.
  - destruct (activeShape g) as [a|] eqn:Ea; [|auto].
    unfold json_at, deref. simpl.
    destruct (deref_in (objs g) a) as [| | |shape ox oy| |] eqn:Ed; simpl; auto.
    pose proof (moved_json_translate (arrs g) shape ox oy) as Hmj. unfold moved_json in Hmj.
    destruct (getMovedShape_grows (arrs g) shape ox oy) as [k Hk].
    destruct (getMovedShape (arrs g) shape ox oy) as [finalShape m]. simpl in *. subst m.
    unfold wf in Hwf. apply wf_mem_iff in Hwf. destruct Hwf as (Ho & Hs & _).
    assert (Hview : shapes_json
              (push_new
                 (set_existingShapes (set_arrs (set_clicked g false) (arrs g ++ k))
                    (List.filter (fun l => negb (is_move (deref_in (objs g) l)))
                       (existingShapes g))) finalShape)
            = List.filter (fun s => negb (is_move s)) (shapes_json g)
              ++ [translate (stringify (arrs g) shape) ox oy]).
    { unfold shapes_json, push_new, deref. simpl. rewrite map_app. simpl.
      rewrite deref_in_new, Hmj. f_equal.
      rewrite filter_map_comm.
      rewrite (filter_ext_eq (fun l => negb (is_move (stringify (arrs g) (deref_in (objs g) l))))
                 (fun l => negb (is_move (deref_in (objs g) l))))
        by (intros l; by rewrite is_move_stringify).
      apply (map_json_in_grow (objs g) (arrs g) [finalShape] k); [done|].
      by apply forallb_filter. }
    unfold deref in Hview. simpl in Hview. by rewrite Hview.
Qed.

Lemma eraseShape_sent (g : Game) (x y : Q) :
  sent (eraseShape hypot g x y)
  = sent g ++ (if Nat.eqb (length (shapes_json g)) (length (shapes_json (eraseShape hypot g x y)))
               then []
               else [chat (UpdateMsg (shapes_json (eraseShape hypot g x y)) None) (roomId g)]).
Proof.
  unfold eraseShape. simpl. unfold shapes_json at 1 2. rewrite length_map.
  destruct (Nat.eqb_spec (length (existingShapes g))
              (length (List.filter (erase_keeps hypot g x y (10 / scale g)%Q) (existingShapes g))))
    as [E|E]; simpl; unfold shapes_json; simpl; rewrite length_map.
  - rewrite <- E, Nat.eqb_refl. by rewrite app_nil_r.
  - by destruct (Nat.eqb_spec (length (existingShapes g))
                   (length (List.filter (erase_keeps hypot g x y (10 / scale g)%Q)
                              (existingShapes g)))).
Qed.

Lemma mouseMove_drag_rule (g : Game) (x y : Q) :
  wf g = true -> clicked g = true -> isPanning g = false ->
  drag_rule hypot (selectedTool g) g (mouseMoveHandler hypot g x y) (screenToCanvas g x y).
Proof.
  intros Hwf Hc Hp. unfold mouseMoveHandler, drag_rule. rewrite Hc, Hp. simpl.
  rewrite Hc. simpl.
  unfold wf in Hwf. apply wf_mem_iff in Hwf. destruct Hwf as (_ & _ & Hst & _).
  destruct (selectedTool g); simpl; auto.
  - repeat split. unfold deref_arr. by rewrite list_lookup_insert_eq.
  - split; [exact (eraseShape_shapes (set_currentMouse g _ _) _ _)|].
    exact (eraseShape_sent (set_currentMouse g _ _) _ _).
  - destruct (activeShape g) as [a|] eqn:Ea; [|auto].
    unfold json_at, deref. simpl.
    destruct (deref_in (objs g) a) as [| | |shape ox oy| |] eqn:Ed; simpl; auto.
    split; [|done]. unfold shapes_json, deref. simpl. apply map_ext. intros l.
    destruct (Nat.eqb_spec l a) as [->|Hne].
    + rewrite deref_in_insert; [done|]. apply deref_in_move_lt. by rewrite Ed.
    + by rewrite deref_in_insert_ne.
Qed.


End Views.

(** * The claims on concrete states *)

Lemma inbound_update_witness :
  wf dragging = true
  /\ activeShape dragging = Some 1
  /\ json_at dragging 1 = Move (Rect 0 0 10 10 "red" 2) 2 3
  /\ exists g',
       onmessage dragging
         (Chat (UpdateMsg incoming (Some true)))
       = Returned g'
       /\ shapes_json g'
          = map (fun s => if is_move s then json_at dragging 1 else s)
                incoming
       /\ (forall i s,
             incoming !! i = Some s ->
             is_move s = true -> existingShapes g' !! i = Some 1)
       /\ activeShape g' = Some 1.
Proof.
  assert (Hwf : wf dragging = true) by (vm_compute; reflexivity).
  assert (Ha : activeShape dragging = Some 1) by (vm_compute; reflexivity).
  split; [exact Hwf|]. split; [exact Ha|]. split; [vm_compute; reflexivity|].
  exact (proj1 (inbound_update_keeps_local_wrapper dragging
                  incoming) 1 Hwf Ha).
Defined.


(** C7 as stated fails: a stroke of one point that arrives in a chat message
    is put in the store. *)
Lemma short_stroke_counterexample :
  ~ exists hypot, forall g es,
      good_store g = true -> good_store (run hypot g es) = true.
Proof.
  intros [h H].
  specialize (H (newGame "room")
                [Message (Chat (ShapeMsg (Pencil [mkPoint 0 0] "black" 2)))] eq_refl).
  vm_compute in H. discriminate.
Qed.

Lemma strokes_keep_two_points_witness :
  good_memory (newGame "room") = true
  /\ forallb good_event session = true
  /\ good_store (run hypot_approx (newGame "room") session) = true.
Proof.
  split; [reflexivity|]. split; [reflexivity|].
  exact (strokes_keep_two_points hypot_approx (newGame "room") session eq_refl eq_refl).
Defined.

Lemma eraser_witness :
  (existsb (hitTest hypot_approx 20 20 (scale one_circle)) (shapes_json one_circle) = false
   /\ eraseShape hypot_approx one_circle 20 20 = one_circle)
  /\ (existsb (hitTest hypot_approx 6 6 (scale one_circle)) (shapes_json one_circle) = true
      /\ shapes_json (eraseShape hypot_approx one_circle 6 6) = []
      /\ sent (eraseShape hypot_approx one_circle 6 6)
         = sent one_circle
           ++ [chat (UpdateMsg (shapes_json (eraseShape hypot_approx one_circle 6 6)) None)
                    (roomId one_circle)]).
Proof.
  assert (H1 : existsb (hitTest hypot_approx 20 20 (scale one_circle)) (shapes_json one_circle)
               = false) by (vm_compute; reflexivity).
  assert (H2 : existsb (hitTest hypot_approx 6 6 (scale one_circle)) (shapes_json one_circle)
               = true) by (vm_compute; reflexivity).
  split.
  - split; [exact H1|].
    exact (proj1 (eraser_sends_on_removal_only hypot_approx one_circle 20 20) H1).
  - split; [exact H2|]. split; [vm_compute; reflexivity|].
    exact (proj2 (proj2 (proj2 (eraser_sends_on_removal_only hypot_approx one_circle 6 6) H2))).
Defined.



(** C10 as stated fails: after an update from a peer has brought two
    wrappers, the commit of a rectangle, a local mutation, leaves two
    wrappers in the store. *)
Lemma two_wrappers_counterexample :
  ~ exists hypot, forall es e,
      local_event e = true -> moves (run hypot (newGame "room") (es ++ [e])) <= 1.
Proof.
  intros [h H]. specialize (H two_wrappers_arrive (MouseUp 110 110) eq_refl).
  vm_compute in H. lia.
Qed.

Lemma one_wrapper_witness :
  wf abandoned_drag = true
  /\ shapes_json abandoned_drag
     = [Rect 0 0 10 10 "red" 2; Move (Circle 50 50 5 "green" 2) 3 3]
  /\ shapes_json (mouseDownHandler hypot_approx abandoned_drag 5 5)
     = [Move (Rect 0 0 10 10 "red" 2) 0 0]
  /\ moves (mouseDownHandler hypot_approx abandoned_drag 5 5) = 1
  /\ (forall es,
        ~ In 2 (existingShapes (run hypot_approx (mouseDownHandler hypot_approx abandoned_drag 5 5)
                                   es))).
Proof.
  assert (Hwf : wf abandoned_drag = true) by (vm_compute; reflexivity).
  assert (Hf : find (fun l => hitTest hypot_approx
                                (point_x (screenToCanvas abandoned_drag 5 5))
                                (point_y (screenToCanvas abandoned_drag 5 5))
                                (scale abandoned_drag) (json_at abandoned_drag l))
                    (rev (existingShapes abandoned_drag)) = Some 1)
    by (vm_compute; reflexivity).
  destruct (proj1 (one_wrapper_at_most hypot_approx abandoned_drag Hwf) 5%Q 5%Q 1
              eq_refl eq_refl Hf)
    as (_ & Hview & Hm & _ & Hgone).
  split; [exact Hwf|]. split; [vm_compute; reflexivity|].
  split; [rewrite Hview; vm_compute; reflexivity|]. split; [exact Hm|].
  intros es. apply Hgone; [vm_compute; auto|vm_compute; reflexivity].
Defined.

(** * Further properties of the viewport *)

Local Open Scope Q_scope.

(** The other round trip, of the scene coordinate [P] at scale [S] and
    offset [O]: [M] is the rounded product, [R] the rounded sum, [D] the
    rounded difference and [C] the rounded quotient. *)
Lemma scene_trip_error (P S O M R D C : Q) :
  ~ S == 0 ->
  Qabs (M - P * S) <= unit_roundoff * Qabs (P * S) ->
  Qabs (R - (M + O)) <= unit_roundoff * Qabs (M + O) ->
  Qabs (D - (R - O)) <= unit_roundoff * Qabs (R - O) ->
  Qabs (C - D / S) <= unit_roundoff * Qabs (D / S) ->
  Qabs (C - P) <= 5 * unit_roundoff * (Qabs P + Qabs O / Qabs S).
Proof.
  intros HS H1 H2 H3 H4. apply div_to_mul in H4; [|exact HS].
  assert (HA : 0 < Qabs S).
  { destruct (Qabs_cases S) as [[H E]|[H E]]; rewrite E; lra. }
  assert (B : Qabs (C * S - P * S) <= 5 * unit_roundoff * (Qabs (P * S) + Qabs O)).
  { revert H1 H2 H3 H4. generalize (C * S) (P * S). intros CS PS H1 H2 H3 H4.
    unfold unit_roundoff in *.
    apply Qabs_bound in H1, H2, H3, H4. apply Qabs_bound.
    abs_low O.
    abs_split PS; abs_split (M + O); abs_split (R - O); abs_split D; lra. }
  apply (Qmult_le_r _ _ (Qabs S)); [exact HA|].
  assert (E1 : Qabs (C - P) * Qabs S == Qabs (C * S - P * S)).
  { rewrite <- Qabs_Qmult. apply Qabs_wd. ring. }
  assert (E2 : 5 * unit_roundoff * (Qabs P + Qabs O / Qabs S) * Qabs S
               == 5 * unit_roundoff * (Qabs (P * S) + Qabs O)).
  { rewrite Qabs_Qmult. field. lra. }
  by rewrite E1, E2.
Qed.

Lemma scene_trip_within (s o p : float) :
  scene_trip_rounds s o p = true ->
  within (5 * unit_roundoff * (Qabs (Q_of p) + Qabs (Q_of o) / Qabs (Q_of s)))
         ((p * s + o - o) / s)%float (Q_of p).
Proof.
  unfold scene_trip_rounds, sub_rounds, div_rounds, mul_rounds, add_rounds.
  rewrite !andb_true_iff. intros [[[H1 H2] H3] [H4 HS]].
  apply rounds_spec in H1, H2, H3, H4.
  destruct H1 as (P & S & M & HP & HSv & HM & E1).
  destruct H2 as (M' & O & R & HM' & HO & HR & E2).
  destruct H3 as (R' & O' & D & HR' & HO' & HD & E3).
  destruct H4 as (D' & S' & C & HD' & HS' & HC & E4).
  assert (M' = M) as -> by congruence. assert (R' = R) as -> by congruence.
  assert (O' = O) as -> by congruence. assert (D' = D) as -> by congruence.
  assert (S' = S) as -> by congruence.
  apply negb_true_iff, Qeq_bool_neq in HS. unfold Q_of in HS. rewrite HSv in HS. simpl in HS.
  exists C. split; [exact HC|]. unfold Q_of. rewrite HP, HO, HSv. simpl.
  by apply (scene_trip_error P S O M R D C).
Qed.

(** The other round trip, within tolerance.  For every viewport and every
    scene point [(x, y)] for which each of the four operations of the round
    trip, on either axis, rounds with a relative error of [2^-53] at most,
    [canvasToScreen] followed by [screenToCanvas] gives a finite point
    within [5 * 2^-53 * (|x| + |offsetX| / |scale|)] of [x] and within
    [5 * 2^-53 * (|y| + |offsetY| / |scale|)] of [y]. *)
Theorem scene_round_trip (v : B64.Viewport) (x y : float) :
  scene_trip_rounds (B64.scale v) (B64.offsetX v) x = true ->
  scene_trip_rounds (B64.scale v) (B64.offsetY v) y = true ->
  let p := B64.canvasToScreen v x y in
  let q := B64.screenToCanvas v p.1 p.2 in
  within (5 * unit_roundoff
          * (Qabs (Q_of x) + Qabs (Q_of (B64.offsetX v)) / Qabs (Q_of (B64.scale v))))
         q.1 (Q_of x)
  /\ within (5 * unit_roundoff
             * (Qabs (Q_of y) + Qabs (Q_of (B64.offsetY v)) / Qabs (Q_of (B64.scale v))))
            q.2 (Q_of y).
Proof.
  intros Hx Hy. split; [by apply scene_trip_within in Hx|by apply scene_trip_within in Hy].
Qed.

Lemma scene_round_trip_witness :
  scene_trip_rounds (B64.scale zoomed_once) (B64.offsetX zoomed_once) 7 = true
  /\ scene_trip_rounds (B64.scale zoomed_once) (B64.offsetY zoomed_once) 9 = true
  /\ let p := B64.canvasToScreen zoomed_once 7 9 in
     let q := B64.screenToCanvas zoomed_once p.1 p.2 in
     within (5 * unit_roundoff
             * (Qabs (Q_of 7) + Qabs (Q_of (B64.offsetX zoomed_once))
                                / Qabs (Q_of (B64.scale zoomed_once))))
            q.1 (Q_of 7)
     /\ within (5 * unit_roundoff
                * (Qabs (Q_of 9) + Qabs (Q_of (B64.offsetY zoomed_once))
                                   / Qabs (Q_of (B64.scale zoomed_once))))
               q.2 (Q_of 9).
Proof.
  split; [vm_compute; reflexivity|]. split; [vm_compute; reflexivity|].
  exact (scene_round_trip zoomed_once 7 9 eq_refl eq_refl).
Defined.

Lemma clamp_in_bounds (a : Q) :
  minScale <= Qmin (Qmax a minScale) maxScale /\ Qmin (Qmax a minScale) maxScale <= maxScale.
Proof.
  split.
  - apply Q.min_glb; [apply Q.le_max_r|discriminate].
  - apply Q.le_min_r.
Qed.

Lemma scale_in_bounds_iff (g : Game) :
  scale_in_bounds g = true <-> minScale <= scale g /\ scale g <= maxScale.
Proof. unfold scale_in_bounds, Qleb. by rewrite andb_true_iff, !Qle_bool_iff. Qed.

Lemma zoom_in_bounds (g : Game) (deltaY cx cy : Q) :
  scale_in_bounds g = true -> scale_in_bounds (zoom g deltaY cx cy) = true.
Proof.
  intros H. unfold zoom. destruct (negb _); [|exact H].
  apply scale_in_bounds_iff. simpl. apply clamp_in_bounds.
Qed.

Local Close Scope Q_scope.

(** * Fields that a handler leaves alone *)

(** Case analysis on everything a handler tests, until the two sides are
    the same term. *)
Ltac frame :=
  repeat first
    [ reflexivity
    | progress simpl
    | match goal with
      | |- context [match ?x with _ => _ end] => destruct x eqn:?
      end ].

Section Frames.

Variable hypot : Q -> Q -> Q.

(** Only the wheel, with the control key, changes the scale. *)
Lemma scale_step (g : Game) (e : Event) :
  (forall x y dx dy, e <> Wheel x y dx dy true) ->
  scale (step hypot g e) = scale g.
Proof.
  intros He. destruct e; simpl; rewrite ?mouseDownHandler_eq;
    unfold mouseUpHandler, mouseMoveHandler, wheelHandler, keyDownHandler,
      keyUpHandler, eraseShape, commit, push_new, pan, init_resolved, onmessage; try (frame; fail).
  destruct ctrlOrMeta; [|reflexivity]. by destruct (He x y deltaX deltaY).
Qed.

Lemma scale_in_bounds_step (g : Game) (e : Event) :
  scale_in_bounds g = true -> scale_in_bounds (step hypot g e) = true.
Proof.
  intros H. destruct e; try (unfold scale_in_bounds; rewrite scale_step; [exact H|done]).
  simpl. unfold wheelHandler. destruct ctrlOrMeta; [by apply zoom_in_bounds|exact H].
Qed.

(** The scale never leaves the bounds: from a state whose scale lies
    between [minScale] and [maxScale], as that of a new [Game] does, every
    sequence of events leads to a state whose scale does. *)
Theorem scale_stays_in_bounds (g : Game) (es : list Event) :
  scale_in_bounds g = true -> scale_in_bounds (run hypot g es) = true.
Proof.
  revert g. induction es as [|e es IH]; intros g H; [exact H|].
  simpl. apply IH. by apply scale_in_bounds_step.
Qed.

End Frames.

Lemma scale_stays_in_bounds_witness :
  scale_in_bounds (newGame "room") = true
  /\ scale_in_bounds (run hypot_approx (newGame "room") zooming) = true.
Proof.
  split; [reflexivity|].
  exact (scale_stays_in_bounds hypot_approx (newGame "room") zooming eq_refl).
Defined.

(** * Zooming at a bound, panning *)

Local Open Scope Q_scope.

(** At [maxScale] a zoom in, and at [minScale] a zoom out, leave the
    state as it was: the clamped scale is the old one, so neither the scale
    nor the offset is written. *)
Theorem zoom_at_bound (g : Game) (deltaY cx cy : Q) :
  (scale g == maxScale -> Qgtb deltaY 0 = false -> zoom g deltaY cx cy = g)
  /\ (scale g == minScale -> Qgtb deltaY 0 = true -> zoom g deltaY cx cy = g).
Proof.
  unfold zoom, minScale, maxScale. split; intros Hs Hd; rewrite Hd.
  - assert (E : Qmin (Qmax (scale g * (11 # 10)) (1 # 10)) 5 == scale g).
    { rewrite Hs. reflexivity. }
    apply Qeq_bool_iff in E. by rewrite E.
  - assert (E : Qmin (Qmax (scale g * (9 # 10)) (1 # 10)) 5 == scale g).
    { rewrite Hs. reflexivity. }
    apply Qeq_bool_iff in E. by rewrite E.
Qed.

Lemma zoom_at_bound_witness :
  zoom (set_scale (newGame "room") 5) (-100) 10 10 = set_scale (newGame "room") 5
  /\ zoom (set_scale (newGame "room") (1 # 10)) 100 10 10 = set_scale (newGame "room") (1 # 10).
Proof.
  split.
  - apply (proj1 (zoom_at_bound (set_scale (newGame "room") 5) (-100) 10 10)); reflexivity.
  - apply (proj2 (zoom_at_bound (set_scale (newGame "room") (1 # 10)) 100 10 10)); reflexivity.
Defined.

Local Close Scope Q_scope.

Section Panning.

Variable hypot : Q -> Q -> Q.

Local Open Scope Q_scope.

Lemma last_cons {A} (x d : A) (l : list A) : List.last (x :: l) d = List.last l x.
Proof.
  revert x d. induction l as [|y l IH]; intros x d; [done|].
  change (List.last (y :: l) d = List.last (y :: l) x). by rewrite !IH.
Qed.

(** One move of a pan drag. *)
Lemma pan_move (g : Game) (x y : Q) :
  clicked g = true -> isPanning g = true ->
  mouseMoveHandler hypot g x y
  = set_lastPan (set_offset g (offsetX g + (x - lastPanX g)) (offsetY g + (y - lastPanY g))) x y.
Proof. intros Hc Hp. unfold mouseMoveHandler. by rewrite Hc, Hp. Qed.

Lemma pan_run (g : Game) (pts : list (Q * Q)) :
  clicked g = true -> isPanning g = true ->
  let g' := run hypot g (pointer_moves pts) in
  offsetX g' = fold_left Qplus (displacements (lastPanX g) (map fst pts)) (offsetX g)
  /\ offsetY g' = fold_left Qplus (displacements (lastPanY g) (map snd pts)) (offsetY g)
  /\ (lastPanX g', lastPanY g') = List.last pts (lastPanX g, lastPanY g)
  /\ scale g' = scale g /\ shapes_json g' = shapes_json g /\ sent g' = sent g.
Proof.
  revert g. induction pts as [|[x y] pts IH]; intros g Hc Hp; cbv zeta.
  - simpl. repeat split; reflexivity.
  - change (run hypot g (pointer_moves ((x, y) :: pts)))
      with (run hypot (mouseMoveHandler hypot g x y) (pointer_moves pts)).
    rewrite last_cons, (pan_move g x y Hc Hp).
    destruct (IH (set_lastPan (set_offset g (offsetX g + (x - lastPanX g))
                                 (offsetY g + (y - lastPanY g))) x y) Hc Hp)
      as (Hx & Hy & Hl & Hs & Hj & Hm).
    rewrite Hx, Hy, Hl, Hs, Hj, Hm. repeat split; reflexivity.
Qed.


End Panning.


(** * Commits *)

Section Commits.

Variable hypot : Q -> Q -> Q.

Local Open Scope Q_scope.


End Commits.


(** * Shapes that arrive *)

(** The store after a shape message. *)
Lemma onmessage_shape (h : Game) (s : Shape) :
  wf h = true ->
  shapes_json (state_of (onmessage h (Chat (ShapeMsg s)))) = shapes_json h ++ [s].
Proof.
  intros Hwf. simpl. destruct (parse_spec s (arrs h)) as (k & Hk & Hwfo & Hs).
  destruct (parse s (arrs h)) as [o m]. simpl in *. subst m.
  pose proof Hwf as Hg. unfold wf in Hg. apply wf_mem_iff in Hg. destruct Hg as (Ho & Hl & _).
  rewrite push_new_shapes.
  - simpl. rewrite Hs. f_equal.
    pose proof (map_json_in_grow (objs h) (arrs h) [] k (existingShapes h) Ho Hl) as E.
    rewrite app_nil_r in E. exact E.
  - unfold wf in *. simpl. rewrite <- (app_nil_r (objs h)). by apply wf_mem_grow.
Qed.

(** A shape that arrives in a chat message is appended to the store as it
    was sent, whatever it is; nothing is sent back, the active wrapper is
    untouched and the state stays well formed. *)
Theorem inbound_shape_is_appended (g : Game) (s : Shape) :
  wf g = true ->
  exists g', onmessage g (Chat (ShapeMsg s)) = Returned g'
             /\ shapes_json g' = shapes_json g ++ [s]
             /\ sent g' = sent g
             /\ activeShape g' = activeShape g
             /\ wf g' = true.
Proof.
  intros Hwf. pose proof (wf_onmessage g (Chat (ShapeMsg s)) Hwf) as Hwf'.
  pose proof (onmessage_shape g s Hwf) as Hs. simpl in *.
  destruct (parse s (arrs g)) as [o m]. eexists. split; [reflexivity|]. by repeat split.
Qed.

Lemma inbound_shape_is_appended_witness :
  wf dragging = true
  /\ exists g', onmessage dragging (Chat (ShapeMsg (Pencil [mkPoint 1 2; mkPoint 3 4] "blue" 3)))
                = Returned g'
                /\ shapes_json g'
                   = shapes_json dragging ++ [Pencil [mkPoint 1 2; mkPoint 3 4] "blue" 3]
                /\ sent g' = sent dragging
                /\ activeShape g' = activeShape dragging
                /\ wf g' = true.
Proof.
  split; [vm_compute; reflexivity|].
  apply (inbound_shape_is_appended dragging (Pencil [mkPoint 1 2; mkPoint 3 4] "blue" 3)).
  vm_compute. reflexivity.
Defined.

(** When the initial fetch resolves, the store becomes exactly the fetched
    list, whatever the state was: shapes drawn or received before that are no
    longer in the store.  Nothing is sent and the active wrapper is left as
    it was. *)
Theorem initial_fetch_replaces_store (g : Game) (shapes : list Shape) :
  shapes_json (init_resolved g shapes) = shapes
  /\ sent (init_resolved g shapes) = sent g
  /\ activeShape (init_resolved g shapes) = activeShape g.
Proof.
  unfold init_resolved. pose proof (parse_all_shapes (objs g) (arrs g) shapes) as H.
  destruct (parse_all shapes (objs g) (arrs g)) as [[ls os] m]. by repeat split.
Qed.

(** * More on the eraser *)

Section Eraser.

Variable hypot : Q -> Q -> Q.

Lemma filter_filter_same {A} (p : A -> bool) (l : list A) :
  List.filter p (List.filter p l) = List.filter p l.
Proof.
  apply filter_all. apply forallb_forall. intros x Hx. by apply List.filter_In in Hx as [_ ?].
Qed.

(** A second pass of the eraser at the same point does nothing: it removes
    no shape and sends no message. *)
Theorem eraser_is_idempotent (g : Game) (x y : Q) :
  eraseShape hypot (eraseShape hypot g x y) x y = eraseShape hypot g x y.
Proof.
  assert (H : forall g', objs g' = objs g -> arrs g' = arrs g -> scale g' = scale g ->
                existingShapes g'
                = List.filter (erase_keeps hypot g x y (10 / scale g)%Q) (existingShapes g) ->
                eraseShape hypot g' x y = g').
  { intros g' Ho Ha Hs He. unfold eraseShape. simpl.
    assert (E : List.filter (erase_keeps hypot g' x y (10 / scale g')%Q) (existingShapes g')
                = existingShapes g').
    { rewrite Hs, He.
      rewrite (filter_ext_eq (erase_keeps hypot g' x y (10 / scale g)%Q)
                 (erase_keeps hypot g x y (10 / scale g)%Q));
        [apply filter_filter_same|].
      intros l. unfold erase_keeps, deref. by rewrite Ho, Ha. }
    rewrite E, Nat.eqb_refl. simpl. by destruct g'. }
  apply H; unfold eraseShape; simpl; by destruct (negb _).
Qed.

(** The eraser never removes a move wrapper: the wrappers of the store are
    the same, in the same order, after a pass. *)
Theorem eraser_spares_wrappers (g : Game) (x y : Q) :
  List.filter is_move (shapes_json (eraseShape hypot g x y))
  = List.filter is_move (shapes_json g).
Proof.
  rewrite eraseShape_shapes. induction (shapes_json g) as [|s l IH]; [done|].
  simpl. destruct s; simpl; rewrite ?IH; try done;
    match goal with |- context [negb ?b] => destruct b end; simpl; by rewrite ?IH.
Qed.

End Eraser.

(** * What is sent *)

Section Sending.

Variable hypot : Q -> Q -> Q.

(** A leaf of the case analysis of a handler: nothing sent, or one message. *)
Ltac sent_leaf :=
  simpl;
  first
    [ solve [ exists []; rewrite ?app_nil_r; repeat split; auto; discriminate ]
    | solve [ eexists [_]; split; [reflexivity|];
              split; [simpl; lia|];
              split; [repeat constructor | intros E; simpl in E; discriminate E] ] ].

Ltac sent_cases :=
  repeat match goal with
         | |- context [match ?x with _ => _ end] => destruct x eqn:?
         end;
  sent_leaf.

(** What one event adds to the messages sent. *)
Lemma sent_step (g : Game) (e : Event) :
  exists new,
    sent (step hypot g e) = sent g ++ new
    /\ length new <= 1
    /\ Forall (fun m => env_roomId m = roomId g) new
    /\ (pointer_event e = false -> new = []).
Proof.
  destruct e; simpl; rewrite ?mouseDownHandler_eq;
    unfold mouseUpHandler, mouseMoveHandler, wheelHandler, zoom, pan, keyDownHandler,
      keyUpHandler, eraseShape, commit, push_new, alloc, send, init_resolved, onmessage;
    cbv zeta; sent_cases.
Qed.

Lemma roomId_step (g : Game) (e : Event) : roomId (step hypot g e) = roomId g.
Proof.
  destruct e; simpl; rewrite ?mouseDownHandler_eq;
    unfold mouseUpHandler, mouseMoveHandler, wheelHandler, zoom, pan, keyDownHandler,
      keyUpHandler, eraseShape, commit, push_new, send, init_resolved, onmessage;
    frame.
Qed.

(** The socket is written at most once per event, and only by the handlers
    of the pointer: what was sent before stays, in order, followed by at most
    one new message; an inbound message, the initial fetch, the wheel, the
    keys and the selection of a tool or a style send nothing, so a message
    that arrives is never echoed. *)
Theorem one_message_per_event_at_most (g : Game) (e : Event) :
  exists new,
    sent (step hypot g e) = sent g ++ new
    /\ length new <= 1
    /\ (pointer_event e = false -> new = []).
Proof.
  destruct (sent_step g e) as (new & H1 & H2 & _ & H3). by exists new.
Qed.

Lemma room_run (g : Game) (es : list Event) :
  Forall (fun m => env_roomId m = roomId g) (sent g) ->
  Forall (fun m => env_roomId m = roomId g) (sent (run hypot g es))
  /\ roomId (run hypot g es) = roomId g.
Proof.
  revert g. induction es as [|e es IH]; intros g H; [done|].
  simpl. destruct (sent_step g e) as (new & H1 & _ & H2 & _).
  destruct (IH (step hypot g e)) as [H3 H4].
  - rewrite roomId_step, H1. by apply Forall_app.
  - by rewrite roomId_step in H3, H4.
Qed.

(** Every message that a [Game] ever sends carries the room it was created
    for. *)
Theorem every_message_names_the_room (room : string) (es : list Event) :
  Forall (fun m => env_roomId m = room) (sent (run hypot (newGame room) es)).
Proof. apply (room_run (newGame room) es). constructor. Qed.

End Sending.

(** * Whole gestures *)

Section Gestures.

Variable hypot : Q -> Q -> Q.

Lemma run_app (g : Game) (es es' : list Event) :
  run hypot g (es ++ es') = run hypot (run hypot g es) es'.
Proof. apply fold_left_app. Qed.

(** The moves of a pencil drag: the points go onto the stroke buffer, in
    scene coordinates and in order; besides the buffer only the last
    position of the mouse changes. *)
Lemma pencil_moves (g : Game) (m : list (list Point)) (buf : list Point) (pts : list (Q * Q)) :
  clicked g = true -> isPanning g = false -> selectedTool g = Tpencil ->
  currentPencilStroke g = length m -> arrs g = m ++ [buf] ->
  exists u v,
    run hypot g (pointer_moves pts)
    = set_currentMouse
        (set_arrs g (m ++ [buf ++ map (fun q => screenToCanvas g q.1 q.2) pts])) u v.
Proof.
  revert g buf. induction pts as [|[x y] pts IH]; intros g buf Hc Hp Ht Hs Ha.
  - exists (currentMouseX g), (currentMouseY g). simpl. rewrite app_nil_r, <- Ha. by destruct g.
  - change (run hypot g (pointer_moves ((x, y) :: pts)))
      with (run hypot (mouseMoveHandler hypot g x y) (pointer_moves pts)).
    assert (E : mouseMoveHandler hypot g x y
                = set_arrs (set_currentMouse g (point_x (screenToCanvas g x y))
                                             (point_y (screenToCanvas g x y)))
                           (m ++ [buf ++ [screenToCanvas g x y]])).
    { unfold mouseMoveHandler. rewrite Hc, Hp. simpl. rewrite Hc, Ht, Hs, Ha. simpl.
      f_equal. rewrite deref_arr_new.
      rewrite (insert_app_r_alt m [buf] (length m)) by lia.
      by rewrite Nat.sub_diag. }
    rewrite E.
    destruct (IH (set_arrs (set_currentMouse g (point_x (screenToCanvas g x y))
                                             (point_y (screenToCanvas g x y)))
                           (m ++ [buf ++ [screenToCanvas g x y]]))
                 (buf ++ [screenToCanvas g x y]) Hc Hp Ht Hs eq_refl) as (u & v & Hr).
    exists u, v. rewrite Hr. simpl. rewrite <- app_assoc. reflexivity.
Qed.

(** A whole pencil gesture, from a press to the release, outside panning.
    With no move in between, a click, nothing is stored and nothing is sent.
    Otherwise one stroke is appended to the store and sent once, on release:
    its points are the press point followed by the points of the moves,
    converted to scene coordinates, and the point of the release is not
    among them; its colour and line width are the current ones. *)
Theorem pencil_gesture (g : Game) (x0 y0 x1 y1 : Q) (pts : list (Q * Q)) :
  wf g = true -> isPanning g = false -> selectedTool g = Tpencil ->
  let g' := run hypot g (MouseDown x0 y0 :: pointer_moves pts ++ [MouseUp x1 y1]) in
  let stroke := Pencil (map (fun q => screenToCanvas g q.1 q.2) ((x0, y0) :: pts))
                       (currentColor g) (currentLineWidth g) in
  shapes_json g' = shapes_json g ++ match pts with [] => [] | _ => [stroke] end
  /\ sent g' = sent g ++ match pts with [] => [] | _ => [chat (ShapeMsg stroke) (roomId g)] end
  /\ clicked g' = false.
Proof.
  intros Hwf Hp Ht. cbv zeta.
  change (run hypot g (MouseDown x0 y0 :: pointer_moves pts ++ [MouseUp x1 y1]))
    with (run hypot (mouseDownHandler hypot g x0 y0) (pointer_moves pts ++ [MouseUp x1 y1])).
  rewrite run_app.
  pose proof (wf_run hypot _ (pointer_moves pts) (wf_mouseDownHandler hypot g x0 y0 Hwf)) as Hwf'.
  revert Hwf'. rewrite mouseDownHandler_eq, Hp, Ht. cbv zeta.
  set (p0 := screenToCanvas g x0 y0).
  set (g1 := set_currentPencilStroke _ _).
  destruct (pencil_moves g1 (arrs g) [mkPoint (point_x p0) (point_y p0)] pts
              eq_refl Hp Ht eq_refl eq_refl) as (u & v & Hr).
  rewrite Hr. clear Hr.
  set (buf := [_] ++ map _ pts). set (G := set_currentMouse _ u v). intros HwfG.
  change (run hypot G [MouseUp x1 y1]) with (mouseUpHandler hypot G x1 y1).
  destruct (mouseUp_release_rule hypot G x1 y1 HwfG eq_refl) as [Hs Hm].
  assert (Hstore : shapes_json G = shapes_json g).
  { unfold wf in Hwf. apply wf_mem_iff in Hwf. destruct Hwf as (Ho & Hl & _).
    pose proof (map_json_in_grow (objs g) (arrs g) [] [buf] (existingShapes g) Ho Hl) as E.
    rewrite app_nil_r in E. exact E. }
  assert (Hbuf : deref_arr (arrs G) (currentPencilStroke G)
                 = p0 :: map (fun q => screenToCanvas g q.1 q.2) pts).
  { subst G g1 buf. simpl. rewrite deref_arr_new. reflexivity. }
  split; [|split].
  - rewrite Hs. change (selectedTool G) with (selectedTool g). rewrite Ht.
    unfold release_rule. rewrite Hbuf, Hstore.
    destruct pts; simpl; [by rewrite app_nil_r|reflexivity].
  - rewrite Hm. change (selectedTool G) with (selectedTool g). rewrite Ht.
    unfold release_rule. rewrite Hbuf. destruct pts; reflexivity.
  - unfold mouseUpHandler. simpl. rewrite Ht.
    match goal with |- context [if ?b then _ else _] => destruct b end; reflexivity.
Qed.

(** The moves of a drag with the move tool: each one writes the offset of
    the pointer from the press point into the active wrapper and sends the
    store with [isMoving] true. *)
Lemma move_moves (g : Game) (os : list Obj) (shape : Obj) (ox oy : Q) (pts : list (Q * Q)) :
  clicked g = true -> isPanning g = false -> selectedTool g = Tmove ->
  activeShape g = Some (length os) -> objs g = os ++ [Move shape ox oy] ->
  let d := List.last (map (fun q => ((point_x (screenToCanvas g q.1 q.2) - startX g)%Q,
                                     (point_y (screenToCanvas g q.1 q.2) - startY g)%Q)) pts)
                     (ox, oy) in
  exists u v msgs,
    run hypot g (pointer_moves pts)
    = set_sent (set_currentMouse (set_objs g (os ++ [Move shape d.1 d.2])) u v)
               (sent g ++ msgs)
    /\ length msgs = length pts
    /\ forallb is_moving_update msgs = true.
Proof.
  revert g ox oy. induction pts as [|[x y] pts IH]; intros g ox oy Hc Hp Ht Ha Ho; cbv zeta.
  - exists (currentMouseX g), (currentMouseY g), []. simpl.
    rewrite app_nil_r, <- Ho. split; [by destruct g|done].
  - change (run hypot g (pointer_moves ((x, y) :: pts)))
      with (run hypot (mouseMoveHandler hypot g x y) (pointer_moves pts)).
    set (p := screenToCanvas g x y).
    set (dx := (point_x p - startX g)%Q). set (dy := (point_y p - startY g)%Q).
    set (g1 := set_objs (set_currentMouse g (point_x p) (point_y p))
                        (os ++ [Move shape dx dy])).
    assert (E : mouseMoveHandler hypot g x y
                = send g1 (UpdateMsg (shapes_json g1) (Some true))).
    { unfold mouseMoveHandler. rewrite Hc, Hp. simpl. rewrite Hc, Ht, Ha. simpl.
      unfold deref. simpl. rewrite Ho, deref_in_new.
      rewrite (insert_app_r_alt os [Move shape ox oy] (length os)) by lia.
      by rewrite Nat.sub_diag. }
    rewrite E.
    destruct (IH (send g1 (UpdateMsg (shapes_json g1) (Some true))) dx dy Hc Hp Ht Ha eq_refl)
      as (u & v & msgs & Hr & Hlen & Hall).
    exists u, v, (chat (UpdateMsg (shapes_json g1) (Some true)) (roomId g) :: msgs).
    rewrite Hr. split; [|split; [simpl; by rewrite Hlen|exact Hall]].
    cbn [map]. rewrite last_cons. simpl. rewrite <- app_assoc. reflexivity.
Qed.

(** A whole gesture of the move tool, outside panning, whose press falls on
    a shape: [l] is the last shape of the store that the press point hits,
    the topmost one.  After the release the store holds the other shapes
    that are not wrappers, in their order, followed by the shape translated
    by the offset of the last move from the press point, or left where it
    was when the pointer did not move: the point of the release plays no
    part, and the shape ends on top of the others.  One update is sent at the
    press and one at each move, with [isMoving] true, then one at the
    release with [isMoving] false and the final store; no wrapper is active
    afterwards. *)
Theorem move_gesture (g : Game) (x0 y0 x1 y1 : Q) (pts : list (Q * Q)) (l : loc) :
  wf g = true -> isPanning g = false -> selectedTool g = Tmove ->
  let p0 := screenToCanvas g x0 y0 in
  find (fun s => hitTest hypot (point_x p0) (point_y p0) (scale g) (json_at g s))
       (rev (existingShapes g)) = Some l ->
  let g' := run hypot g (MouseDown x0 y0 :: pointer_moves pts ++ [MouseUp x1 y1]) in
  let d := List.last (map (fun q => ((point_x (screenToCanvas g q.1 q.2) - point_x p0)%Q,
                                     (point_y (screenToCanvas g q.1 q.2) - point_y p0)%Q)) pts)
                     (0%Q, 0%Q) in
  let others := List.filter (fun s => negb (Nat.eqb s l) && negb (is_move (deref g s)))
                            (existingShapes g) in
  shapes_json g' = map (json_at g) others ++ [translate (json_at g l) d.1 d.2]
  /\ (exists msgs,
         sent g' = sent g ++ msgs ++ [chat (UpdateMsg (shapes_json g') (Some false)) (roomId g)]
         /\ length msgs = S (length pts)
         /\ forallb is_moving_update msgs = true)
  /\ activeShape g' = None
  /\ clicked g' = false.
Proof.
  intros Hwf Hp Ht p0 Hf. cbv zeta.
  change (run hypot g (MouseDown x0 y0 :: pointer_moves pts ++ [MouseUp x1 y1]))
    with (run hypot (mouseDownHandler hypot g x0 y0) (pointer_moves pts ++ [MouseUp x1 y1])).
  rewrite run_app.
  pose proof (wf_run hypot _ (pointer_moves pts) (wf_mouseDownHandler hypot g x0 y0 Hwf)) as Hwf'.
  revert Hwf'. rewrite mouseDownHandler_eq, Hp, Ht. cbv zeta. fold p0.
  erewrite find_ext_eq; [rewrite Hf|intros s; by rewrite hit_at_start_hitTest].
  set (others := List.filter _ (existingShapes g)).
  set (g2 := set_activeShape _ _). set (P := send g2 _).
  destruct (move_moves P (objs g) (deref g l) 0 0 pts eq_refl Hp Ht eq_refl eq_refl)
    as (u & v & msgs & Hr & Hlen & Hall).
  rewrite Hr. clear Hr.
  change (startX P) with (point_x p0) in *. change (startY P) with (point_y p0) in *.
  change (fun q : Q * Q => ((point_x (screenToCanvas P q.1 q.2) - point_x p0)%Q,
                            (point_y (screenToCanvas P q.1 q.2) - point_y p0)%Q))
    with (fun q : Q * Q => ((point_x (screenToCanvas g q.1 q.2) - point_x p0)%Q,
                            (point_y (screenToCanvas g q.1 q.2) - point_y p0)%Q)) in *.
  set (d := List.last _ (0%Q, 0%Q)).
  set (G := set_sent _ _). intros HwfG.
  change (run hypot G [MouseUp x1 y1]) with (mouseUpHandler hypot G x1 y1).
  destruct (mouseUp_release_rule hypot G x1 y1 HwfG eq_refl) as [Hs Hm].
  change (selectedTool G) with (selectedTool g) in Hs, Hm. rewrite Ht in Hs, Hm.
  unfold release_rule in Hs, Hm.
  change (activeShape G) with (Some (length (objs g))) in Hs, Hm.
  assert (Hw : json_at G (length (objs g)) = Move (json_at g l) d.1 d.2).
  { unfold json_at, deref. subst G. simpl. by rewrite deref_in_new. }
  cbv iota beta in Hs, Hm. rewrite Hw in Hs, Hm. cbv zeta in Hs, Hm.
  unfold wf in Hwf. apply wf_mem_iff in Hwf. destruct Hwf as (Ho & Hl & _).
  assert (Hstore : List.filter (fun s => negb (is_move s)) (shapes_json G)
                   = map (json_at g) others).
  { unfold shapes_json, deref. subst G. simpl. rewrite map_app. simpl.
    rewrite deref_in_new. simpl. rewrite List.filter_app. simpl. rewrite app_nil_r.
    pose proof (map_json_in_grow (objs g) (arrs g) [Move (deref g l) d.1 d.2] []
                  others Ho (forallb_filter _ _ _ Hl)) as E.
    rewrite app_nil_r in E. unfold json_in in E. rewrite E.
    apply filter_all. rewrite forallb_forall. intros s Hs'.
    apply in_map_iff in Hs' as (r & <- & Hr). unfold json_at. rewrite is_move_stringify.
    apply List.filter_In in Hr as [_ Hr]. apply andb_true_iff in Hr. tauto. }
  rewrite Hstore in Hs, Hm. simpl in Hs, Hm.
  split; [exact Hs|]. split; [|split].
  - exists (chat (UpdateMsg (shapes_json g2) (Some true)) (roomId g) :: msgs).
    rewrite Hm, Hs. subst G. simpl. rewrite <- !app_assoc. simpl.
    split; [reflexivity|]. by rewrite Hlen.
  - unfold mouseUpHandler. subst G. simpl. rewrite Ht. simpl.
    unfold deref. simpl. rewrite deref_in_new.
    destruct (getMovedShape _ _ _ _). reflexivity.
  - unfold mouseUpHandler. subst G. simpl. rewrite Ht. simpl.
    unfold deref. simpl. rewrite deref_in_new.
    destruct (getMovedShape _ _ _ _). reflexivity.
Qed.

Lemma find_rev_none {A} (p : A -> bool) (l : list A) :
  existsb p l = false -> find p (rev l) = None.
Proof.
  intros H. assert (Hall : forall x, In x (rev l) -> p x = false).
  { intros x Hx. apply in_rev in Hx. destruct (p x) eqn:E; [|done].
    assert (existsb p l = true) by (apply existsb_exists; eauto). congruence. }
  induction (rev l) as [|x r IH]; simpl; [done|].
  rewrite (Hall x) by (by left). apply IH. intros y Hy. apply Hall. by right.
Qed.

Lemma existsb_map_eq {A B} (f : A -> B) (p : B -> bool) (l : list A) :
  existsb p (map f l) = existsb (fun x => p (f x)) l.
Proof. induction l as [|x l IH]; simpl; [done|]. by rewrite IH. Qed.

(** The moves of a drag with the move tool when no wrapper is active: only
    the last position of the mouse changes. *)
Lemma idle_moves (g : Game) (pts : list (Q * Q)) :
  clicked g = true -> isPanning g = false -> selectedTool g = Tmove ->
  activeShape g = None ->
  exists u v, run hypot g (pointer_moves pts) = set_currentMouse g u v.
Proof.
  revert g. induction pts as [|[x y] pts IH]; intros g Hc Hp Ht Ha.
  - exists (currentMouseX g), (currentMouseY g). by destruct g.
  - change (run hypot g (pointer_moves ((x, y) :: pts)))
      with (run hypot (mouseMoveHandler hypot g x y) (pointer_moves pts)).
    assert (E : mouseMoveHandler hypot g x y
                = set_currentMouse g (point_x (screenToCanvas g x y))
                                     (point_y (screenToCanvas g x y))).
    { unfold mouseMoveHandler. rewrite Hc, Hp. simpl. by rewrite Hc, Ht, Ha. }
    rewrite E.
    destruct (IH (set_currentMouse g (point_x (screenToCanvas g x y))
                                     (point_y (screenToCanvas g x y))) Hc Hp Ht Ha)
      as (u & v & Hr).
    exists u, v. by rewrite Hr.
Qed.

(** A gesture of the move tool whose press falls on no shape, while no
    wrapper is active: whatever the moves and the release, the store is
    left as it was, nothing is sent and no wrapper becomes active. *)
Theorem move_gesture_misses (g : Game) (x0 y0 x1 y1 : Q) (pts : list (Q * Q)) :
  isPanning g = false -> selectedTool g = Tmove -> activeShape g = None ->
  let p0 := screenToCanvas g x0 y0 in
  existsb (hitTest hypot (point_x p0) (point_y p0) (scale g)) (shapes_json g) = false ->
  let g' := run hypot g (MouseDown x0 y0 :: pointer_moves pts ++ [MouseUp x1 y1]) in
  shapes_json g' = shapes_json g /\ sent g' = sent g /\ activeShape g' = None.
Proof.
  intros Hp Ht Ha p0 Hmiss. cbv zeta.
  change (run hypot g (MouseDown x0 y0 :: pointer_moves pts ++ [MouseUp x1 y1]))
    with (run hypot (mouseDownHandler hypot g x0 y0) (pointer_moves pts ++ [MouseUp x1 y1])).
  rewrite run_app, mouseDownHandler_eq, Hp, Ht. cbv zeta. fold p0.
  erewrite find_ext_eq; [|intros s; by rewrite hit_at_start_hitTest].
  rewrite (find_rev_none (fun s => hitTest hypot (point_x p0) (point_y p0) (scale g) (json_at g s)));
    [|by rewrite <- (existsb_map_eq (json_at g))].
  destruct (idle_moves (set_currentMouse (set_start (set_clicked g true) (point_x p0) (point_y p0))
                          (point_x p0) (point_y p0)) pts eq_refl Hp Ht Ha) as (u & v & Hr).
  rewrite Hr. simpl. unfold mouseUpHandler. simpl. by rewrite Ht, Ha.
Qed.

End Gestures.

Lemma pencil_gesture_witness :
  (wf (newGame "room") = true /\ isPanning (newGame "room") = false
   /\ selectedTool (newGame "room") = Tpencil)
  /\ shapes_json (run hypot_approx (newGame "room")
                      (MouseDown 1 2 :: pointer_moves [(3, 4); (5, 6)]%Q ++ [MouseUp 9 9]))
     = shapes_json (newGame "room")
       ++ [Pencil (map (fun q => screenToCanvas (newGame "room") q.1 q.2)
                       [(1, 2); (3, 4); (5, 6)]%Q)
                  (currentColor (newGame "room")) (currentLineWidth (newGame "room"))].
Proof.
  split; [repeat split; reflexivity|].
  exact (proj1 (pencil_gesture hypot_approx (newGame "room") 1 2 9 9 [(3, 4); (5, 6)]%Q
                  eq_refl eq_refl eq_refl)).
Defined.

Lemma move_gesture_witness :
  (wf dangling = true /\ isPanning dangling = false /\ selectedTool dangling = Tmove
   /\ find (fun s => hitTest hypot_approx (point_x (screenToCanvas dangling 5 5))
                       (point_y (screenToCanvas dangling 5 5)) (scale dangling)
                       (json_at dangling s))
           (rev (existingShapes dangling)) = Some 1%nat)
  /\ activeShape (run hypot_approx dangling
                      (MouseDown 5 5 :: pointer_moves [(7, 8)]%Q ++ [MouseUp 90 90])) = None.
Proof.
  split; [repeat split; vm_compute; reflexivity|].
  refine (proj1 (proj2 (proj2 (move_gesture hypot_approx dangling 5 5 90 90 [(7, 8)]%Q 1%nat
                                 _ eq_refl eq_refl _)))).
  - vm_compute. reflexivity.
  - vm_compute. reflexivity.
Defined.

Lemma move_gesture_misses_witness :
  (isPanning dangling = false /\ selectedTool dangling = Tmove /\ activeShape dangling = None
   /\ existsb (hitTest hypot_approx (point_x (screenToCanvas dangling 200 200))
                 (point_y (screenToCanvas dangling 200 200)) (scale dangling))
              (shapes_json dangling) = false)
  /\ shapes_json (run hypot_approx dangling
                      (MouseDown 200 200 :: pointer_moves [(7, 8)]%Q ++ [MouseUp 5 5]))
     = shapes_json dangling.
Proof.
  split; [repeat split; vm_compute; reflexivity|].
  refine (proj1 (move_gesture_misses hypot_approx dangling 200 200 5 5 [(7, 8)]%Q
                   eq_refl eq_refl eq_refl _)).
  vm_compute. reflexivity.
Defined.

(** * Peers *)

Section Peers.

Variable hypot : Q -> Q -> Q.

Lemma filter_length_same {A} (p : A -> bool) (l : list A) :
  length (List.filter p l) = length l -> List.filter p l = l.
Proof.
  induction l as [|x l IH]; simpl; [done|]. pose proof (filter_length_le p l).
  destruct (p x); simpl; intros H'; [f_equal; apply IH; lia|lia].
Qed.

(** A write to an array that the object does not hold is not seen in the
    JSON value of the object. *)
Lemma stringify_insert (m : list (list Point)) (a : loc) (pts : list Point) (o : Obj) :
  refers a o = false -> stringify (<[a := pts]> m) o = stringify m o.
Proof.
  induction o; simpl; intros H; auto.
  - f_equal. unfold deref_arr. rewrite list_lookup_insert_ne; [done|].
    apply Nat.eqb_neq in H. lia.
  - by rewrite IHo.
Qed.

Lemma announced_eraseShape (g : Game) (x y : Q) : announced g (eraseShape hypot g x y).
Proof.
  pose proof (eraseShape_sent hypot g x y) as Hm.
  pose proof (eraseShape_shapes hypot g x y) as Hs.
  destruct (Nat.eqb_spec (length (shapes_json g))
              (length (shapes_json (eraseShape hypot g x y)))) as [E|E].
  - left. rewrite app_nil_r in Hm. split; [done|].
    rewrite Hs. apply filter_length_same. by rewrite <- Hs.
  - right. left. by exists None.
Qed.

Lemma announced_mouseDown (g : Game) (x y : Q) :
  wf g = true -> announced g (mouseDownHandler hypot g x y).
Proof.
  intros Hwf. rewrite mouseDownHandler_eq. destruct (isPanning g); [by left|]. cbv zeta.
  destruct (selectedTool g).
  - by left.
  - by left.
  - left. split; [done|]. unfold wf in Hwf. apply wf_mem_iff in Hwf. destruct Hwf as (Ho & Hl & _).
    pose proof (map_json_in_grow (objs g) (arrs g) []
                  [[mkPoint (point_x (screenToCanvas g x y)) (point_y (screenToCanvas g x y))]]
                  (existingShapes g) Ho Hl) as E.
    rewrite app_nil_r in E. exact E.
  - exact (announced_eraseShape
             (set_currentMouse (set_start (set_clicked g true) _ _) _ _) _ _).
  - destruct (find _ _); [right; left; by exists (Some true)|by left].
Qed.

Lemma announced_mouseUp (g : Game) (x y : Q) :
  wf g = true -> announced g (mouseUpHandler hypot g x y).
Proof.
  intros Hwf. destruct (clicked g) eqn:Hc.
  - destruct (mouseUp_release_rule hypot g x y Hwf Hc) as [Hs Hm].
    unfold release_rule in Hs, Hm. cbv zeta in Hs, Hm.
    destruct (selectedTool g).
    + destruct (Qgtb _ 1); simpl in Hs, Hm;
        [right; right; eexists; split; eauto|left; by rewrite app_nil_r in Hm].
    + destruct (Qgtb _ 1 && Qgtb _ 1); simpl in Hs, Hm;
        [right; right; eexists; split; eauto|left; by rewrite app_nil_r in Hm].
    + destruct (Nat.ltb 1 _); simpl in Hs, Hm;
        [right; right; eexists; split; eauto|left; by rewrite app_nil_r in Hm].
    + left. by rewrite app_nil_r in Hm.
    + destruct (activeShape g) as [a|]; [|left; by rewrite app_nil_r in Hm].
      destruct (json_at g a); simpl in Hs, Hm; try (left; by rewrite app_nil_r in Hm).
      right. left. exists (Some false). by rewrite Hs.
  - left. unfold mouseUpHandler. by rewrite Hc.
Qed.

Lemma announced_mouseMove (g : Game) (x y : Q) :
  wf g = true ->
  negb (pushes_point g (MouseMove x y)) || stroke_private g = true ->
  announced g (mouseMoveHandler hypot g x y).
Proof.
  intros Hwf Hq. unfold mouseMoveHandler.
  destruct (clicked g) eqn:Hc; simpl; rewrite ?Hc; simpl; [|by left].
  destruct (isPanning g) eqn:Hp; [by left|].
  destruct (selectedTool g) eqn:Ht.
  - by left.
  - by left.
  - left. split; [done|]. simpl in Hq. rewrite Hc, Hp, Ht in Hq. simpl in Hq.
    unfold stroke_private in Hq. rewrite forallb_forall in Hq.
    unfold shapes_json, deref. simpl. apply map_ext_in. intros l Hl.
    apply stringify_insert. apply negb_true_iff. by apply Hq.
  - exact (announced_eraseShape (set_currentMouse g _ _) _ _).
  - destruct (activeShape g) as [a|]; [|by left].
    destruct (deref _ a); try (by left).
    right. left. by exists (Some true).
Qed.

(** What a local event does to the store is announced. *)
Lemma announced_step (g : Game) (e : Event) :
  wf g = true -> local_event e = true ->
  negb (pushes_point g e) || stroke_private g = true ->
  announced g (step hypot g e).
Proof.
  intros Hwf He Hq. destruct e; simpl; try discriminate.
  - by apply announced_mouseDown.
  - by apply announced_mouseUp.
  - by apply (announced_mouseMove g screenX screenY).
  - left. unfold wheelHandler, zoom, pan. destruct ctrlOrMeta; [|done].
    cbv zeta. destruct (negb (Qeq_bool _ _)); split; reflexivity.
  - left. unfold keyDownHandler. by destruct (String.eqb _ _).
  - left. unfold keyUpHandler. by destruct (String.eqb _ _).
  - by left.
  - by left.
  - by left.
Qed.

(** ** The receiving side *)

Lemma onmessage_update_idle (h : Game) (ss : list Shape) (f : option bool) :
  activeShape h = None ->
  shapes_json (state_of (onmessage h (Chat (UpdateMsg ss f)))) = ss.
Proof.
  intros Ha. simpl. pose proof (parse_all_shapes (objs h) (arrs h) ss) as H.
  destruct (parse_all ss (objs h) (arrs h)) as [[ls os] m]. simpl. rewrite Ha.
  by destruct f as [[|]|].
Qed.

Lemma activeShape_onmessage (h : Game) (d : Data) :
  activeShape (state_of (onmessage h d)) = activeShape h.
Proof.
  destruct d as [| | |[s|ss f]]; simpl; try done.
  - by destruct (parse s (arrs h)).
  - destruct (parse_all ss (objs h) (arrs h)) as [[ls os] m]. simpl.
    destruct f as [[|]|]; try done. by destruct (activeShape h) eqn:E.
Qed.

Lemma deliver_announced (g g' h : Game) :
  wf h = true -> activeShape h = None -> shapes_json h = shapes_json g ->
  announced g g' ->
  exists new,
    sent g' = sent g ++ new
    /\ shapes_json (deliver h new) = shapes_json g'
    /\ wf (deliver h new) = true
    /\ activeShape (deliver h new) = None.
Proof.
  intros Hwf Ha Hs [[Hm Hj]|[[f Hm]|(s & Hm & Hj)]].
  - exists []. rewrite app_nil_r. simpl. by rewrite Hj.
  - eexists. split; [exact Hm|].
    change (deliver h [?m]) with (state_of (onmessage h (Chat (message m)))).
    cbn [message]. split; [by apply onmessage_update_idle|].
    split; [by apply wf_onmessage|]. by rewrite activeShape_onmessage.
  - eexists. split; [exact Hm|].
    change (deliver h [?m]) with (state_of (onmessage h (Chat (message m)))).
    cbn [message]. split; [by rewrite onmessage_shape, Hs, Hj|].
    split; [by apply wf_onmessage|]. by rewrite activeShape_onmessage.
Qed.

Lemma deliver_app (h : Game) (ms ms' : list Envelope) :
  deliver h (ms ++ ms') = deliver (deliver h ms) ms'.
Proof. apply fold_left_app. Qed.

Lemma deliver_run (g h : Game) (es : list Event) :
  wf g = true -> wf h = true -> activeShape h = None ->
  shapes_json h = shapes_json g ->
  local_run hypot g es = true ->
  exists new,
    sent (run hypot g es) = sent g ++ new
    /\ shapes_json (deliver h new) = shapes_json (run hypot g es).
Proof.
  revert g h. induction es as [|e es IH]; intros g h Hg Hh Ha Hs Hl.
  - exists []. by rewrite app_nil_r.
  - simpl in Hl. apply andb_true_iff in Hl as [Hl Hes]. apply andb_true_iff in Hl as [He Hq].
    destruct (deliver_announced g (step hypot g e) h Hh Ha Hs (announced_step g e Hg He Hq))
      as (new & Hm & Hj & Hh' & Ha').
    destruct (IH (step hypot g e) (deliver h new) (wf_step hypot g e Hg) Hh' Ha' Hj Hes)
      as (new' & Hm' & Hj').
    exists (new ++ new'). simpl. rewrite Hm', Hm, <- app_assoc. split; [done|].
    by rewrite deliver_app.
Qed.

(** A peer that is not moving a shape, holds the same store as the local
    user and receives what the local user sends, in order, ends with the
    same store as the local user, whatever the local user does with the
    pointer, the wheel, the keys and the tool bar, provided no point is
    pushed onto a stroke buffer that a stored stroke holds. *)
Theorem idle_peer_stays_in_sync (g h : Game) (es : list Event) :
  wf g = true -> wf h = true -> activeShape h = None ->
  shapes_json h = shapes_json g ->
  local_run hypot g es = true ->
  shapes_json (deliver h (drop (length (sent g)) (sent (run hypot g es))))
  = shapes_json (run hypot g es).
Proof.
  intros Hg Hh Ha Hs Hl.
  destruct (deliver_run g h es Hg Hh Ha Hs Hl) as (new & Hm & Hj).
  by rewrite Hm, drop_app_length.
Qed.

End Peers.

Lemma idle_peer_stays_in_sync_witness :
  (wf (newGame "room") = true /\ activeShape (newGame "room") = None
   /\ local_run hypot_approx (newGame "room") drawing_alone = true)
  /\ shapes_json (deliver (newGame "room")
                    (drop (length (sent (newGame "room")))
                          (sent (run hypot_approx (newGame "room") drawing_alone))))
     = shapes_json (run hypot_approx (newGame "room") drawing_alone).
Proof.
  split; [repeat split; vm_compute; reflexivity|].
  apply (idle_peer_stays_in_sync hypot_approx (newGame "room") (newGame "room") drawing_alone);
    vm_compute; reflexivity.
Defined.

(** * The stroke buffer and the store *)

Section Aliasing.

Variable hypot : Q -> Q -> Q.

(** The array of a committed stroke is the stroke buffer itself, and stays
    so until the pencil is pressed again.  When a move of the pointer
    reaches the pencil while the button is held and the buffer is the array
    of the stroke at place [i] of the store, the point is appended to that
    stored stroke, and nothing is sent: the peers do not see it. *)
Theorem stored_stroke_grows (g : Game) (x y : Q) (i : nat) (l : loc) (c : string) (lw : Q) :
  wf g = true -> clicked g = true -> isPanning g = false -> selectedTool g = Tpencil ->
  existingShapes g !! i = Some l ->
  deref g l = Pencil (currentPencilStroke g) c lw ->
  let g' := mouseMoveHandler hypot g x y in
  shapes_json g' !! i
  = Some (Pencil (deref_arr (arrs g) (currentPencilStroke g) ++ [screenToCanvas g x y]) c lw)
  /\ sent g' = sent g.
Proof.
  intros Hwf Hc Hp Ht Hi Hl. cbv zeta. unfold mouseMoveHandler. rewrite Hc, Hp. simpl.
  rewrite Hc, Ht. simpl. split; [|done].
  unfold wf in Hwf. apply wf_mem_iff in Hwf. destruct Hwf as (_ & _ & Hst & _).
  unfold shapes_json. rewrite list_lookup_fmap. simpl. rewrite Hi. simpl. f_equal.
  unfold deref in *. simpl. rewrite Hl. simpl. f_equal.
  unfold deref_arr at 1. by rewrite list_lookup_insert_eq.
Qed.

End Aliasing.

Lemma stored_stroke_grows_witness :
  (wf pencil_reselected = true /\ clicked pencil_reselected = true
   /\ isPanning pencil_reselected = false /\ selectedTool pencil_reselected = Tpencil
   /\ existingShapes pencil_reselected !! 0%nat = Some 0%nat
   /\ deref pencil_reselected 0 = Pencil (currentPencilStroke pencil_reselected) "black" 2)
  /\ shapes_json (mouseMoveHandler hypot_approx pencil_reselected 60 70) !! 0%nat
     = Some (Pencil (deref_arr (arrs pencil_reselected) (currentPencilStroke pencil_reselected)
                     ++ [screenToCanvas pencil_reselected 60 70]) "black" 2).
Proof.
  split; [repeat split; vm_compute; reflexivity|].
  refine (proj1 (stored_stroke_grows hypot_approx pencil_reselected 60 70 0 0 "black" 2
                   _ eq_refl eq_refl eq_refl _ _)); vm_compute; reflexivity.
Defined.

(** * The cursor *)

Section Cursor.

Variable hypot : Q -> Q -> Q.

(** Only the keys and the selection of a tool write the cursor, the
    panning flag or the selected tool. *)
Lemma cursor_frame (g : Game) (e : Event) :
  match e with KeyDown _ | KeyUp _ | SetTool _ => False | _ => True end ->
  cursor (step hypot g e) = cursor g
  /\ isPanning (step hypot g e) = isPanning g
  /\ selectedTool (step hypot g e) = selectedTool g.
Proof.
  intros He. destruct e; try done; simpl; rewrite ?mouseDownHandler_eq;
    unfold mouseUpHandler, mouseMoveHandler, wheelHandler, zoom, pan, eraseShape, commit,
      push_new, init_resolved, onmessage;
    (split; [|split]); frame; assumption.
Qed.

Lemma cursor_ok_step (g : Game) (e : Event) :
  cursor_ok g = true -> cursor_ok (step hypot g e) = true.
Proof.
  intros H.
  assert (Hframe : match e with KeyDown _ | KeyUp _ | SetTool _ => False | _ => True end ->
                   cursor_ok (step hypot g e) = true).
  { intros He. destruct (cursor_frame g e He) as (Hc & Hp & Ht).
    unfold cursor_ok. by rewrite Hc, Hp, Ht. }
  destruct e; try (by apply Hframe); simpl; unfold cursor_ok.
  - unfold keyDownHandler. destruct (String.eqb code "Space"); [reflexivity|exact H].
  - unfold keyUpHandler. destruct (String.eqb code "Space"); [|exact H].
    simpl. by rewrite String.eqb_refl, orb_true_r.
  - simpl. by rewrite String.eqb_refl, orb_true_r.
Qed.

(** The cursor never shows a tool that is not the selected one: after any
    sequence of events it is the one the canvas started with, or ["grab"]
    with the space bar held, or the cursor of the tool that is selected. *)
Theorem cursor_follows_tool (g : Game) (es : list Event) :
  cursor_ok g = true -> cursor_ok (run hypot g es) = true.
Proof.
  revert g. induction es as [|e es IH]; intros g H; [exact H|].
  simpl. apply IH. by apply cursor_ok_step.
Qed.

End Cursor.

Lemma cursor_follows_tool_witness :
  cursor_ok (newGame "room") = true
  /\ cursor_ok (run hypot_approx (newGame "room")
                    [SetTool Tmove; KeyDown "Space"; SetTool Trect; KeyUp "Space"]) = true.
Proof.
  split; [reflexivity|].
  exact (cursor_follows_tool hypot_approx (newGame "room")
           [SetTool Tmove; KeyDown "Space"; SetTool Trect; KeyUp "Space"] eq_refl).
Defined.

(** * The canvas *)

Section Canvas.

Variable hypot : Q -> Q -> Q.

Variables width height : Q.

Lemma saved_app (d : nat) (a b : list Ctx.op) :
  saved d (a ++ b) = match saved d a with Some d' => saved d' b | None => None end.
Proof.
  revert d. induction a as [|o a IH]; intros d; simpl; [done|].
  destruct o; auto. destruct d; auto.
Qed.

Lemma saved_lines (d : nat) (points : list Point) (ops : list Ctx.op) :
  saved d (map (fun point => Ctx.lineTo (point_x point) (point_y point)) points ++ ops)
  = saved d ops.
Proof. induction points as [|p l IH]; simpl; auto. Qed.

Lemma saved_polyline (d : nat) (p0 : Point) (points : list Point) (ops : list Ctx.op) :
  saved d (polyline p0 points ++ ops) = saved d ops.
Proof. unfold polyline. simpl. by rewrite <- app_assoc, saved_lines. Qed.

Lemma saved_drawShape_within (n : nat) (m : list (list Point)) (o : Obj) (d : nat) :
  saved d (drawShape_within n m o) = Some d.
Proof.
  revert m o d. induction n as [|n IH]; intros m o d; simpl; [done|].
  destruct o as [| |a c lw|inner ox oy| |tag]; simpl; try done.
  - destruct (deref_arr m a) as [|p0 l]; [done|].
    change (saved (S d) (polyline p0 (p0 :: l) ++ [Ctx.restore]) = Some d).
    by rewrite saved_polyline.
  - destruct (getMovedShape m inner ox oy) as [moved m']. by rewrite saved_app, IH.
  - by destruct tag.
Qed.

Lemma saved_redrawCanvas (g : Game) (d : nat) :
  saved d (redrawCanvas width height g) = Some d.
Proof.
  unfold redrawCanvas. simpl. rewrite saved_app.
  assert (E : forall ls, saved (S d) (flat_map (fun l => drawShape (arrs g) (deref g l)) ls)
                         = Some (S d)).
  { induction ls as [|l ls IH]; simpl; [done|].
    unfold drawShape at 1. by rewrite saved_app, saved_drawShape_within. }
  by rewrite E.
Qed.


(** ** What is painted is read off the JSON value of the store *)

Lemma wrappers_getMovedShape (m : list (list Point)) (inner : Obj) (ox oy : Q) :
  wrappers (getMovedShape m inner ox oy).1 = wrappers inner.
Proof. by destruct inner. Qed.

(** The bound on the depth is enough: [drawShape] of a wrapper is
    [drawShape] of what [getMovedShape] returns, between [save] and
    [restore], as in the source. *)
Lemma drawShape_move (m : list (list Point)) (inner : Obj) (ox oy : Q) :
  drawShape m (Move inner ox oy)
  = [Ctx.save]
    ++ drawShape (getMovedShape m inner ox oy).2 (getMovedShape m inner ox oy).1
    ++ [Ctx.restore].
Proof.
  unfold drawShape. rewrite wrappers_getMovedShape.
  change (wrappers (Move inner ox oy)) with (S (wrappers inner)).
  generalize (S (wrappers inner)). intros n. simpl.
  by destruct (getMovedShape m inner ox oy).
Qed.

Lemma wrappers_stringify (m : list (list Point)) (o : Obj) :
  wrappers (stringify m o) = wrappers o.
Proof. induction o; simpl; auto. Qed.

Lemma drawShape_within_json (n : nat) (m : list (list Point)) (o : Obj) :
  drawShape_within n m o = drawJson_within n (stringify m o).
Proof.
  revert m o. induction n as [|n IH]; intros m o; [done|].
  destruct o as [| | |inner ox oy| |]; try reflexivity.
  cbn [drawShape_within drawJson_within stringify].
  rewrite <- moved_json_translate. unfold moved_json.
  destruct (getMovedShape m inner ox oy) as [moved m']. by rewrite IH.
Qed.

Lemma redrawCanvas_json (g : Game) :
  redrawCanvas width height g
  = [Ctx.save; Ctx.clearRect 0 0 width height; Ctx.fillStyle "white";
     Ctx.fillRect 0 0 width height]
    ++ applyTransform g ++ drawJson (shapes_json g) ++ [Ctx.restore].
Proof.
  unfold redrawCanvas, drawJson, shapes_json. do 3 f_equal.
  induction (existingShapes g) as [|l ls IH]; [done|].
  cbn [flat_map map]. rewrite IH. f_equal. unfold drawShape.
  by rewrite drawShape_within_json, wrappers_stringify.
Qed.

(** Two states with the same view, the same store as JSON and the same
    viewport, are painted alike: what [redrawCanvas] puts on the canvas does
    not depend on which objects and arrays hold the shapes, nor on any other
    field of the state. *)
Theorem repaint_reads_json (g h : Game) :
  view g = view h -> redrawCanvas width height g = redrawCanvas width height h.
Proof.
  unfold view. intros [= Hj Hs Hx Hy]. rewrite !redrawCanvas_json. unfold applyTransform.
  by rewrite Hj, Hs, Hx, Hy.
Qed.

(** ** No handler leaves the canvas stale *)

Lemma mouseMoveHandler_eq (g : Game) (x y : Q) :
  mouseMoveHandler hypot g x y
  = if clicked g && isPanning g
    then set_lastPan (pan g (x - lastPanX g) (y - lastPanY g)) x y
    else
      let p := screenToCanvas g x y in
      let g1 := set_currentMouse g (point_x p) (point_y p) in
      if negb (clicked g) then g1
      else
        match selectedTool g with
        | Trect | Tcircle => g1
        | Tpencil =>
            set_arrs g1 (<[currentPencilStroke g :=
                             deref_arr (arrs g) (currentPencilStroke g) ++ [p]]> (arrs g))
        | Teraser => eraseShape hypot g1 (point_x p) (point_y p)
        | Tmove =>
            match activeShape g with
            | Some a =>
                match deref g a with
                | Move shape _ _ =>
                    let g2 := set_objs g1 (<[a := Move shape (point_x p - startX g)
                                                       (point_y p - startY g)]> (objs g)) in
                    send g2 (UpdateMsg (shapes_json g2) (Some true))
                | _ => g1
                end
            | None => g1
            end
        end.
Proof. unfold mouseMoveHandler. cbv zeta. reflexivity. Qed.

Lemma view_mouseDown_quiet (g : Game) (x y : Q) :
  wf g = true ->
  mouseDown_paints hypot width height g x y = [] ->
  selectedTool g <> Teraser ->
  view (mouseDownHandler hypot g x y) = view g.
Proof.
  intros Hwf Hpaint Hne. unfold mouseDown_paints in Hpaint. cbv zeta in Hpaint.
  rewrite mouseDownHandler_eq. destruct (isPanning g); [done|]. cbv zeta.
  destruct (selectedTool g); try done.
  - unfold wf in Hwf. apply wf_mem_iff in Hwf. destruct Hwf as (Ho & Hl & _).
    pose proof (map_json_in_grow (objs g) (arrs g) []
                  [[mkPoint (point_x (screenToCanvas g x y)) (point_y (screenToCanvas g x y))]]
                  (existingShapes g) Ho Hl) as E.
    rewrite app_nil_r in E. unfold view. f_equal. f_equal. f_equal. exact E.
  - destruct (find _ _); [|done].
    unfold redrawCanvas in Hpaint. discriminate.
Qed.

Lemma view_pencil_push (g : Game) (x y : Q) :
  clicked g = true -> isPanning g = false -> selectedTool g = Tpencil ->
  stroke_private g = true ->
  view (mouseMoveHandler hypot g x y) = view g.
Proof.
  intros Hc Hp Ht Hq. unfold mouseMoveHandler. rewrite Hc, Hp. simpl. rewrite Hc, Ht. simpl.
  unfold view. simpl. do 3 f_equal.
  unfold stroke_private in Hq. rewrite forallb_forall in Hq.
  unfold shapes_json, deref. simpl. apply map_ext_in. intros l Hl.
  apply stringify_insert. apply negb_true_iff. by apply Hq.
Qed.


(** ** The outline of the shape in progress *)

Lemma app_same_nil {A} (l k : list A) : l = l ++ k -> k = [].
Proof.
  intros H. apply (f_equal (@length A)) in H. rewrite length_app in H.
  destruct k; [done|]. simpl in H. lia.
Qed.


End Canvas.

Lemma repaint_reads_json_witness :
  view rect_fetched = view rect_moved
  /\ existingShapes rect_fetched <> existingShapes rect_moved
  /\ redrawCanvas 800 600 rect_fetched = redrawCanvas 800 600 rect_moved.
Proof.
  split; [vm_compute; reflexivity|]. split; [vm_compute; discriminate|].
  apply (repaint_reads_json 800 600 rect_fetched rect_moved). vm_compute. reflexivity.
Defined.



(** * The active wrapper *)

Section Active.

Variable hypot : Q -> Q -> Q.

(** [mouseUpHandler] and [mouseMoveHandler] read [this.activeShape] through
    a cast to a move wrapper, which nothing checks when the code runs.  The
    cast is right: whatever the events, local or inbound, since the [Game]
    was created, [activeShape] is null or an object of the memory that is a
    move wrapper, and what it wraps is not a wrapper. *)
Theorem active_shape_is_a_wrapper (room : string) (es : list Event) (a : loc) :
  let g := run hypot (newGame room) es in
  activeShape g = Some a ->
  exists shape ox oy,
    objs g !! a = Some (Move shape ox oy) /\ is_move shape = false.
Proof.
  intros g Ha.
  pose proof (wf_run hypot (newGame room) es (wf_newGame room)) as Hwf. fold g in Hwf.
  unfold wf in Hwf. apply wf_mem_iff in Hwf. destruct Hwf as (_ & _ & _ & Hact).
  rewrite Ha in Hact. simpl in Hact. unfold deref_in in Hact.
  destruct (objs g !! a) as [[| | |shape ox oy| |]|]; try discriminate.
  exists shape, ox, oy. split; [done|]. by apply negb_true_iff.
Qed.

End Active.

Lemma active_shape_is_a_wrapper_witness :
  activeShape (run hypot_approx (newGame "room")
                   [InitResolved [Rect 0 0 10 10 "red" 2]; SetTool Tmove; MouseDown 5 5])
  = Some 1%nat
  /\ exists shape ox oy,
       objs (run hypot_approx (newGame "room")
                 [InitResolved [Rect 0 0 10 10 "red" 2]; SetTool Tmove; MouseDown 5 5])
       !! 1%nat = Some (Move shape ox oy)
       /\ is_move shape = false.
Proof.
  split; [vm_compute; reflexivity|].
  apply (active_shape_is_a_wrapper hypot_approx "room"
           [InitResolved [Rect 0 0 10 10 "red" 2]; SetTool Tmove; MouseDown 5 5] 1%nat).
  vm_compute. reflexivity.
Defined.

(** * More on the viewport and on gestures *)

Section Directions.

Variable hypot : Q -> Q -> Q.

Local Open Scope Q_scope.

(** The wheel zooms the way it turns: within the bounds, a positive
    [deltaY] never makes the scale larger and any other [deltaY] never makes
    it smaller. *)
Theorem zoom_direction (g : Game) (deltaY cx cy : Q) :
  scale_in_bounds g = true ->
  (Qgtb deltaY 0 = true -> scale (zoom g deltaY cx cy) <= scale g)
  /\ (Qgtb deltaY 0 = false -> scale g <= scale (zoom g deltaY cx cy)).
Proof.
  intros Hb. apply scale_in_bounds_iff in Hb. destruct Hb as [Hlo Hhi].
  unfold minScale, maxScale in *. unfold zoom.
  split; intros Hd; rewrite Hd; cbv zeta;
    (destruct (negb _); [|apply Qle_refl]); simpl; unfold minScale, maxScale.
  - apply Qle_trans with (Qmax (scale g * (9 # 10)) (1 # 10)); [apply Q.le_min_l|].
    apply Q.max_lub; lra.
  - apply Q.min_glb; [|lra].
    apply Qle_trans with (scale g * (11 # 10)); [lra|apply Q.le_max_l].
Qed.

Local Close Scope Q_scope.

(** [mouseUpHandler] does not read the last position of the mouse. *)
Lemma mouseUp_ignores_mouse (g : Game) (u v x y : Q) :
  mouseUpHandler hypot (set_currentMouse g u v) x y
  = set_currentMouse (mouseUpHandler hypot g x y) u v.
Proof.
  unfold mouseUpHandler, commit, push_new, alloc, send, deref. simpl.
  repeat match goal with
         | |- context [match ?x with _ => _ end] => destruct x eqn:?
         end; reflexivity.
Qed.

(** The moves of a drag with the rectangle or the circle tool: only the
    last position of the mouse changes. *)
Lemma box_moves (g : Game) (pts : list (Q * Q)) :
  clicked g = true -> isPanning g = false ->
  selectedTool g = Trect \/ selectedTool g = Tcircle ->
  exists u v, run hypot g (pointer_moves pts) = set_currentMouse g u v.
Proof.
  revert g. induction pts as [|[x y] pts IH]; intros g Hc Hp Ht.
  - exists (currentMouseX g), (currentMouseY g). by destruct g.
  - change (run hypot g (pointer_moves ((x, y) :: pts)))
      with (run hypot (mouseMoveHandler hypot g x y) (pointer_moves pts)).
    assert (E : mouseMoveHandler hypot g x y
                = set_currentMouse g (point_x (screenToCanvas g x y))
                                     (point_y (screenToCanvas g x y))).
    { unfold mouseMoveHandler. rewrite Hc, Hp. simpl. rewrite Hc. by destruct Ht as [-> | ->]. }
    rewrite E.
    destruct (IH (set_currentMouse g (point_x (screenToCanvas g x y))
                                     (point_y (screenToCanvas g x y))) Hc Hp Ht)
      as (u & v & Hr).
    exists u, v. by rewrite Hr.
Qed.

(** With the rectangle or the circle tool, outside panning, only the press
    and the release count: the moves of the pointer in between make no
    difference to the store or to what is sent. *)
Theorem box_gesture_ignores_moves (g : Game) (x0 y0 x1 y1 : Q) (pts : list (Q * Q)) :
  isPanning g = false ->
  selectedTool g = Trect \/ selectedTool g = Tcircle ->
  let g' := run hypot g (MouseDown x0 y0 :: pointer_moves pts ++ [MouseUp x1 y1]) in
  let g0 := run hypot g [MouseDown x0 y0; MouseUp x1 y1] in
  shapes_json g' = shapes_json g0 /\ sent g' = sent g0.
Proof.
  intros Hp Ht. cbv zeta.
  change (run hypot g (MouseDown x0 y0 :: pointer_moves pts ++ [MouseUp x1 y1]))
    with (run hypot (mouseDownHandler hypot g x0 y0) (pointer_moves pts ++ [MouseUp x1 y1])).
  change (run hypot g [MouseDown x0 y0; MouseUp x1 y1])
    with (mouseUpHandler hypot (mouseDownHandler hypot g x0 y0) x1 y1).
  rewrite run_app.
  assert (E : exists u v, run hypot (mouseDownHandler hypot g x0 y0) (pointer_moves pts)
                          = set_currentMouse (mouseDownHandler hypot g x0 y0) u v).
  { apply box_moves; rewrite mouseDownHandler_eq, Hp; cbv zeta;
      destruct Ht as [Ht | Ht]; rewrite Ht; auto. }
  destruct E as (u & v & ->).
  change (run hypot ?s [MouseUp x1 y1]) with (mouseUpHandler hypot s x1 y1).
  by rewrite mouseUp_ignores_mouse.
Qed.

End Directions.

Lemma zoom_direction_witness :
  scale_in_bounds (newGame "room") = true
  /\ (scale (zoom (newGame "room") 100 10 10) <= scale (newGame "room"))%Q
  /\ (scale (newGame "room") <= scale (zoom (newGame "room") (-100) 10 10))%Q.
Proof.
  split; [reflexivity|]. split.
  - apply (proj1 (zoom_direction (newGame "room") 100 10 10 eq_refl)). reflexivity.
  - apply (proj2 (zoom_direction (newGame "room") (-100) 10 10 eq_refl)). reflexivity.
Defined.

Lemma box_gesture_ignores_moves_witness :
  (isPanning drawing_rect = false
   /\ (selectedTool drawing_rect = Trect \/ selectedTool drawing_rect = Tcircle))
  /\ shapes_json (run hypot_approx drawing_rect
                      (MouseDown 10 10 :: pointer_moves [(50, 60); (7, 8)]%Q ++ [MouseUp 30 40]))
     = shapes_json (run hypot_approx drawing_rect [MouseDown 10 10; MouseUp 30 40]).
Proof.
  split; [split; [reflexivity|left; reflexivity]|].
  exact (proj1 (box_gesture_ignores_moves hypot_approx drawing_rect 10 10 30 40
                  [(50, 60); (7, 8)]%Q eq_refl (or_introl eq_refl))).
Defined.

(** * Listeners *)

Lemma Listener_eqb_owner (a b : Listener) :
  owner a <> owner b -> Listener_eqb a b = false.
Proof.
  intros H. unfold Listener_eqb. apply Nat.eqb_neq in H. rewrite H.
  by rewrite andb_false_r.
Qed.

Lemma Listener_eqb_same_owner (t t' : Target) (s s' : string) (this : nat) (c c' : Callback) :
  Listener_eqb (mkListener t s this c) (mkListener t' s' this c')
  = Target_eqb t t' && String.eqb s s' && Callback_eqb c c'.
Proof. unfold Listener_eqb. simpl. by rewrite Nat.eqb_refl, andb_true_r. Qed.

Lemma add_other (this : nat) (w : Wiring) (added : list Listener) (l : Listener) :
  Forall (fun l' => owner l' <> this) (listeners w) ->
  owner l = this ->
  existsb (Listener_eqb l) added = false ->
  forall s,
    addEventListener (mkWiring (listeners w ++ added) s) l
    = mkWiring (listeners w ++ added ++ [l]) s.
Proof.
  intros Hw Hl Ha s. unfold addEventListener. simpl. rewrite existsb_app, Ha, orb_false_r.
  assert (E : existsb (Listener_eqb l) (listeners w) = false).
  { induction Hw as [|l' ls Hl' _ IH]; simpl; [done|].
    rewrite IH, orb_false_r. apply Listener_eqb_owner. congruence. }
  by rewrite E, <- app_assoc.
Qed.

Lemma remove_other (this : nat) (ls : list Listener) (l : Listener) :
  Forall (fun l' => owner l' <> this) ls ->
  owner l = this ->
  List.filter (fun l' => negb (Listener_eqb l l')) ls = ls.
Proof.
  intros Hw Hl. induction Hw as [|l' ls Hl' _ IH]; simpl; [done|].
  rewrite Listener_eqb_owner by congruence. simpl. by rewrite IH.
Qed.

(** [destroy] undoes what the constructor did to the canvas and to the
    window, and that only: on a page where the [Game] had no listener, the
    listeners after [new Game(...)] and [destroy()] are those that were
    there, in their order.  The socket is another matter: [onmessage] is
    still the closure of the destroyed [Game], which goes on applying and
    painting what arrives. *)
Theorem destroy_undoes_the_constructor (this : nat) (w : Wiring) :
  Forall (fun l => owner l <> this) (listeners w) ->
  destroy this (construct this w) = mkWiring (listeners w) (Some this).
Proof.
  intros Hw. unfold construct, initZoomHandlers, initMouseHandlers, initHandlers. cbv zeta.
  rewrite <- (app_nil_r (listeners w)) at 1.
  repeat match goal with
         | |- context [addEventListener (mkWiring (listeners w ++ ?a) ?s) ?l] =>
             rewrite (add_other this w a l Hw eq_refl) by reflexivity
         end.
  unfold destroy, removeEventListener. cbv zeta. cbn [listeners socket_onmessage].
  rewrite !List.filter_app. rewrite !(remove_other this (listeners w)) by done.
  repeat (progress (cbn -[Listener_eqb]; rewrite ?Listener_eqb_same_owner)).
  by rewrite app_nil_r.
Qed.

Lemma destroy_undoes_the_constructor_witness :
  Forall (fun l => owner l <> 1%nat)
         [mkListener TheWindow "keydown" 0 OnKeyDown; mkListener TheWindow "resize" 7 OnWheel]
  /\ destroy 1 (construct 1 (mkWiring [mkListener TheWindow "keydown" 0 OnKeyDown;
                                       mkListener TheWindow "resize" 7 OnWheel] (Some 0%nat)))
     = mkWiring [mkListener TheWindow "keydown" 0 OnKeyDown;
                 mkListener TheWindow "resize" 7 OnWheel] (Some 1%nat).
Proof.
  assert (H : Forall (fun l => owner l <> 1%nat)
                [mkListener TheWindow "keydown" 0 OnKeyDown;
                 mkListener TheWindow "resize" 7 OnWheel]).
  { repeat constructor; simpl; lia. }
  split; [exact H|].
  exact (destroy_undoes_the_constructor 1
           (mkWiring [mkListener TheWindow "keydown" 0 OnKeyDown;
                      mkListener TheWindow "resize" 7 OnWheel] (Some 0%nat)) H).
Defined.

(** * A pencil drag among inbound messages *)

Section Interleaving.

Variable hypot : Q -> Q -> Q.

(** What arrives leaves the gesture in progress alone: memory only grows,
    and the fields of the gesture, of the style and of the viewport are not
    written. *)
Lemma inbound_frame (g : Game) (e : Event) :
  local_event e = false ->
  (exists k, arrs (step hypot g e) = arrs g ++ k)
  /\ clicked (step hypot g e) = clicked g
  /\ isPanning (step hypot g e) = isPanning g
  /\ selectedTool (step hypot g e) = selectedTool g
  /\ currentPencilStroke (step hypot g e) = currentPencilStroke g
  /\ currentColor (step hypot g e) = currentColor g
  /\ currentLineWidth (step hypot g e) = currentLineWidth g
  /\ roomId (step hypot g e) = roomId g
  /\ scale (step hypot g e) = scale g
  /\ offsetX (step hypot g e) = offsetX g
  /\ offsetY (step hypot g e) = offsetY g.
Proof.
  intros He. destruct e as [| | | | | | | | |ss|data]; try discriminate; simpl.
  - unfold init_resolved.
    destruct (parse_all_spec ss (objs g) (arrs g)) as (os' & k & -> & _).
    split; [by exists k|done].
  - destruct data as [| | |[s|ss f]]; simpl;
      try (split; [exists []; by rewrite app_nil_r|done]).
    + destruct (parse_spec s (arrs g)) as (k & Hk & _).
      destruct (parse s (arrs g)) as [o m]. simpl in *. subst m.
      split; [by exists k|done].
    + destruct (parse_all_spec ss (objs g) (arrs g)) as (os' & k & -> & _).
      split; [exists k; by destruct f as [[|]|], (activeShape g)|].
      by destruct f as [[|]|], (activeShape g).
Qed.

Lemma moved_points_viewport (g g' : Game) (es : list Event) :
  scale g' = scale g -> offsetX g' = offsetX g -> offsetY g' = offsetY g ->
  moved_points g' es = moved_points g es.
Proof.
  intros Hs Hx Hy. unfold moved_points, screenToCanvas. by rewrite Hs, Hx, Hy.
Qed.

(** The invariant of a pencil drag among inbound events. *)
Lemma pencil_drag_mixed (g : Game) (es : list Event) :
  wf g = true -> clicked g = true -> isPanning g = false -> selectedTool g = Tpencil ->
  forallb drag_or_inbound es = true ->
  let G := run hypot g es in
  wf G = true /\ clicked G = true /\ selectedTool G = Tpencil
  /\ currentPencilStroke G = currentPencilStroke g
  /\ deref_arr (arrs G) (currentPencilStroke g)
     = deref_arr (arrs g) (currentPencilStroke g) ++ moved_points g es
  /\ currentColor G = currentColor g /\ currentLineWidth G = currentLineWidth g
  /\ roomId G = roomId g.
Proof.
  revert g. induction es as [|e es IH]; intros g Hwf Hc Hp Ht Hes; cbv zeta.
  - simpl. by rewrite app_nil_r.
  - simpl in Hes. apply andb_true_iff in Hes as [He Hes].
    change (run hypot g (e :: es)) with (run hypot (step hypot g e) es).
    pose proof (wf_step hypot g e Hwf) as Hwf'.
    pose proof Hwf as Hst. unfold wf in Hst. apply wf_mem_iff in Hst.
    destruct Hst as (_ & _ & Hst & _).
    destruct (local_event e) eqn:Hloc.
    + destruct e as [|? ?|x y| | | | | | | |]; try discriminate.
      assert (E : step hypot g (MouseMove x y)
                  = set_arrs (set_currentMouse g (point_x (screenToCanvas g x y))
                                               (point_y (screenToCanvas g x y)))
                             (<[currentPencilStroke g :=
                                  deref_arr (arrs g) (currentPencilStroke g)
                                  ++ [screenToCanvas g x y]]> (arrs g))).
      { simpl. unfold mouseMoveHandler. rewrite Hc, Hp. simpl. by rewrite Hc, Ht. }
      rewrite E in *.
      destruct (IH _ Hwf' Hc Hp Ht Hes) as (H1 & H2 & H3 & H4 & H5 & H6 & H7 & H8).
      repeat split; try assumption.
      cbn [currentPencilStroke set_arrs set_currentMouse] in H5. rewrite H5.
      cbn [arrs set_arrs]. unfold deref_arr at 1.
      rewrite list_lookup_insert_eq by done.
      change (moved_points (set_arrs _ _) es) with (moved_points g es).
      simpl. rewrite <- app_assoc. reflexivity.
    + destruct (inbound_frame g e Hloc)
        as ((k & Hk) & Hc' & Hp' & Ht' & Hs' & Hcol & Hlw & Hr & Hsc & Hx & Hy).
      destruct (IH (step hypot g e) Hwf') as (H1 & H2 & H3 & H4 & H5 & H6 & H7 & H8);
        [congruence|congruence|congruence|done|].
      rewrite Hs' in H4, H5. rewrite Hk, deref_arr_app in H5 by done.
      rewrite (moved_points_viewport g (step hypot g e) es Hsc Hx Hy) in H5.
      repeat split; try congruence.
      rewrite H5. f_equal. unfold moved_points. cbn [flat_map].
      by destruct e.
Qed.

(** A stroke in progress is not disturbed by what arrives.  Between the
    press of the pencil and the release, updates and shapes may come from
    the socket and the initial fetch may resolve, and replace the store any
    number of times: the release still appends to the store of that moment
    the stroke through the press point and the points of the moves, in
    order, and sends it. *)
Theorem pencil_stroke_survives_inbound (g : Game) (x0 y0 x1 y1 : Q) (es : list Event) :
  wf g = true -> isPanning g = false -> selectedTool g = Tpencil ->
  forallb drag_or_inbound es = true ->
  moved_points g es <> [] ->
  let G := run hypot g (MouseDown x0 y0 :: es) in
  let stroke := Pencil (screenToCanvas g x0 y0 :: moved_points g es)
                       (currentColor g) (currentLineWidth g) in
  shapes_json (mouseUpHandler hypot G x1 y1) = shapes_json G ++ [stroke]
  /\ sent (mouseUpHandler hypot G x1 y1) = sent G ++ [chat (ShapeMsg stroke) (roomId g)].
Proof.
  intros Hwf Hp Ht Hes Hne. cbv zeta.
  change (run hypot g (MouseDown x0 y0 :: es))
    with (run hypot (mouseDownHandler hypot g x0 y0) es).
  pose proof (wf_mouseDownHandler hypot g x0 y0 Hwf) as Hwf1.
  revert Hwf1. rewrite mouseDownHandler_eq, Hp, Ht. cbv zeta.
  set (p0 := screenToCanvas g x0 y0).
  set (g1 := set_currentPencilStroke _ _). intros Hwf1.
  destruct (pencil_drag_mixed g1 es Hwf1 eq_refl Hp Ht Hes)
    as (HwfG & HcG & HtG & HsG & Hbuf & Hcol & Hlw & Hroom).
  set (G := run hypot g1 es) in *.
  destruct (mouseUp_release_rule hypot G x1 y1 HwfG HcG) as [Hs Hm].
  rewrite HtG in Hs, Hm. unfold release_rule in Hs, Hm. cbv zeta in Hs, Hm.
  rewrite HsG in Hs, Hm.
  change (currentPencilStroke g1) with (length (arrs g)) in Hs, Hm, Hbuf.
  rewrite Hbuf in Hs, Hm.
  change (arrs g1) with (arrs g ++ [[mkPoint (point_x p0) (point_y p0)]]) in Hs, Hm.
  rewrite deref_arr_new in Hs, Hm.
  change (moved_points g1 es) with (moved_points g es) in Hs, Hm.
  change (mkPoint (point_x p0) (point_y p0)) with p0 in Hs, Hm.
  destruct (moved_points g es) as [|q qs]; [done|].
  cbn [app length Nat.ltb Nat.leb] in Hs, Hm. rewrite Hcol, Hlw in Hs, Hm.
  rewrite Hroom in Hm. split; [exact Hs|exact Hm].
Qed.

End Interleaving.

Lemma pencil_stroke_survives_inbound_witness :
  (wf (newGame "room") = true /\ isPanning (newGame "room") = false
   /\ selectedTool (newGame "room") = Tpencil
   /\ forallb drag_or_inbound drag_with_arrivals = true
   /\ moved_points (newGame "room") drag_with_arrivals <> [])
  /\ shapes_json (mouseUpHandler hypot_approx
                    (run hypot_approx (newGame "room") (MouseDown 1 2 :: drag_with_arrivals))
                    9 9)
     = shapes_json (run hypot_approx (newGame "room") (MouseDown 1 2 :: drag_with_arrivals))
       ++ [Pencil (screenToCanvas (newGame "room") 1 2
                   :: moved_points (newGame "room") drag_with_arrivals)
                  (currentColor (newGame "room")) (currentLineWidth (newGame "room"))].
Proof.
  assert (Hne : moved_points (newGame "room") drag_with_arrivals <> []).
  { vm_compute. discriminate. }
  split; [repeat split; try reflexivity; exact Hne|].
  exact (proj1 (pencil_stroke_survives_inbound hypot_approx (newGame "room") 1 2 9 9
                  drag_with_arrivals eq_refl eq_refl eq_refl eq_refl Hne)).
Defined.
